(** * Keeta chain: ledger, proof of work and gossip

    A shallow embedding of the ledger core of the repository and the
    properties of its specification.  The classes embedded are
    [CryptoUtils] (crypto.js), [Transaction], [Block] and [Blockchain]
    (core/blockchain.js), both in src/keeta-integration.js, and
    [KeetaNode] (network/node.js), in src/production-app.js.

    Conventions of the embedding.
    - JavaScript strings are [string]s of bytes (the UTF-8 encoding that
      [Hash.update] feeds to SHA-256).
    - JavaScript numbers are the finite doubles, each as the rational
      it stands for ([Q]); the arithmetic on them rounds to the nearest
      double ([Double]).  Integers such as [index], [timestamp] and
      [nonce] are [Z].  [NaN] and the infinities are outside the model.
    - [null] and [undefined] are the [None] of an [option].
    - [Date.now()] and [uuidv4()] are inputs of the operation that calls
      them.
    - A call that can throw returns an [outcome]; a method that mutates
      [this] and can throw returns the outcome together with the state
      reached. *)

From Stdlib Require Import String Ascii DecimalString DecimalPos DecimalZ.
From Stdlib Require Import ZArith NArith QArith Qround Qabs Qpower.
From Stdlib Require Import Bool Lia Lqa List Sorted.
From stdpp Require Import base option list gmap strings.
Import ListNotations.

(** ** SHA-256 ([crypto.createHash('sha256')] of Node.js), FIPS 180-4 *)

Module SHA256.
Local Open Scope N_scope.

Definition mask32 : N := 4294967295.
Definition w32 (x : N) : N := N.land x mask32.
Definition add32 (x y : N) : N := w32 (x + y).
Definition rotr (n x : N) : N := N.lor (N.shiftr x n) (w32 (N.shiftl x (32 - n))).
Definition xor3 (x y z : N) : N := N.lxor (N.lxor x y) z.

Definition Ch (x y z : N) : N := N.lxor (N.land x y) (N.land (N.lxor x mask32) z).
Definition Maj (x y z : N) : N := xor3 (N.land x y) (N.land x z) (N.land y z).
Definition bigS0 (x : N) : N := xor3 (rotr 2 x) (rotr 13 x) (rotr 22 x).
Definition bigS1 (x : N) : N := xor3 (rotr 6 x) (rotr 11 x) (rotr 25 x).
Definition smallS0 (x : N) : N := xor3 (rotr 7 x) (rotr 18 x) (N.shiftr x 3).
Definition smallS1 (x : N) : N := xor3 (rotr 17 x) (rotr 19 x) (N.shiftr x 10).

(** The round constants are the first 32 bits of the fractional parts of
    the cube roots of the first 64 primes, the initial state those of the
    square roots of the first 8. *)
Definition primes64 : list N :=
  [2; 3; 5; 7; 11; 13; 17; 19; 23; 29; 31; 37; 41; 43; 47; 53;
   59; 61; 67; 71; 73; 79; 83; 89; 97; 101; 103; 107; 109; 113; 127; 131;
   137; 139; 149; 151; 157; 163; 167; 173; 179; 181; 191; 193; 197; 199; 211; 223;
   227; 229; 233; 239; 241; 251; 257; 263; 269; 271; 277; 281; 283; 293; 307; 311].

Fixpoint cbrt_bits (bits : nat) (n r : N) : N :=
  match bits with
  | O => r
  | S b =>
      let c := r + N.shiftl 1 (N.of_nat b) in
      cbrt_bits b n (if c * c * c <=? n then c else r)
  end.

Definition frac_cbrt32 (p : N) : N := w32 (cbrt_bits 36 (N.shiftl p 96) 0).
Definition frac_sqrt32 (p : N) : N := w32 (N.sqrt (N.shiftl p 64)).

Definition K : list N := Eval vm_compute in map frac_cbrt32 primes64.
Definition H0 : list N := Eval vm_compute in map frac_sqrt32 (firstn 8 primes64).

(** Big-endian encoding of [x] on [n] bytes. *)
Fixpoint be_bytes (n : nat) (x : N) : list N :=
  match n with
  | O => []
  | S m => N.land (N.shiftr x (8 * N.of_nat m)) 255 :: be_bytes m x
  end.

Definition pad (msg : list N) : list N :=
  let len := N.of_nat (length msg) in
  msg ++ 128 :: repeat 0 (N.to_nat ((119 - len mod 64) mod 64)) ++ be_bytes 8 (8 * len).

Fixpoint words (bs : list N) : list N :=
  match bs with
  | a :: b :: c :: d :: rest =>
      N.lor (N.shiftl a 24) (N.lor (N.shiftl b 16) (N.lor (N.shiftl c 8) d)) :: words rest
  | _ => []
  end.

Fixpoint chunks (fuel : nat) (ws : list N) : list (list N) :=
  match fuel, ws with
  | O, _ | _, [] => []
  | S f, _ => firstn 16 ws :: chunks f (skipn 16 ws)
  end.

(** Message schedule, most recent word first. *)
Fixpoint extend (n : nat) (rw : list N) : list N :=
  match n with
  | O => rw
  | S m =>
      let w := add32 (add32 (smallS1 (nth 1 rw 0)) (nth 6 rw 0))
                     (add32 (smallS0 (nth 14 rw 0)) (nth 15 rw 0)) in
      extend m (w :: rw)
  end.

Definition schedule (blk : list N) : list N := rev (extend 48 (rev blk)).

Definition round (s : list N) (kw : N * N) : list N :=
  match s with
  | [a; b; c; d; e; f; g; h] =>
      let t1 := add32 (add32 (add32 h (bigS1 e)) (add32 (Ch e f g) (fst kw))) (snd kw) in
      let t2 := add32 (bigS0 a) (Maj a b c) in
      [add32 t1 t2; a; b; c; add32 d t1; e; f; g]
  | _ => s
  end.

Definition compress (hs blk : list N) : list N :=
  map (fun p => add32 (fst p) (snd p))
      (combine hs (fold_left round (combine K (schedule blk)) hs)).

Definition digest (msg : list N) : list N :=
  let ws := words (pad msg) in
  fold_left compress (chunks (length ws) ws) H0.

Definition hex_digit (n : N) : ascii :=
  ascii_of_N (if n <? 10 then 48 + n else 87 + n).

Fixpoint hex_of (digits : nat) (x : N) : string :=
  match digits with
  | O => EmptyString
  | S d => String (hex_digit (N.land (N.shiftr x (4 * N.of_nat d)) 15)) (hex_of d x)
  end.

Definition bytes_of_string (s : string) : list N := map N_of_ascii (list_ascii_of_string s).

(** [createHash('sha256').update(s).digest('hex')] *)
Definition sha256_hex (s : string) : string :=
  fold_right (fun w acc => String.append (hex_of 8 w) acc) EmptyString (digest (bytes_of_string s)).

End SHA256.

(** ** The numbers of JavaScript: IEEE 754 binary64

    A finite double is the rational it stands for.  [round q] is the
    double nearest to [q], a tie going to the one whose last bit is 0:
    fifty-three bits from the leading one, and no bit below [2 ^ -1074]
    (the subnormal numbers).  Beyond the largest double the code has
    [Infinity], which like [NaN] is not a number of this model: there
    [round] keeps the fifty-three bits. *)

Module Double.

(** [ilog2 x], for a positive [x]: the [e] with [2 ^ e <= x < 2 ^ (e + 1)]. *)
Definition ilog2 (x : Q) : Z :=
  if Qle_bool 1 x then Z.log2 (Qfloor x) else (- Z.log2_up (Qceiling (/ x)))%Z.

(** The nearest integer, a tie going to the even one. *)
Definition nearest_even (x : Q) : Z :=
  let f := Qfloor x in
  match (x - inject_Z f ?= 1 # 2)%Q with
  | Lt => f
  | Gt => (f + 1)%Z
  | Eq => if Z.even f then f else (f + 1)%Z
  end.

Definition round (q : Q) : Q :=
  if Qeq_bool q 0 then 0%Q
  else
    let u := Z.max (ilog2 (Qabs q) - 52) (-1074) in
    Qred (inject_Z (nearest_even (q / 2 ^ u)) * 2 ^ u)%Q.

(** The operators [+], [-], [*] and [/] on numbers. *)
Definition add (x y : Q) : Q := round (x + y).
Definition sub (x y : Q) : Q := round (x - y).
Definition mul (x y : Q) : Q := round (x * y).
Definition div (x y : Q) : Q := round (x / y).

(** [Math.round(x)]: the integer nearest to [x], a tie going up. *)
Definition Math_round (x : Q) : Z := Qfloor (x + (1 # 2))%Q.

End Double.

(** ** JSON values and [JSON.stringify] *)

Module JSON.
Local Open Scope string_scope.

#[local] Unset Elimination Schemes.
Inductive json : Type :=
| JNull
| JBool (b : bool)
| JNum (q : Q)
| JStr (s : string)
| JArr (items : list json)
| JObj (members : list (string * json)).
#[local] Set Elimination Schemes.

Definition show_Z (z : Z) : string := NilZero.string_of_int (Z.to_int z).

(** The number of decimal digits of a positive integer. *)
Definition decimal_digits (z : Z) : Z := Z.of_nat (String.length (show_Z z)).

(** [magnitude x], for a positive [x]: the [n] with
    [10 ^ (n - 1) <= x < 10 ^ n]. *)
Definition magnitude (x : Q) : Z :=
  if Qle_bool 1 x then decimal_digits (Qfloor x)
  else (1 - decimal_digits (Qceiling (/ x) - 1))%Z.

Fixpoint zero_digits (n : nat) : string :=
  match n with
  | O => ""
  | S m => String "0" (zero_digits m)
  end.

(** The decimal [s * 10 ^ (n - k)] is read as the double [x]. *)
Definition reads_as (x : Q) (s n k : Z) : bool :=
  Qeq_bool (Double.round (inject_Z s * 10 ^ (n - k))%Q) x.

(** [Number::toString], the digits: the least [k], from the one given
    on, and the [s] of [k] digits for which [s * 10 ^ (n - k)] is read as
    [x]; of two such [s] the one nearer to [x].  Seventeen digits tell
    every double from the next. *)
Fixpoint shortest (fuel : nat) (x : Q) (n k : Z) : Z * Z * Z :=
  let t := (x * 10 ^ (k - n))%Q in
  let lo := Qfloor t in
  let hi := (lo + 1)%Z in
  let nearer := Double.nearest_even t in
  let s :=
    if reads_as x lo n k && reads_as x hi n k then Some nearer
    else if reads_as x lo n k then Some lo
    else if reads_as x hi n k then Some hi
    else None in
  match s, fuel with
  | Some s, _ => if (s =? 10 ^ k)%Z then ((s / 10)%Z, k, (n + 1)%Z) else (s, k, n)
  | None, S f => shortest f x n (k + 1)%Z
  | None, O => (nearer, k, n)
  end.

(** [Number::toString], the text, from the [k] digits [s] and the [n]
    that places the decimal point. *)
Definition positional (s k n : Z) : string :=
  let ds := show_Z s in
  if ((k <=? n) && (n <=? 21))%Z then ds ++ zero_digits (Z.to_nat (n - k))
  else if ((0 <? n) && (n <=? 21))%Z then
    String.substring 0 (Z.to_nat n) ds ++ "."
    ++ String.substring (Z.to_nat n) (Z.to_nat (k - n)) ds
  else if ((-6 <? n) && (n <=? 0))%Z then "0." ++ zero_digits (Z.to_nat (- n)) ++ ds
  else
    let e := (n - 1)%Z in
    let exponent := (if (0 <=? e)%Z then "e+" else "e-") ++ show_Z (Z.abs e) in
    if (k =? 1)%Z then ds ++ exponent
    else String.substring 0 1 ds ++ "."
         ++ String.substring 1 (Z.to_nat (k - 1)) ds ++ exponent.

(** Number to text: an integer prints as its digits, as JavaScript
    prints the integers up to [2 ^ 53]; any other double prints as the
    shortest decimal that is read as it. *)
Definition show_number (q : Q) : string :=
  let n := Qnum q in
  let d := Z.pos (Qden q) in
  if (n mod d =? 0)%Z then show_Z (n / d)
  else
    let x := Qabs q in
    let '(s, k, m) := shortest 16 x (magnitude x) 1 in
    (if (n <? 0)%Z then "-" else "") ++ positional s k m.

Definition hex4 (n : N) : string := SHA256.hex_of 4 n.

Definition dquote : ascii := ascii_of_N 34.
Definition backslash : ascii := ascii_of_N 92.

Definition escape_char (c : ascii) : string :=
  let n := N_of_ascii c in
  let esc (s : string) := String backslash s in
  if (n =? 34)%N then esc (String dquote "")
  else if (n =? 92)%N then esc (String backslash "")
  else if (n =? 8)%N then esc "b"
  else if (n =? 9)%N then esc "t"
  else if (n =? 10)%N then esc "n"
  else if (n =? 12)%N then esc "f"
  else if (n =? 13)%N then esc "r"
  else if (n <? 32)%N then esc ("u" ++ hex4 n)
  else String c "".

Fixpoint escape (s : string) : string :=
  match s with
  | EmptyString => ""
  | String c rest => escape_char c ++ escape rest
  end.

Definition quote (s : string) : string :=
  String dquote (escape s ++ String dquote "").

Fixpoint stringify (j : json) : string :=
  match j with
  | JNull => "null"
  | JBool b => if b then "true" else "false"
  | JNum q => show_number q
  | JStr s => quote s
  | JArr items =>
      "[" ++ (fix elems (l : list json) : string :=
                match l with
                | [] => ""
                | x :: r =>
                    match r with
                    | [] => stringify x
                    | _ => stringify x ++ "," ++ elems r
                    end
                end) items ++ "]"
  | JObj members =>
      "{" ++ (fix props (l : list (string * json)) : string :=
                match l with
                | [] => ""
                | (k, v) :: r =>
                    match r with
                    | [] => quote k ++ ":" ++ stringify v
                    | _ => quote k ++ ":" ++ stringify v ++ "," ++ props r
                    end
                end) members ++ "}"
  end.

(** The text between the braces of an object. *)
Fixpoint obj_string (l : list (string * json)) : string :=
  match l with
  | [] => ""
  | (k, v) :: r =>
      match r with
      | [] => quote k ++ ":" ++ stringify v
      | _ => quote k ++ ":" ++ stringify v ++ "," ++ obj_string r
      end
  end.

(** A property whose value is [undefined] is left out of the object. *)
Definition prop {A} (k : string) (f : A -> json) (v : option A) : list (string * json) :=
  match v with
  | Some a => [(k, f a)]
  | None => []
  end.

(** A [null] value is printed. *)
Definition nullable {A} (f : A -> json) (v : option A) : json :=
  match v with
  | Some a => f a
  | None => JNull
  end.

Definition JInt (z : Z) : json := JNum (inject_Z z).

End JSON.
Import JSON.

Open Scope string_scope.
Open Scope list_scope.
Open Scope Z_scope.

(** ** Results of calls that can throw *)

Inductive outcome (A : Type) : Type :=
| Return (a : A)
| Throw (message : string).
Arguments Return {A} a.
Arguments Throw {A} message.

Definition bind {A B} (m : outcome A) (k : A -> outcome B) : outcome B :=
  match m with
  | Return a => k a
  | Throw e => Throw e
  end.

Notation "'let*' x ':=' m 'in' k" := (bind m (fun x => k))
  (at level 10, x name, m at level 100, k at level 200).

Definition returns {A} (m : outcome A) : bool :=
  match m with
  | Return _ => true
  | Throw _ => false
  end.

(** JavaScript truthiness of the values the code tests. *)
Definition truthy_string (s : option string) : bool :=
  match s with
  | Some s => negb (s =? "")%string
  | None => false
  end.

Definition truthy_number (n : option Z) : bool :=
  match n with
  | Some n => negb (n =? 0)
  | None => false
  end.

Definition truthy_object {A} (o : option A) : bool :=
  match o with
  | Some _ => true
  | None => false
  end.

(** [Array.prototype.slice(start, end)] for integer arguments: a negative
    index counts from the end, and both are clamped to the array. *)
Definition relative_index (len k : Z) : Z :=
  if k <? 0 then Z.max (len + k) 0 else Z.min k len.

Definition slice {A} (l : list A) (start : Z) (stop : option Z) : list A :=
  let len := Z.of_nat (length l) in
  let s := relative_index len start in
  let e := match stop with
           | Some e => relative_index len e
           | None => len
           end in
  firstn (Z.to_nat (e - s)) (skipn (Z.to_nat s) l).

(** ** [CryptoUtils] (core/crypto.js) *)

Module CryptoUtils.

(** [createHash(data)]: SHA-256 of [JSON.stringify(data)], in hex. *)
Definition createHash (data : json) : string :=
  SHA256.sha256_hex (stringify data).

(** [validateAddress(address)]: ['K'], a two-character version, forty
    characters of hash and eight of checksum, the checksum being the first
    eight hex digits of the SHA-256 of version and hash. *)
Definition validateAddress (address : option string) : bool :=
  match address with
  | None => false
  | Some address =>
      if negb (truthy_string (Some address)) || negb (String.prefix "K" address) then false
      else if negb (Z.of_nat (String.length address) =? 51) then false
      else
        let version := String.substring 1 2 address in
        let hash := String.substring 3 40 address in
        let checksum := String.substring 43 8 address in
        let expectedChecksum :=
          String.substring 0 8 (SHA256.sha256_hex (version ++ hash)%string) in
        (checksum =? expectedChecksum)%string
  end.

(** [generateAddress(publicKey)]: ['K'], version ['00'], the first forty
    hex digits of the SHA-256 of the key, and the checksum of the two. *)
Definition generateAddress (publicKey : string) : string :=
  let hash := SHA256.sha256_hex publicKey in
  let version := "00" in
  let payload := (version ++ String.substring 0 40 hash)%string in
  let checksum := String.substring 0 8 (SHA256.sha256_hex payload) in
  ("K" ++ payload ++ checksum)%string.

End CryptoUtils.

(** ** [Transaction] (core/blockchain.js) *)

Module Transaction.

Record t : Type := mk {
  id : string;
  fromAddress : option string;
  toAddress : option string;
  amount : Q;
  timestamp : Z;
  data : json;
  signature : option string
}.

(** [Math.round(amount * 100) / 100] *)
Definition round2 (amount : Q) : Q :=
  Double.div (inject_Z (Double.Math_round (Double.mul amount 100))) 100.

(** [new Transaction(fromAddress, toAddress, amount, data)]; [id] is the
    value of [uuidv4()] and [now] that of [Date.now()]. *)
Definition new (id : string) (now : Z)
    (fromAddress toAddress : option string) (amount : Q) (data : json) : outcome t :=
  if negb (CryptoUtils.validateAddress toAddress) then
    Throw "Invalid recipient address"
  else if truthy_string fromAddress && negb (CryptoUtils.validateAddress fromAddress) then
    Throw "Invalid sender address"
  else if Qle_bool amount 0 then
    Throw "Invalid transaction amount"
  else
    Return {| id := id;
              fromAddress := fromAddress;
              toAddress := toAddress;
              amount := round2 amount;
              timestamp := now;
              data := data;
              signature := None |}.

(** Properties in the order the constructor assigns them. *)
Definition toJSON (tx : t) : json :=
  JObj [("id", JStr (id tx));
        ("fromAddress", nullable JStr (fromAddress tx));
        ("toAddress", nullable JStr (toAddress tx));
        ("amount", JNum (amount tx));
        ("timestamp", JInt (timestamp tx));
        ("data", data tx);
        ("signature", nullable JStr (signature tx))].

(** [isValid()]: a reward is valid, an unsigned transfer throws, a signed
    one is valid (the signature is only tested for presence). *)
Definition isValid (this : t) : outcome bool :=
  match fromAddress this with
  | None => Return true
  | Some _ =>
      if negb (truthy_string (signature this)) then
        Throw "Transaction is not signed"
      else
        Return (truthy_string (signature this))
  end.

(** [calculateHash()] of a transaction. *)
Definition calculateHash (this : t) : string :=
  CryptoUtils.createHash
    (JObj [("fromAddress", nullable JStr (fromAddress this));
           ("toAddress", nullable JStr (toAddress this));
           ("amount", JNum (amount this));
           ("timestamp", JInt (timestamp this));
           ("data", data this)]).

(** [signTransaction(signingKey)].  [derive] stands for the cryptographic
    library: the address generated from the public key of a signing key,
    or the error of [crypto.createPublicKey].  The last statement calls
    [SecureWallet.signTransaction] on the class, where it is not defined
    (it is a method of instances): the call throws before [this.signature]
    is assigned. *)
Definition signTransaction {key : Type} (derive : key -> outcome string)
    (signingKey : option key) (this : t) : outcome unit * t :=
  match signingKey with
  | None => (Throw "Private key is required for signing", this)
  | Some k =>
      let sign := (Throw "SecureWallet.signTransaction is not a function", this) in
      if truthy_string (fromAddress this) then
        match derive k with
        | Throw e => (Throw e, this)
        | Return derivedAddress =>
            if negb (match fromAddress this with
                     | Some a => (derivedAddress =? a)%string
                     | None => false
                     end)
            then (Throw "Private key does not match sender address", this)
            else sign
        end
      else sign
  end.

End Transaction.

(** ** Bounded iteration

    [iterate body n s] runs [body] from [s] until it answers [inr], at most
    [n] times; [inl] is the state after [n] rounds that all continued. *)

Fixpoint iterate {S R : Type} (body : S -> S + R) (n : positive) (s : S) : S + R :=
  match n with
  | xH => body s
  | xO p =>
      match iterate body p s with
      | inl s' => iterate body p s'
      | inr r => inr r
      end
  | xI p =>
      match body s with
      | inl s' =>
          match iterate body p s' with
          | inl s'' => iterate body p s''
          | inr r => inr r
          end
      | inr r => inr r
      end
  end.

(** [rounds body s s']: [s'] is reached from [s] by rounds that continue. *)
Inductive rounds {S R : Type} (body : S -> S + R) : S -> S -> Prop :=
| rounds_refl : forall s, rounds body s s
| rounds_step : forall s s' s'', body s = inl s' -> rounds body s' s'' -> rounds body s s''.

(** ** [Block] (core/blockchain.js) *)

Module Block.

(** [nonce] is [None] while the property is undefined: inside the
    constructor, and on a block received from a peer without one. *)
Record t : Type := mk {
  index : Z;
  timestamp : Z;
  transactions : list Transaction.t;
  previousHash : string;
  hash : string;
  nonce : option Z
}.

Definition set_hash (this : t) (h : string) : t :=
  mk (index this) (timestamp this) (transactions this) (previousHash this) h (nonce this).

Definition set_nonce (this : t) (n : option Z) : t :=
  mk (index this) (timestamp this) (transactions this) (previousHash this) (hash this) n.

(** The object that [calculateHash] hands to [createHash]. *)
Definition content (this : t) : json :=
  JObj ([("index", JInt (index this));
         ("timestamp", JInt (timestamp this));
         ("transactions", JArr (map Transaction.toJSON (transactions this)));
         ("previousHash", JStr (previousHash this))]
        ++ prop "nonce" JInt (nonce this)).

Definition calculateHash (this : t) : string :=
  CryptoUtils.createHash (content this).

(** [new Block(index, transactions, previousHash, timestamp)], the
    assignments in the order of the constructor: [calculateHash] runs
    while [this.nonce] is still undefined. *)
Definition new (index : Z) (transactions : list Transaction.t)
    (previousHash : string) (timestamp : Z) : t :=
  let this := mk index timestamp transactions previousHash "" None in
  let this := set_hash this (calculateHash this) in
  set_nonce this (Some 0).

(** [JSON.stringify(block)]: the own properties in assignment order. *)
Definition toJSON (this : t) : json :=
  JObj ([("index", JInt (index this));
         ("timestamp", JInt (timestamp this));
         ("transactions", JArr (map Transaction.toJSON (transactions this)));
         ("previousHash", JStr (previousHash this));
         ("hash", JStr (hash this))]
        ++ prop "nonce" JInt (nonce this)).

Definition MAX_SAFE_INTEGER : Z := 9007199254740991.

Fixpoint zeros (n : nat) : string :=
  match n with
  | O => ""
  | S m => String "0" (zeros m)
  end.

(** The negation of the loop condition of [mineBlock]. *)
Definition solved (difficulty : nat) (this : t) : bool :=
  (String.substring 0 difficulty (hash this) =? zeros difficulty)%string.

(** One evaluation of the loop condition and, if it holds, of the loop
    body.  [inr None]: the body would increment a nonce that is not a
    number, which the model does not follow. *)
Definition mine_round (difficulty : nat) (this : t)
  : t + option (outcome unit * t) :=
  if solved difficulty this then inr (Some (Return tt, this))
  else
    match nonce this with
    | None => inr None
    | Some n =>
        let this := set_nonce this (Some (n + 1)) in
        let this := set_hash this (calculateHash this) in
        if n + 1 >? MAX_SAFE_INTEGER then
          inr (Some (Throw "Mining timeout - nonce exceeded maximum value", this))
        else inl this
    end.

(** Rounds after which a loop started at nonce [n] has ended. *)
Definition rounds_bound (n : option Z) : positive :=
  match n with
  | Some n => Z.to_pos (MAX_SAFE_INTEGER + 1 - n)
  | None => 1%positive
  end.

(** [mineBlock(difficulty)]: how the call ends and the block it leaves. *)
Definition mineBlock (difficulty : nat) (this : t) : option (outcome unit * t) :=
  match iterate (mine_round difficulty) (rounds_bound (nonce this)) this with
  | inr r => r
  | inl _ => None
  end.

Fixpoint hasValidTransactions_from (txs : list Transaction.t) : outcome bool :=
  match txs with
  | [] => Return true
  | tx :: rest =>
      let* valid := Transaction.isValid tx in
      if negb valid then Return false else hasValidTransactions_from rest
  end.

Definition hasValidTransactions (this : t) : outcome bool :=
  hasValidTransactions_from (transactions this).

End Block.

(** ** [Blockchain] (core/blockchain.js) *)

Module Blockchain.

Record t : Type := mk {
  chain : list Block.t;
  difficulty : nat;
  pendingTransactions : list Transaction.t;
  miningReward : Q;
  maxTransactionsPerBlock : Z;
  isInitialized : bool
}.

Definition set_chain (this : t) (c : list Block.t) : t :=
  mk c (difficulty this) (pendingTransactions this) (miningReward this)
     (maxTransactionsPerBlock this) (isInitialized this).

Definition set_pendingTransactions (this : t) (p : list Transaction.t) : t :=
  mk (chain this) (difficulty this) p (miningReward this)
     (maxTransactionsPerBlock this) (isInitialized this).

Definition set_isInitialized (this : t) (b : bool) : t :=
  mk (chain this) (difficulty this) (pendingTransactions this) (miningReward this)
     (maxTransactionsPerBlock this) b.

(** [new Blockchain()] *)
Definition new : t := mk [] 4%nat [] 10%Q 10000 false.

(** [createGenesisBlock()]; [now] is the [Date.now()] of the default
    [timestamp] argument of [Block]. *)
Definition createGenesisBlock (now : Z) : Block.t :=
  Block.new 0 [] "0" now.

(** [initialize()].  [stored] is what the database yields: the saved chain
    and pool, or the failure of one of its calls. *)
Definition initialize (now : Z)
    (stored : outcome (list Block.t * list Transaction.t)) (this : t) : t :=
  if isInitialized this then this
  else
    match stored with
    | Return (savedChain, savedPending) =>
        let this :=
          if (0 <? length savedChain)%nat then set_chain this savedChain
          else set_chain this [createGenesisBlock now] in
        set_isInitialized (set_pendingTransactions this savedPending) true
    | Throw _ =>
        set_isInitialized (set_chain this [createGenesisBlock now]) true
    end.

(** [this.chain[this.chain.length - 1]], [None] for [undefined]. *)
Definition getLatestBlock (this : t) : option Block.t :=
  nth_error (chain this) (length (chain this) - 1).

(** [a === b] on values that are a string or [null]. *)
Definition same_address (a b : option string) : bool :=
  match a, b with
  | Some x, Some y => (x =? y)%string
  | None, None => true
  | _, _ => false
  end.

Definition account (address : option string) (balance : Q) (trans : Transaction.t) : Q :=
  let balance :=
    if same_address (Transaction.fromAddress trans) address
    then Double.sub balance (Transaction.amount trans) else balance in
  if same_address (Transaction.toAddress trans) address
  then Double.add balance (Transaction.amount trans) else balance.

Definition getBalance (this : t) (address : option string) : Q :=
  fold_left
    (fun balance block => fold_left (account address) (Block.transactions block) balance)
    (chain this) 0%Q.

(** [addTransaction(transaction)]; the writes to the store that follow
    the push are not part of the model. *)
Definition addTransaction (transaction : Transaction.t) (this : t) : outcome unit * t :=
  if negb (truthy_string (Transaction.fromAddress transaction))
     || negb (truthy_string (Transaction.toAddress transaction)) then
    (Throw "Transaction must include from and to address", this)
  else
    match Transaction.isValid transaction with
    | Throw e => (Throw e, this)
    | Return valid =>
        if negb valid then
          (Throw "Cannot add invalid transaction to chain", this)
        else if Qle_bool (Transaction.amount transaction) 0 then
          (Throw "Transaction amount should be higher than 0", this)
        else
          let walletBalance := getBalance this (Transaction.fromAddress transaction) in
          if negb (Qle_bool (Transaction.amount transaction) walletBalance) then
            (Throw "Not enough balance", this)
          else
            (Return tt,
             set_pendingTransactions this (pendingTransactions this ++ [transaction]))
    end.

(** [minePendingTransactions(miningRewardAddress)].  [uuid] and [now] are
    read by the reward's constructor, [blockNow] by the block's.  [None]:
    outside the model, as for [Block.mineBlock]. *)
Definition minePendingTransactions (uuid : string) (now blockNow : Z)
    (miningRewardAddress : string) (this : t) : option (outcome unit * t) :=
  match Transaction.new uuid now None (Some miningRewardAddress)
                        (miningReward this) (JObj []) with
  | Throw e => Some (Throw e, this)
  | Return rewardTx =>
      let transactionsToMine :=
        slice (pendingTransactions this) 0 (Some (maxTransactionsPerBlock this))
        ++ [rewardTx] in
      match getLatestBlock this with
      | None => Some (Throw "Cannot read properties of undefined (reading 'hash')", this)
      | Some latest =>
          let block :=
            Block.new (Z.of_nat (length (chain this))) transactionsToMine
                      (Block.hash latest) blockNow in
          match Block.mineBlock (difficulty this) block with
          | None => None
          | Some (Throw e, _) => Some (Throw e, this)
          | Some (Return _, block) =>
              let this := set_chain this (chain this ++ [block]) in
              Some (Return tt,
                    set_pendingTransactions this
                      (slice (pendingTransactions this)
                             (maxTransactionsPerBlock this) None))
          end
      end
  end.

(** The loop of [isChainValid] from index [i] on, [previousBlock] being
    [chain[i - 1]] and [rest] the blocks from [chain[i]]. *)
Fixpoint links_valid (previousBlock : Block.t) (rest : list Block.t) : outcome bool :=
  match rest with
  | [] => Return true
  | currentBlock :: rest =>
      if negb (Block.hash previousBlock =? Block.previousHash currentBlock)%string then
        Return false
      else
        let* valid := Block.hasValidTransactions currentBlock in
        if negb valid then Return false
        else if negb (Block.hash currentBlock =? Block.calculateHash currentBlock)%string then
          Return false
        else links_valid currentBlock rest
  end.

(** [isChainValid()]; [now] is the [Date.now()] read by the genesis block
    that the method builds for the comparison. *)
Definition isChainValid (now : Z) (this : t) : outcome bool :=
  let realGenesis := stringify (Block.toJSON (createGenesisBlock now)) in
  match chain this with
  | [] => Return false
  | genesis :: rest =>
      if negb (realGenesis =? stringify (Block.toJSON genesis))%string then Return false
      else links_valid genesis rest
  end.

(** [getAllTransactionsForWallet(address)] *)
Definition getAllTransactionsForWallet (this : t) (address : option string)
  : list Transaction.t :=
  fold_left
    (fun txs block =>
       fold_left
         (fun txs tx =>
            if same_address (Transaction.fromAddress tx) address
               || same_address (Transaction.toAddress tx) address
            then txs ++ [tx] else txs)
         (Block.transactions block) txs)
    (chain this) [].

Record stats : Type := mk_stats {
  stats_height : nat;
  stats_difficulty : nat;
  stats_pendingTransactions : nat;
  stats_totalTransactions : nat;
  stats_isValid : bool
}.

(** [getChainStats()]; [now] is the instant read by [isChainValid]. *)
Definition getChainStats (now : Z) (this : t) : outcome stats :=
  let height := length (chain this) in
  let pending := length (pendingTransactions this) in
  let totalTransactions :=
    fold_left (fun sum block => (sum + length (Block.transactions block))%nat)
              (chain this) 0%nat in
  let* isValid := isChainValid now this in
  Return (mk_stats height (difficulty this) pending totalTransactions isValid).

(** [createTokenTransaction(creator, tokenName, symbol, totalSupply,
    metadata)]; [stamp] is the [Date.now()] of the token data, [uuid] and
    [now] are read by the constructor of the transaction. *)
Definition createTokenTransaction (uuid : string) (stamp now : Z)
    (creator : option string) (tokenName symbol : string) (totalSupply : Q)
    (metadata : json) : outcome Transaction.t :=
  let tokenData :=
    JObj [("type", JStr "TOKEN_CREATION");
          ("tokenName", JStr tokenName);
          ("symbol", JStr symbol);
          ("totalSupply", JNum totalSupply);
          ("metadata", metadata);
          ("timestamp", JInt stamp)] in
  Transaction.new uuid now creator creator 0%Q tokenData.

End Blockchain.

(** ** [KeetaNode] (network/node.js) *)

Module KeetaNode.

(** [ws.readyState] *)
Inductive readyState : Type := CONNECTING | OPEN | CLOSING | CLOSED.

Definition is_open (s : readyState) : bool :=
  match s with
  | OPEN => true
  | _ => false
  end.

Record peer : Type := mk_peer {
  ws : readyState;
  address : string;
  peer_port : Z;
  connected : Z
}.

(** The payload of a [BLOCK] message as [JSON.parse] yields it: any
    property may be missing or [null]. *)
Record blockData : Type := mk_blockData {
  index : option Z;
  timestamp : option Z;
  transactions : option (list Transaction.t);
  previousHash : option string;
  hash : option string;
  nonce : option Z
}.

Record chainData : Type := mk_chainData {
  chain : list Block.t;
  height : Z;
  tip : string
}.

(** The messages whose handlers are part of this development. *)
Inductive message : Type :=
| BLOCK (data : option blockData)
| CHAIN_REQUEST
| CHAIN_RESPONSE (data : chainData)
| HASHRATE_UPDATE (hashRate : Q).

(** [wire] is not a property of the node: it records the calls of
    [peer.ws.send], in order, as the peer and the message sent. *)
Record t : Type := mk {
  blockchain : Blockchain.t;
  port : Z;
  peers : gmap string peer;
  nodeId : string;
  hashRate : Q;
  connectedPeers : list string;
  wire : list (string * message)
}.

Definition set_blockchain (this : t) (b : Blockchain.t) : t :=
  mk b (port this) (peers this) (nodeId this) (hashRate this)
     (connectedPeers this) (wire this).

Definition set_hashRate (this : t) (h : Q) : t :=
  mk (blockchain this) (port this) (peers this) (nodeId this) h
     (connectedPeers this) (wire this).

Definition set_wire (this : t) (w : list (string * message)) : t :=
  mk (blockchain this) (port this) (peers this) (nodeId this) (hashRate this)
     (connectedPeers this) w.

(** [new KeetaNode(blockchain, port)]; [uuid] is the node's [uuidv4()]. *)
Definition new (uuid : string) (blockchain : Blockchain.t) (port : Z) : t :=
  mk blockchain port ∅ uuid 0%Q [] [].

Definition sendToPeer (peerId : string) (m : message) (this : t) : t :=
  match peers this !! peerId with
  | Some p => if is_open (ws p) then set_wire this (wire this ++ [(peerId, m)]) else this
  | None => this
  end.

(** [peerId !== excludePeerId], [excludePeerId] being a string or [null]. *)
Definition excluded (peerId : string) (excludePeerId : option string) : bool :=
  match excludePeerId with
  | Some e => (peerId =? e)%string
  | None => false
  end.

Definition broadcastToPeers (m : message) (excludePeerId : option string) (this : t) : t :=
  fold_left
    (fun this peerId =>
       if negb (excluded peerId excludePeerId) then sendToPeer peerId m this else this)
    (connectedPeers this) this.

(** [isValidBlock(block)]: the conjunction of the truthiness of the
    block and of five of its properties. *)
Definition isValidBlock (block : option blockData) : bool :=
  match block with
  | None => false
  | Some block =>
      truthy_number (index block)
      && truthy_string (hash block)
      && truthy_string (previousHash block)
      && truthy_object (transactions block)
      && truthy_number (timestamp block)
  end.

(** The element that [chain.push(blockData)] adds, as the ledger reads
    it; defined for every payload that [isValidBlock] accepts. *)
Definition pushed (b : blockData) : option Block.t :=
  match index b, timestamp b, transactions b, previousHash b, hash b with
  | Some i, Some ts, Some txs, Some p, Some h => Some (Block.mk i ts txs p h (nonce b))
  | _, _, _, _, _ => None
  end.

Definition index_is (b : blockData) (n : nat) : bool :=
  match index b with
  | Some i => i =? Z.of_nat n
  | None => false
  end.

Definition handleBlock (peerId : string) (data : option blockData) (this : t)
  : outcome unit * t :=
  match data with
  | None => (Throw "Cannot read properties of null (reading 'index')", this)
  | Some blockData =>
      if isValidBlock (Some blockData) then
        if index_is blockData (length (Blockchain.chain (blockchain this))) then
          match pushed blockData with
          | Some block =>
              let ledger := blockchain this in
              let this :=
                set_blockchain this
                  (Blockchain.set_chain ledger (Blockchain.chain ledger ++ [block])) in
              (Return tt, broadcastToPeers (BLOCK (Some blockData)) (Some peerId) this)
          | None => (Return tt, this)
          end
        else (Return tt, this)
      else (Return tt, this)
  end.

Definition replaceChain (newChain : list Block.t) (this : t) : t :=
  if (length (Blockchain.chain (blockchain this)) <? length newChain)%nat then
    set_blockchain this (Blockchain.set_chain (blockchain this) newChain)
  else this.

Definition handleChainResponse (peerId : string) (data : chainData) (this : t) : t :=
  if Z.of_nat (length (Blockchain.chain (blockchain this))) <? height data then
    replaceChain (chain data) this
  else this.

Definition handleChainRequest (peerId : string) (this : t) : outcome unit * t :=
  match Blockchain.getLatestBlock (blockchain this) with
  | None => (Throw "Cannot read properties of undefined (reading 'hash')", this)
  | Some latest =>
      let chain := Blockchain.chain (blockchain this) in
      (Return tt,
       sendToPeer peerId
         (CHAIN_RESPONSE (mk_chainData chain (Z.of_nat (length chain)) (Block.hash latest)))
         this)
  end.

Definition handleHashRateUpdate (peerId : string) (hashRate : Q) (this : t) : t :=
  set_hashRate this hashRate.

(** [handleMessage(peerId, message)] on a parsed message: the handler
    runs inside [try], and what it throws is logged and dropped. *)
Definition handleMessage (peerId : string) (m : message) (this : t) : t :=
  match m with
  | BLOCK data => snd (handleBlock peerId data this)
  | CHAIN_REQUEST => snd (handleChainRequest peerId this)
  | CHAIN_RESPONSE data => handleChainResponse peerId data this
  | HASHRATE_UPDATE h => handleHashRateUpdate peerId h this
  end.

(** [handleDisconnection(peerId)] *)
Definition handleDisconnection (peerId : string) (this : t) : t :=
  mk (blockchain this) (port this) (delete peerId (peers this)) (nodeId this)
     (hashRate this)
     (List.filter (fun id => negb (id =? peerId)%string) (connectedPeers this))
     (wire this).

(** What [JSON.stringify] and [JSON.parse] make of a block of the ledger
    on its way to a peer. *)
Definition blockData_of (block : Block.t) : blockData :=
  mk_blockData (Some (Block.index block)) (Some (Block.timestamp block))
               (Some (Block.transactions block)) (Some (Block.previousHash block))
               (Some (Block.hash block)) (Block.nonce block).

Definition broadcastBlock (block : Block.t) (this : t) : t :=
  broadcastToPeers (BLOCK (Some (blockData_of block))) None this.

Definition updateHashRate (newHashRate : Q) (this : t) : t :=
  broadcastToPeers (HASHRATE_UPDATE newHashRate) None (set_hashRate this newHashRate).

End KeetaNode.

(** ** [KeetaNetworkClient] (keeta-integration.js) *)

Module KeetaNetworkClient.

(** [derivePublicKey(seed, index)]: the SHA-256 of the seed followed by
    the decimal digits of the index. *)
Definition derivePublicKey (seed : string) (index : Z) : string :=
  SHA256.sha256_hex (seed ++ show_Z index)%string.

Definition derivePrivateKey (seed : string) (index : Z) : string :=
  SHA256.sha256_hex (seed ++ show_Z index ++ "private")%string.

(** [formatPublicKey(publicKey)] *)
Definition formatPublicKey (publicKey : string) : string :=
  ("keeta_" ++ String.substring 0 64 publicKey)%string.

(** [deriveAddress(seed, index)] *)
Definition deriveAddress (seed : string) (index : Z) : string :=
  let publicKey := derivePublicKey seed index in
  let hash := SHA256.sha256_hex publicKey in
  ("K" ++ String.substring 0 40 hash)%string.

Record account : Type := mk_account {
  seed : string;
  index : Z;
  publicKey : string;
  privateKey : string;
  publicKeyString : string;
  address : string
}.

(** [createAccount(seed, accountIndex)], the seed being given. *)
Definition createAccount (accountSeed : string) (accountIndex : Z) : account :=
  mk_account accountSeed accountIndex
    (derivePublicKey accountSeed accountIndex)
    (derivePrivateKey accountSeed accountIndex)
    (formatPublicKey (derivePublicKey accountSeed accountIndex))
    (deriveAddress accountSeed accountIndex).

End KeetaNetworkClient.

(** ** [WalletAPI] (api/wallet.js) *)

Module WalletAPI.

(** [validateAddress(address)] *)
Definition validateAddress (address : option string) : bool :=
  match address with
  | Some address => String.prefix "K" address && (Z.of_nat (String.length address) =? 41)
  | None => false
  end.

End WalletAPI.

(** ** [InputValidator] (middleware/security.js) *)

Module InputValidator.

(** The answer of a validator: [None] for [{ valid: true }], the error
    otherwise. *)
Definition verdict : Type := option string.

(** [validateAmount(amount)] on a number. *)
Definition validateAmount (amount : Q) : verdict :=
  if Qle_bool amount 0 then Some "Amount must be greater than 0"
  else if negb (Qle_bool amount 1000000) then
    Some "Amount exceeds maximum transaction limit"
  else None.

End InputValidator.

(** ** [ProductionKeetaApp] (production-app.js): the rate limiter *)

Module ProductionKeetaApp.

(** [requestCounts], the last argument and the second result, has for
    each address the instants of the requests that were let through and
    are still remembered.  The one map is shared by all the limiters that
    [rateLimitMiddleware] makes. *)

(** One request of [key] at [now] through the middleware that
    [rateLimitMiddleware(maxRequests, windowMs)] returns: [true] when
    [next()] is called, [false] when the answer is 429. *)
Definition rateLimitMiddleware (maxRequests windowMs : Z) (key : string) (now : Z)
    (counts : gmap string (list Z)) : bool * gmap string (list Z) :=
  let windowStart := now - windowMs in
  let counts :=
    match counts !! key with
    | Some _ => counts
    | None => <[key := []]> counts
    end in
  let requests := default [] (counts !! key) in
  let validRequests := List.filter (fun timestamp => windowStart <? timestamp) requests in
  if Z.of_nat (length validRequests) >=? maxRequests then (false, counts)
  else (true, <[key := validRequests ++ [now]]> counts).

End ProductionKeetaApp.

(** ** [ExplorerAPI] (api/explorer.js) *)

Module ExplorerAPI.

(** [Math.round] *)
Definition round (x : Q) : Z := Qfloor (x + (1 # 2))%Q.

(** GET [/blocks/latest]: the blocks of the answer, before they are
    summarised.  [limit] is [parseInt(req.query.limit)], [None] when that
    is [NaN]. *)
Definition latestBlocks (limit : option Z) (this : Blockchain.t) : list Block.t :=
  let limit :=
    match limit with
    | Some n => if n =? 0 then 10 else n
    | None => 10
    end in
  let start := Z.max 0 (Z.of_nat (length (Blockchain.chain this)) - limit) in
  rev (slice (Blockchain.chain this) start None).

(** GET [/transaction/:txId]: the search loop from the block of index
    [i] on, [chain] being the blocks from there; the transaction found and
    [blockIndex]. *)
Fixpoint findTransaction_from (txId : string) (i : nat) (chain : list Block.t)
  : option (Transaction.t * nat) :=
  match chain with
  | [] => None
  | block :: rest =>
      match List.find (fun tx => (Transaction.id tx =? txId)%string)
                      (Block.transactions block) with
      | Some foundTx => Some (foundTx, i)
      | None => findTransaction_from txId (S i) rest
      end
  end.

Definition findTransaction (txId : string) (this : Blockchain.t)
  : option (Transaction.t * nat) :=
  findTransaction_from txId 0 (Blockchain.chain this).



(** GET [/rich-list].  The [Map] of balances, as the list of its entries
    in insertion order. *)
Fixpoint get (key : string) (balances : list (string * Q)) : option Q :=
  match balances with
  | [] => None
  | (k, v) :: rest => if (k =? key)%string then Some v else get key rest
  end.

(** [Map.prototype.set]: the entry of a key that is there is overwritten
    in place, a new key comes last. *)
Fixpoint set (key : string) (value : Q) (balances : list (string * Q))
  : list (string * Q) :=
  match balances with
  | [] => [(key, value)]
  | (k, v) :: rest =>
      if (k =? key)%string then (k, value) :: rest else (k, v) :: set key value rest
  end.

(** The body of the inner loop. *)
Definition tally (balances : list (string * Q)) (tx : Transaction.t) : list (string * Q) :=
  let balances :=
    match Transaction.fromAddress tx with
    | Some fromAddress =>
        if truthy_string (Some fromAddress) then
          set fromAddress
              (Double.sub (default 0%Q (get fromAddress balances)) (Transaction.amount tx))
              balances
        else balances
    | None => balances
    end in
  match Transaction.toAddress tx with
  | Some toAddress =>
      if truthy_string (Some toAddress) then
        set toAddress
            (Double.add (default 0%Q (get toAddress balances)) (Transaction.amount tx))
            balances
      else balances
  | None => balances
  end.

Definition balances (this : Blockchain.t) : list (string * Q) :=
  fold_left (fun balances block => fold_left tally (Block.transactions block) balances)
            (Blockchain.chain this) [].

(** [sort((a, b) => b[1] - a[1])].  The sort of an array is stable, and
    the comparator is consistent, so the result is the one that inserting
    the entries from the last to the first gives, each before the first
    entry that is not greater. *)
Fixpoint insert (e : string * Q) (sorted : list (string * Q)) : list (string * Q) :=
  match sorted with
  | [] => [e]
  | y :: rest =>
      if negb (Qle_bool (snd y) (snd e)) then y :: insert e rest else e :: y :: rest
  end.

Definition sort (entries : list (string * Q)) : list (string * Q) :=
  fold_right insert [] entries.

(** [map(([address, balance], index) => ({ rank: index + 1, ... }))]
    from the index [index] on. *)
Fixpoint ranked (index : nat) (entries : list (string * Q)) : list (Z * string * Q) :=
  match entries with
  | [] => []
  | (address, balance) :: rest =>
      (Z.of_nat index + 1, address, balance) :: ranked (S index) rest
  end.

Definition richList (this : Blockchain.t) : list (Z * string * Q) :=
  ranked 0
    (slice (sort (List.filter (fun e => negb (Qle_bool (snd e) 0)) (balances this)))
           0 (Some 100)).

End ExplorerAPI.

(** ** The system as a whole

    The operations through which the ledger of a node changes: start-up,
    the calls of the wallet and mining interfaces, and the messages of
    peers.  The node holds the one ledger, and every operation acts on it
    in place. *)

Inductive operation : Type :=
| Initialize (now : Z) (stored : outcome (list Block.t * list Transaction.t))
| AddTransaction (transaction : Transaction.t)
| Mine (uuid : string) (now blockNow : Z) (miningRewardAddress : string)
| Receive (peerId : string) (m : KeetaNode.message)
| ReplaceChain (newChain : list Block.t).

(** [None]: outside the model, as for [Block.mineBlock]. *)
Definition perform (op : operation) (node : KeetaNode.t) : option KeetaNode.t :=
  let ledger := KeetaNode.blockchain node in
  match op with
  | Initialize now stored =>
      Some (KeetaNode.set_blockchain node (Blockchain.initialize now stored ledger))
  | AddTransaction transaction =>
      Some (KeetaNode.set_blockchain node (snd (Blockchain.addTransaction transaction ledger)))
  | Mine uuid now blockNow miningRewardAddress =>
      match Blockchain.minePendingTransactions uuid now blockNow miningRewardAddress ledger with
      | Some (_, ledger) => Some (KeetaNode.set_blockchain node ledger)
      | None => None
      end
  | Receive peerId m => Some (KeetaNode.handleMessage peerId m node)
  | ReplaceChain newChain => Some (KeetaNode.replaceChain newChain node)
  end.

Fixpoint run (ops : list operation) (node : KeetaNode.t) : option KeetaNode.t :=
  match ops with
  | [] => Some node
  | op :: ops =>
      match perform op node with
      | Some node => run ops node
      | None => None
      end
  end.

Definition replaces (op : operation) : bool :=
  match op with
  | ReplaceChain _ | Receive _ (KeetaNode.CHAIN_RESPONSE _) | Initialize _ _ => true
  | _ => false
  end.

(** ** Data of the scenarios *)

Module Scenario.

(** The instant at which the ledger starts. *)
Definition t0 : Z := 1700000000000.

(** A ledger started on an empty store at the instant [now], with the
    difficulty and the reward of scenario A. *)
Definition fresh (now : Z) : Blockchain.t :=
  let started := Blockchain.initialize now (Return ([], [])) Blockchain.new in
  Blockchain.mk (Blockchain.chain started) 1%nat
                (Blockchain.pendingTransactions started) 10%Q
                (Blockchain.maxTransactionsPerBlock started)
                (Blockchain.isInitialized started).

Definition ledger : Blockchain.t := fresh t0.

(** An address that [validateAddress] accepts. *)
Definition miner : string := "K00aaaaaaaaaaaaaaaaaaaaaaaaaaaaaaaaaaaaaaaab946740c".

Definition uuid : string := "11111111-2222-4333-8444-555555555555".

(** A transfer without signature. *)
Definition unsigned : Transaction.t :=
  Transaction.mk uuid (Some miner) (Some miner) 1%Q t0 (JObj []) None.

(** The ledger that a call leaves, or [this] when the call is outside
    the model. *)
Definition left_by (r : option (outcome unit * Blockchain.t)) (this : Blockchain.t)
  : Blockchain.t :=
  match r with
  | Some (_, after) => after
  | None => this
  end.

Definition mined_outcome : option (outcome unit * Blockchain.t) :=
  Eval vm_compute in
    Blockchain.minePendingTransactions uuid (t0 + 500) (t0 + 501) miner ledger.

(** The ledger after the miner has mined one block. *)
Definition mined : Blockchain.t := Eval cbv in left_by mined_outcome ledger.

(** A transfer with a signature. *)
Definition signed : Transaction.t :=
  Transaction.mk uuid (Some miner) (Some miner) 1%Q (t0 + 900) (JObj []) (Some "3045").

Definition signed' : Transaction.t :=
  Transaction.mk "22222222-2222-4333-8444-555555555555" (Some miner) (Some miner)
                 2%Q (t0 + 901) (JObj []) (Some "3046").

Definition signed'' : Transaction.t :=
  Transaction.mk "33333333-2222-4333-8444-555555555555" (Some miner) (Some miner)
                 3%Q (t0 + 902) (JObj []) (Some "3047").

(** The ledger [mined] with three transfers in the pool and a cap of two
    transactions a block. *)
Definition busy : Blockchain.t :=
  Blockchain.mk (Blockchain.chain mined) 1%nat [signed; signed'; signed''] 10%Q 2 true.

Definition busy_outcome : option (outcome unit * Blockchain.t) :=
  Eval vm_compute in
    Blockchain.minePendingTransactions uuid (t0 + 1000) (t0 + 1001) miner busy.

Definition busy_mined : Blockchain.t := Eval cbv in left_by busy_outcome busy.

(** A second address. *)
Definition other : string := Eval vm_compute in CryptoUtils.generateAddress "other".

(** A ledger on which the miner has received 10 and sent 9.9. *)
Definition spent : Blockchain.t :=
  Blockchain.set_chain ledger
    (Blockchain.chain ledger
     ++ [Block.mk 1 (t0 + 1)
           [Transaction.mk uuid None (Some miner) 10%Q t0 (JObj []) None;
            Transaction.mk uuid (Some miner) (Some other) (Double.round (99 # 10)) t0
                           (JObj []) (Some "3045")]
           "p" "h" (Some 0)]).

(** A signed transfer of 0.1 from the miner. *)
Definition tenth : Transaction.t :=
  Transaction.mk uuid (Some miner) (Some other) (Double.round (1 # 10)) (t0 + 2)
                 (JObj []) (Some "3046").

(** A block that links to nothing. *)
Definition stray : Block.t := Block.mk 7 1 [] "b" "a" (Some 0).

(** A payload with every property set, whose [timestamp] is [0]. *)
Definition epoch_block : KeetaNode.blockData :=
  KeetaNode.mk_blockData (Some 1) (Some 0) (Some []) (Some "p") (Some "h") (Some 0).

Definition well_shaped_block : KeetaNode.blockData :=
  KeetaNode.mk_blockData (Some 1) (Some 5) (Some []) (Some "p") (Some "h") None.

(** A node over [ledger] with three peers, one of them closing. *)
Definition node : KeetaNode.t :=
  KeetaNode.mk ledger 6001
    (<["p1" := KeetaNode.mk_peer KeetaNode.OPEN "10.0.0.1" 6001 t0]>
       (<["p2" := KeetaNode.mk_peer KeetaNode.OPEN "10.0.0.2" 6001 t0]>
          (<["p3" := KeetaNode.mk_peer KeetaNode.CLOSING "10.0.0.3" 6001 t0]> ∅)))
    "node" 0%Q ["p1"; "p2"; "p3"] [].

End Scenario.

(** ** Vocabulary of the properties *)

(** The block after the round of the mining loop that starts at nonce
    [n]. *)
Definition advance (this : Block.t) (n : Z) : Block.t :=
  let this := Block.set_nonce this (Some (n + 1)) in
  Block.set_hash this (Block.calculateHash this).

(** The first [n] characters of [s] are ['0']. *)
Definition leading_zeros (n : nat) (s : string) : Prop :=
  forall i, (i < n)%nat -> String.get i s = Some "0"%char.

(** A transfer (not a reward) whose signature is absent or empty. *)
Definition unsigned_transfer (tx : Transaction.t) : Prop :=
  Transaction.fromAddress tx <> None
  /\ (Transaction.signature tx = None \/ Transaction.signature tx = Some "").

(** An address is absent when the code finds it falsy: [null],
    [undefined] or the empty string. *)
Definition absent (a : option string) : Prop := truthy_string a = false.

(** A call fails when it throws. *)
Definition fails {A} (r : outcome A) : Prop := returns r = false.

(** The peers that a broadcast reaches: those of [connectedPeers], in
    order, other than the excluded one, whose socket is open. *)
Definition recipients (this : KeetaNode.t) (excludePeerId : option string) : list string :=
  List.filter
    (fun peerId =>
       negb (KeetaNode.excluded peerId excludePeerId)
       && match KeetaNode.peers this !! peerId with
          | Some p => KeetaNode.is_open (KeetaNode.ws p)
          | None => false
          end)
    (KeetaNode.connectedPeers this).

(** The shape check in the words of the specification: the five
    properties are not [null]. *)
Definition non_null_shape (b : KeetaNode.blockData) : bool :=
  truthy_object (KeetaNode.index b)
  && truthy_object (KeetaNode.hash b)
  && truthy_object (KeetaNode.previousHash b)
  && truthy_object (KeetaNode.transactions b)
  && truthy_object (KeetaNode.timestamp b).

(** The condition under which [handleBlock] takes a block. *)
Definition accepted (data : option KeetaNode.blockData) (this : KeetaNode.t) : bool :=
  match data with
  | Some b =>
      KeetaNode.isValidBlock data
      && KeetaNode.index_is b (length (Blockchain.chain (KeetaNode.blockchain this)))
  | None => false
  end.

(** The reward that [minePendingTransactions] constructs. *)
Definition reward (uuid : string) (now : Z) (miningRewardAddress : string)
    (this : Blockchain.t) : Transaction.t :=
  Transaction.mk uuid None (Some miningRewardAddress)
                 (Transaction.round2 (Blockchain.miningReward this)) now (JObj []) None.

(** The store is empty, or cannot be read. *)
Definition nothing_stored (stored : outcome (list Block.t * list Transaction.t)) : Prop :=
  match stored with
  | Return (savedChain, _) => savedChain = []
  | Throw _ => True
  end.

(** The operations of the mining interface. *)
Definition is_mine (op : operation) : bool :=
  match op with
  | Mine _ _ _ _ => true
  | _ => false
  end.

(** No character of [s] is a comma. *)
Fixpoint comma_free (s : string) : bool :=
  match s with
  | EmptyString => true
  | String c s => negb (Ascii.eqb c ",") && comma_free s
  end.

(** [c] is a lowercase hexadecimal digit. *)
Definition is_hex (c : ascii) : bool :=
  let n := N_of_ascii c in
  ((48 <=? n) && (n <=? 57) || (97 <=? n) && (n <=? 102))%N.

(** Every character of [s] satisfies [p]. *)
Fixpoint all_chars (p : ascii -> bool) (s : string) : bool :=
  match s with
  | EmptyString => true
  | String c s => p c && all_chars p s
  end.

(** The transactions of the chain, block after block. *)
Definition all_transactions (this : Blockchain.t) : list Transaction.t :=
  concat (map Block.transactions (Blockchain.chain this)).

(** The transaction has [address] as its sender or as its recipient. *)
Definition involves (address : option string) (tx : Transaction.t) : bool :=
  Blockchain.same_address (Transaction.fromAddress tx) address
  || Blockchain.same_address (Transaction.toAddress tx) address.

(** The sum of the amounts of the transactions that [p] selects: the
    sum of the rationals, which no double need hold. *)
Definition total (p : Transaction.t -> bool) (txs : list Transaction.t) : Q :=
  fold_right (fun tx sum => if p tx then (Transaction.amount tx + sum)%Q else sum) 0%Q txs.

Definition received (address : option string) (txs : list Transaction.t) : Q :=
  total (fun tx => Blockchain.same_address (Transaction.toAddress tx) address) txs.

Definition sent (address : option string) (txs : list Transaction.t) : Q :=
  total (fun tx => Blockchain.same_address (Transaction.fromAddress tx) address) txs.

(** The sum of all the amounts. *)
Definition volume (txs : list Transaction.t) : Q := total (fun _ => true) txs.

(** Every amount is a whole number that is not negative. *)
Definition whole_amounts (txs : list Transaction.t) : Prop :=
  Forall (fun tx => exists k : Z, 0 <= k /\ Transaction.amount tx = inject_Z k) txs.

(** The messages on the wire that are addressed to [peerId]. *)
Definition sent_to (peerId : string) (this : KeetaNode.t) : list KeetaNode.message :=
  map snd (List.filter (fun e => (fst e =? peerId)%string) (KeetaNode.wire this)).

(** The node after the messages [ms], each with its sender, in order. *)
Definition receive (ms : list (string * KeetaNode.message)) (this : KeetaNode.t)
  : KeetaNode.t :=
  fold_left (fun this e => KeetaNode.handleMessage (fst e) (snd e) this) ms this.

(** One limiter serving a request [(address, instant)]: the requests let
    through so far, and the store. *)
Definition serve_one (maxRequests windowMs : Z)
    (s : list (string * Z) * gmap string (list Z)) (r : string * Z)
  : list (string * Z) * gmap string (list Z) :=
  let (ok, counts) :=
    ProductionKeetaApp.rateLimitMiddleware maxRequests windowMs (fst r) (snd r) (snd s) in
  (if ok then fst s ++ [r] else fst s, counts).

(** One limiter serving requests in order, from an empty store. *)
Definition serve (maxRequests windowMs : Z) (requests : list (string * Z))
  : list (string * Z) * gmap string (list Z) :=
  fold_left (serve_one maxRequests windowMs) requests ([], ∅).

(** The instants of the requests of [key] in [log] that lie within the
    window that ends at [now]. *)
Definition recent (windowMs : Z) (key : string) (now : Z) (log : list (string * Z))
  : list Z :=
  map snd (List.filter (fun e => (fst e =? key)%string && (now - windowMs <? snd e)) log).

(** The clock does not run backwards. *)
Fixpoint ascending_from (t : Z) (l : list Z) : bool :=
  match l with
  | [] => true
  | x :: rest => (t <=? x) && ascending_from x rest
  end.

Definition ascending (l : list Z) : bool :=
  match l with
  | [] => true
  | x :: rest => ascending_from x rest
  end.

(** From the instant [t] on, the store counts what the log counts. *)
Definition agrees (windowMs t : Z)
    (s : list (string * Z) * gmap string (list Z)) : Prop :=
  forall key t', t <= t' ->
    List.filter (fun x => t' - windowMs <? x) (default [] (snd s !! key))
    = recent windowMs key t' (fst s).

(** * Properties *)

(** ** The hash function computes SHA-256 *)

Example sha256_abc :
  SHA256.sha256_hex "abc"
  = "ba7816bf8f01cfea414140de5dae2223b00361a396177a9cb410ff61f20015ad".
Proof. vm_compute. reflexivity. Qed.

Example sha256_two_blocks :
  SHA256.sha256_hex "abcdbcdecdefdefgefghfghighijhijkijkljklmklmnlmnomnopnopq"
  = "248d6a61d20638b8e5c026930c3e6039a33ce45964ff2167f6ecedd419db06c1".
Proof. vm_compute. reflexivity. Qed.

(** ** Bounded iteration *)

Section Iterate.
Context {S R : Type} (body : S -> S + R).

Lemma rounds_trans (s s' s'' : S) :
  rounds body s s' -> rounds body s' s'' -> rounds body s s''.
Proof.
  induction 1 as [|a b c Hab Hbc IH]; intros Hc; [assumption|].
  eapply rounds_step; [exact Hab|]. apply IH, Hc.
Qed.

Lemma rounds_one (s s' : S) : body s = inl s' -> rounds body s s'.
Proof. intros H. eapply rounds_step; [exact H | apply rounds_refl]. Qed.

Lemma iterate_continues (n : positive) :
  forall s s', iterate body n s = inl s' -> rounds body s s'.
Proof.
  induction n as [p IH | p IH |]; intros s s' H; simpl in H.
  - destruct (body s) as [s1|] eqn:E1; [|discriminate].
    destruct (iterate body p s1) as [s2|] eqn:E2; [|discriminate].
    eapply rounds_step; [exact E1|].
    eapply rounds_trans; [apply IH, E2 | apply IH, H].
  - destruct (iterate body p s) as [s1|] eqn:E1; [|discriminate].
    eapply rounds_trans; [apply IH, E1 | apply IH, H].
  - apply rounds_one, H.
Qed.

Lemma iterate_exits (n : positive) :
  forall s r, iterate body n s = inr r ->
  exists s0, rounds body s s0 /\ body s0 = inr r.
Proof.
  induction n as [p IH | p IH |]; intros s r H; simpl in H.
  - destruct (body s) as [s1|r1] eqn:E1.
    + destruct (iterate body p s1) as [s2|r2] eqn:E2.
      * destruct (IH _ _ H) as (s0 & Hr & Hb). exists s0. split; [|exact Hb].
        eapply rounds_step; [exact E1|].
        eapply rounds_trans; [eapply iterate_continues, E2 | exact Hr].
      * destruct (IH _ _ E2) as (s0 & Hr & Hb). exists s0.
        split; [eapply rounds_step; [exact E1 | exact Hr]|]. congruence.
    + exists s. split; [apply rounds_refl | congruence].
  - destruct (iterate body p s) as [s1|r1] eqn:E1.
    + destruct (IH _ _ H) as (s0 & Hr & Hb). exists s0. split; [|exact Hb].
      eapply rounds_trans; [eapply iterate_continues, E1 | exact Hr].
    + destruct (IH _ _ E1) as (s0 & Hr & Hb). exists s0. split; [exact Hr | congruence].
  - exists s. split; [apply rounds_refl | exact H].
Qed.

End Iterate.

(** ** The text of a block *)

Section Text.
Local Open Scope string_scope.

Lemma append_cons (c : ascii) (s t : string) : String c s ++ t = String c (s ++ t).
Proof. reflexivity. Qed.

Lemma append_assoc (s t u : string) : (s ++ t) ++ u = s ++ (t ++ u).
Proof.
  induction s as [|c s IH]; [reflexivity|].
  rewrite !append_cons, IH. reflexivity.
Qed.

Lemma append_inv_head (p s t : string) : p ++ s = p ++ t -> s = t.
Proof.
  induction p as [|c p IH]; intros H; [exact H|].
  rewrite !append_cons in H. injection H as H. exact (IH H).
Qed.

(** Two texts without comma that are each followed by a comma are equal
    when the whole texts are. *)
Lemma comma_delimited (a b x y : string) :
  comma_free a = true -> comma_free b = true ->
  a ++ String "," x = b ++ String "," y -> a = b.
Proof.
  revert b. induction a as [|c a IH]; intros [|d b] Ha Hb H.
  - reflexivity.
  - exfalso. change (String "," x = String d (b ++ String "," y)) in H.
    injection H as <- _. discriminate Hb.
  - exfalso. change (String c (a ++ String "," x) = String "," y) in H.
    injection H as -> _. discriminate Ha.
  - rewrite !append_cons in H. injection H as <- H.
    simpl in Ha, Hb. apply andb_prop in Ha as [_ Ha]. apply andb_prop in Hb as [_ Hb].
    f_equal. exact (IH b Ha Hb H).
Qed.

Lemma comma_free_uint (d : Decimal.uint) (s : string) :
  comma_free s = true ->
  comma_free ((fix go d := match d with
                           | Decimal.Nil => s
                           | Decimal.D0 d => String "0" (go d)
                           | Decimal.D1 d => String "1" (go d)
                           | Decimal.D2 d => String "2" (go d)
                           | Decimal.D3 d => String "3" (go d)
                           | Decimal.D4 d => String "4" (go d)
                           | Decimal.D5 d => String "5" (go d)
                           | Decimal.D6 d => String "6" (go d)
                           | Decimal.D7 d => String "7" (go d)
                           | Decimal.D8 d => String "8" (go d)
                           | Decimal.D9 d => String "9" (go d)
                           end) d) = true.
Proof. intros Hs. induction d; simpl; assumption. Qed.

Lemma comma_free_show_Z (z : Z) : comma_free (show_Z z) = true.
Proof.
  unfold show_Z, NilZero.string_of_int, NilZero.string_of_uint.
  destruct (Z.to_int z) as [d | d]; destruct d;
    try reflexivity; simpl; apply (comma_free_uint _ ""); reflexivity.
Qed.

Lemma show_Z_inj (a b : Z) : show_Z a = show_Z b -> a = b.
Proof.
  assert (parse : forall z, NilZero.int_of_string (show_Z z) = Some (Z.to_int z)).
  { intros z. apply NilZero.isi; destruct z as [|p|p]; simpl; try discriminate;
      intros [= H]; exact (DecimalPos.Unsigned.to_uint_nonnil _ H). }
  intros H. pose proof (parse a) as Ha. rewrite H, parse in Ha.
  injection Ha as Ha. rewrite <- (DecimalZ.of_to a), <- (DecimalZ.of_to b), Ha. reflexivity.
Qed.

Lemma show_number_integer (z : Z) : show_number (inject_Z z) = show_Z z.
Proof.
  unfold show_number, inject_Z. simpl Qnum. simpl Qden.
  rewrite Z.mod_1_r, Z.div_1_r. reflexivity.
Qed.

Lemma stringify_object (l : list (string * json)) :
  stringify (JObj l) = String "{" (obj_string l ++ "}").
Proof. reflexivity. Qed.

(** The text of a block starts with its index and timestamp. *)
Lemma block_text (this : Block.t) :
  exists rest,
    stringify (Block.toJSON this)
    = String "{" (quote "index" ++ ":" ++ show_Z (Block.index this) ++ ","
                  ++ quote "timestamp" ++ ":" ++ show_Z (Block.timestamp this)
                  ++ String "," rest).
Proof.
  unfold Block.toJSON. rewrite stringify_object.
  eexists. f_equal.
  change (obj_string ?l) with
    (quote "index" ++ ":" ++ stringify (JInt (Block.index this)) ++ ","
     ++ quote "timestamp" ++ ":" ++ stringify (JInt (Block.timestamp this)) ++ ","
     ++ obj_string
          ([("transactions", JArr (map Transaction.toJSON (Block.transactions this)));
            ("previousHash", JStr (Block.previousHash this));
            ("hash", JStr (Block.hash this))]
           ++ prop "nonce" JInt (Block.nonce this))).
  change (stringify (JInt ?z)) with (show_number (inject_Z z)).
  rewrite !show_number_integer, !append_assoc. reflexivity.
Qed.

(** Blocks with the same index and the same text have the same
    timestamp. *)
Lemma block_text_timestamp (a b : Block.t) :
  Block.index a = Block.index b ->
  stringify (Block.toJSON a) = stringify (Block.toJSON b) ->
  Block.timestamp a = Block.timestamp b.
Proof.
  intros Hi H.
  destruct (block_text a) as (ra & Ha). destruct (block_text b) as (rb & Hb).
  rewrite Ha, Hb, Hi in H. injection H as H.
  repeat apply append_inv_head in H.
  apply show_Z_inj. eapply comma_delimited; [| |exact H]; apply comma_free_show_Z.
Qed.

End Text.

(** ** The mining loop *)

Section Mining.
Variable difficulty : nat.

(** The three ways a round of the loop can go. *)
Lemma mine_round_cases (this : Block.t) :
  (Block.solved difficulty this = true
   /\ Block.mine_round difficulty this = inr (Some (Return tt, this)))
  \/ (Block.solved difficulty this = false /\ Block.nonce this = None
      /\ Block.mine_round difficulty this = inr None)
  \/ (exists n, Block.solved difficulty this = false /\ Block.nonce this = Some n
      /\ ((n + 1 <= Block.MAX_SAFE_INTEGER
           /\ Block.mine_round difficulty this = inl (advance this n))
          \/ (Block.MAX_SAFE_INTEGER < n + 1
              /\ Block.mine_round difficulty this
                 = inr (Some (Throw "Mining timeout - nonce exceeded maximum value",
                              advance this n))))).
Proof.
  unfold Block.mine_round, advance.
  destruct (Block.solved difficulty this); [left; split; reflexivity|].
  right. destruct (Block.nonce this) as [n|]; [right | left; repeat split].
  exists n. split; [reflexivity|]. split; [reflexivity|].
  destruct (Z.gtb_spec (n + 1) Block.MAX_SAFE_INTEGER); [right | left]; split; auto; lia.
Qed.

Lemma advance_fields (this : Block.t) (n : Z) :
  Block.index (advance this n) = Block.index this
  /\ Block.timestamp (advance this n) = Block.timestamp this
  /\ Block.transactions (advance this n) = Block.transactions this
  /\ Block.previousHash (advance this n) = Block.previousHash this
  /\ Block.nonce (advance this n) = Some (n + 1)
  /\ Block.hash (advance this n) = Block.calculateHash (advance this n).
Proof. destruct this; repeat split; reflexivity. Qed.

(** What a block keeps, and what it gains, over rounds of the loop. *)
Lemma rounds_fields (this this' : Block.t) :
  rounds (Block.mine_round difficulty) this this' ->
  Block.index this' = Block.index this
  /\ Block.timestamp this' = Block.timestamp this
  /\ Block.transactions this' = Block.transactions this
  /\ Block.previousHash this' = Block.previousHash this
  /\ (this' = this \/ Block.hash this' = Block.calculateHash this').
Proof.
  induction 1 as [s | s s' s'' Hstep Hrest IH].
  - repeat split; left; reflexivity.
  - destruct (mine_round_cases s) as [[_ E] | [(_ & _ & E) | (n & _ & _ & [[_ E] | [_ E]])]];
      rewrite E in Hstep; try discriminate.
    injection Hstep as <-.
    destruct (advance_fields s n) as (Hi & Ht & Hx & Hp & _ & Hh).
    destruct IH as (Ii & It & Ix & Ip & Ih).
    repeat split; try congruence.
    right. destruct Ih as [-> | Ih]; [exact Hh | exact Ih].
Qed.

Lemma rounds_nonce (this this' : Block.t) (n : Z) :
  rounds (Block.mine_round difficulty) this this' ->
  Block.nonce this = Some n ->
  exists m, Block.nonce this' = Some m /\ n <= m.
Proof.
  intros H. revert n. induction H as [s | s s' s'' Hstep Hrest IH]; intros n Hn.
  - exists n. split; [exact Hn | lia].
  - destruct (mine_round_cases s) as [[_ E] | [(_ & _ & E) | (k & _ & Hk & [[_ E] | [_ E]])]];
      rewrite E in Hstep; try discriminate.
    injection Hstep as <-.
    destruct (advance_fields s k) as (_ & _ & _ & _ & Hnonce & _).
    destruct (IH _ Hnonce) as (m & Hm & Hle).
    exists m. split; [exact Hm|]. rewrite Hn in Hk. injection Hk as ->. lia.
Qed.

(** [n] rounds that all continue add [n] to a nonce that stays in range. *)
Lemma iterate_nonce (p : positive) :
  forall this this' n,
  Block.nonce this = Some n ->
  iterate (Block.mine_round difficulty) p this = inl this' ->
  Block.nonce this' = Some (n + Z.pos p) /\ n + Z.pos p <= Block.MAX_SAFE_INTEGER.
Proof.
  assert (one : forall this this' n,
             Block.nonce this = Some n ->
             Block.mine_round difficulty this = inl this' ->
             Block.nonce this' = Some (n + 1) /\ n + 1 <= Block.MAX_SAFE_INTEGER).
  { intros this this' n Hn H.
    destruct (mine_round_cases this) as [[_ E] | [(_ & _ & E) | (k & _ & Hk & [[Hle E] | [_ E]])]];
      rewrite E in H; try discriminate.
    injection H as <-. rewrite Hn in Hk. injection Hk as <-.
    split; [apply advance_fields | exact Hle]. }
  induction p as [p IH | p IH |]; intros this this' n Hn H; simpl in H.
  - destruct (Block.mine_round difficulty this) as [s1|] eqn:E1; [|discriminate].
    destruct (iterate (Block.mine_round difficulty) p s1) as [s2|] eqn:E2; [|discriminate].
    destruct (one _ _ _ Hn E1) as [H1 _].
    destruct (IH _ _ _ H1 E2) as [H2 _].
    destruct (IH _ _ _ H2 H) as [H3 Hle].
    split; [rewrite H3; f_equal; lia | lia].
  - destruct (iterate (Block.mine_round difficulty) p this) as [s1|] eqn:E1; [|discriminate].
    destruct (IH _ _ _ Hn E1) as [H1 _].
    destruct (IH _ _ _ H1 H) as [H2 Hle].
    split; [rewrite H2; f_equal; lia | lia].
  - exact (one _ _ _ Hn H).
Qed.

(** A call of [mineBlock] on a block whose nonce is a number ends: it
    returns or it throws. *)
Lemma mineBlock_ends (this : Block.t) (n : Z) :
  Block.nonce this = Some n ->
  exists r this', Block.mineBlock difficulty this = Some (r, this').
Proof.
  intros Hn. unfold Block.mineBlock. rewrite Hn. simpl Block.rounds_bound.
  destruct (iterate _ _ this) as [s | r] eqn:E.
  - exfalso. destruct (iterate_nonce _ _ _ _ Hn E) as [_ Hle].
    destruct (Z.le_gt_cases (Block.MAX_SAFE_INTEGER + 1 - n) 0) as [Hsmall | Hbig].
    + assert (Z.to_pos (Block.MAX_SAFE_INTEGER + 1 - n) = 1%positive) as Hp
        by (destruct (Block.MAX_SAFE_INTEGER + 1 - n); try reflexivity; lia).
      rewrite Hp in Hle. lia.
    + rewrite Z2Pos.id in Hle by lia. lia.
  - destruct (iterate_exits _ _ _ _ E) as (s0 & Hr & Hb).
    destruct (rounds_nonce _ _ _ Hr Hn) as (m & Hm & _).
    destruct (mine_round_cases s0) as [[_ E0] | [(_ & Hnone & _) | (k & _ & _ & [[_ E0] | [_ E0]])]];
      try congruence; rewrite E0 in Hb; try discriminate;
      injection Hb as <-; eauto.
Qed.

(** Where a call of [mineBlock] ends: after rounds that continued, in a
    round that did not. *)
Lemma mineBlock_inv (this this' : Block.t) (r : outcome unit) :
  Block.mineBlock difficulty this = Some (r, this') ->
  exists s0,
    rounds (Block.mine_round difficulty) this s0
    /\ Block.mine_round difficulty s0 = inr (Some (r, this')).
Proof.
  unfold Block.mineBlock. intros H.
  destruct (iterate _ _ this) as [s | r0] eqn:E; [discriminate|]. subst r0.
  exact (iterate_exits _ _ _ _ E).
Qed.

(** A call that returns leaves a block that the loop condition rejects,
    reached from the first by rounds of the loop. *)
Lemma mineBlock_returns (this this' : Block.t) (u : unit) :
  Block.mineBlock difficulty this = Some (Return u, this') ->
  rounds (Block.mine_round difficulty) this this'
  /\ Block.solved difficulty this' = true.
Proof.
  intros H. destruct (mineBlock_inv _ _ _ H) as (s0 & Hr & Hb).
  destruct (mine_round_cases s0) as [[Hs E] | [(_ & _ & E) | (k & _ & _ & [[_ E] | [_ E]])]];
    rewrite E in Hb; try discriminate.
  inversion Hb; subst. split; assumption.
Qed.

(** A call that throws has pushed the nonce past the largest safe
    integer. *)
Lemma mineBlock_throws (this this' : Block.t) (e : string) :
  Block.mineBlock difficulty this = Some (Throw e, this') ->
  e = "Mining timeout - nonce exceeded maximum value"
  /\ exists n, Block.nonce this' = Some n /\ Block.MAX_SAFE_INTEGER < n.
Proof.
  intros H. destruct (mineBlock_inv _ _ _ H) as (s0 & Hr & Hb).
  destruct (mine_round_cases s0) as [[Hs E] | [(_ & _ & E) | (k & _ & _ & [[_ E] | [Hk E]])]];
    rewrite E in Hb; try discriminate.
  injection Hb as <- <-. split; [reflexivity|].
  exists (k + 1). split; [apply advance_fields | exact Hk].
Qed.

End Mining.

(** ** The hash of a block and its content (C4, C7) *)

(** The hash that the constructor stores is that of the four properties
    assigned before it: the content a later [calculateHash] reads has the
    nonce as well. *)
Lemma new_hash (index : Z) (transactions : list Transaction.t)
    (previousHash : string) (timestamp : Z) :
  let this := Block.new index transactions previousHash timestamp in
  Block.nonce this = Some 0
  /\ Block.hash this = CryptoUtils.createHash (Block.content (Block.set_nonce this None))
  /\ Block.calculateHash this = CryptoUtils.createHash (Block.content this).
Proof. repeat split. Qed.

(** After a round of the mining loop the hash is that of the content. *)
Lemma mined_hash (difficulty : nat) (this this' : Block.t) :
  rounds (Block.mine_round difficulty) this this' ->
  this' <> this ->
  Block.hash this' = Block.calculateHash this'.
Proof.
  intros H Hne. destruct (rounds_fields _ _ _ H) as (_ & _ & _ & _ & [E | E]);
    [contradiction | exact E].
Qed.

(** For every constructed block, the text that the constructor hashed is
    not the text that [calculateHash] hashes afterwards: the two hashes
    can only agree on a collision of SHA-256. *)
Lemma constructed_text_differs (index : Z) (transactions : list Transaction.t)
    (previousHash : string) (timestamp : Z) :
  let this := Block.new index transactions previousHash timestamp in
  Block.hash this = SHA256.sha256_hex (stringify (Block.content (Block.set_nonce this None)))
  /\ Block.calculateHash this = SHA256.sha256_hex (stringify (Block.content this))
  /\ stringify (Block.content this)
     <> stringify (Block.content (Block.set_nonce this None)).
Proof.
  cbv zeta. split; [reflexivity|]. split; [reflexivity|].
  unfold Block.content, Block.new.
  cbn [Block.nonce Block.set_nonce Block.set_hash Block.index Block.timestamp
       Block.transactions Block.previousHash prop app].
  rewrite !stringify_object. cbn [obj_string].
  intros H. injection H as H. rewrite !append_assoc in H.
  repeat apply append_inv_head in H. discriminate H.
Qed.

(** C4, at the genesis block of scenario A: right after construction the
    stored hash is not the hash of the five fields; [isChainValid] would
    reject the block for it. *)
Theorem constructed_hash_differs :
  let this := Block.new 0 [] "0" Scenario.t0 in
  Block.nonce this = Some 0
  /\ Block.hash this = "a61bfe5e16f5b0689f3634416dc2697aa47b7636eb98e758718c71ba6abb0c02"
  /\ Block.calculateHash this
     = "de21c083586560f452c718cbd377a549d9e99b3cdc9f05cb12a6347f37ea32ff"
  /\ Block.hash this <> Block.calculateHash this.
Proof.
  cbv zeta.
  assert (H1 : Block.hash (Block.new 0 [] "0" Scenario.t0)
               = "a61bfe5e16f5b0689f3634416dc2697aa47b7636eb98e758718c71ba6abb0c02")
    by (vm_compute; reflexivity).
  assert (H2 : Block.calculateHash (Block.new 0 [] "0" Scenario.t0)
               = "de21c083586560f452c718cbd377a549d9e99b3cdc9f05cb12a6347f37ea32ff")
    by (vm_compute; reflexivity).
  split; [reflexivity|]. split; [exact H1|]. split; [exact H2|].
  rewrite H1, H2. discriminate.
Qed.

Lemma substring_zeros (n : nat) :
  forall s, String.substring 0 n s = Block.zeros n -> leading_zeros n s.
Proof.
  induction n as [|n IH]; intros s H i Hi; [lia|].
  destruct s as [|c s]; simpl in H; [discriminate|].
  injection H as -> H.
  destruct i as [|i]; [reflexivity|]. simpl. apply IH; [exact H | lia].
Qed.

(** Leading zeros: a call of [mineBlock] that returns leaves a hash
    with [difficulty] leading zeros. *)
Lemma mineBlock_leading_zeros (difficulty : nat) (this this' : Block.t) (u : unit) :
  Block.mineBlock difficulty this = Some (Return u, this') ->
  leading_zeros difficulty (Block.hash this').
Proof.
  intros H. destruct (mineBlock_returns _ _ _ _ H) as [_ Hs].
  apply substring_zeros. apply String.eqb_eq. exact Hs.
Qed.

(** Once the loop body has run, the hash that [mineBlock] leaves is that
    of the block's fields. *)
Lemma mineBlock_rehashed (difficulty : nat) (this this' : Block.t) (u : unit) :
  Block.mineBlock difficulty this = Some (Return u, this') ->
  this' <> this ->
  Block.hash this' = Block.calculateHash this'.
Proof.
  intros H. destruct (mineBlock_returns _ _ _ _ H) as [Hr _].
  apply (mined_hash _ _ _ Hr).
Qed.

(** Overflow: on a constructed block the call ends, and if it
    does not return it throws the overflow error, the nonce being past the
    largest safe integer. *)
Lemma mineBlock_overflow (difficulty : nat) (index : Z)
    (transactions : list Transaction.t) (previousHash : string) (timestamp : Z) :
  let this := Block.new index transactions previousHash timestamp in
  (exists this', Block.mineBlock difficulty this = Some (Return tt, this'))
  \/ (exists this' n,
        Block.mineBlock difficulty this
        = Some (Throw "Mining timeout - nonce exceeded maximum value", this')
        /\ Block.nonce this' = Some n /\ Block.MAX_SAFE_INTEGER < n).
Proof.
  intros this.
  destruct (mineBlock_ends difficulty this 0 eq_refl) as ([[] | e] & this' & H).
  - left. eauto.
  - right. destruct (mineBlock_throws _ _ _ _ H) as (-> & n & Hn & Hlt). eauto.
Qed.

(** C7, at a block whose first hash already starts with a zero: the loop
    body never runs, [mineBlock(1)] returns, and the hash it leaves is the
    constructor's, not that of the block's fields. *)
Theorem mineBlock_keeps_constructed_hash :
  let this := Block.new 1 [] "0" 1700000000020 in
  Block.mineBlock 1 this = Some (Return tt, this)
  /\ Block.hash this = "007e244c0eb1fa21129e1088ac14483b66783fb8c4162bdbce1d3cd2c0b12d61"
  /\ Block.calculateHash this
     = "ed9b9ef50b909fd8e04e38fe59f66c5fc32a51ad82c3e8eb8aecb8c130971025"
  /\ Block.hash this <> Block.calculateHash this.
Proof.
  cbv zeta.
  assert (H1 : Block.hash (Block.new 1 [] "0" 1700000000020)
               = "007e244c0eb1fa21129e1088ac14483b66783fb8c4162bdbce1d3cd2c0b12d61")
    by (vm_compute; reflexivity).
  assert (H2 : Block.calculateHash (Block.new 1 [] "0" 1700000000020)
               = "ed9b9ef50b909fd8e04e38fe59f66c5fc32a51ad82c3e8eb8aecb8c130971025")
    by (vm_compute; reflexivity).
  split; [vm_compute; reflexivity|]. split; [exact H1|]. split; [exact H2|].
  rewrite H1, H2. discriminate.
Qed.

(** ** Validity of the transactions of a block (C3) *)

Lemma isValid_cases (tx : Transaction.t) :
  Transaction.isValid tx = Return true
  \/ Transaction.isValid tx = Throw "Transaction is not signed".
Proof.
  unfold Transaction.isValid.
  destruct (Transaction.fromAddress tx); [|left; reflexivity].
  destruct (truthy_string (Transaction.signature tx)); [left | right]; reflexivity.
Qed.

Lemma isValid_unsigned (tx : Transaction.t) :
  unsigned_transfer tx -> Transaction.isValid tx = Throw "Transaction is not signed".
Proof.
  intros [Hfrom Hsig]. unfold Transaction.isValid.
  destruct (Transaction.fromAddress tx); [|contradiction].
  destruct Hsig as [-> | ->]; reflexivity.
Qed.

(** [isValid] never answers [false], so neither does the loop over the
    transactions of a block. *)
Lemma hasValidTransactions_cases (this : Block.t) :
  Block.hasValidTransactions this = Return true
  \/ Block.hasValidTransactions this = Throw "Transaction is not signed".
Proof.
  unfold Block.hasValidTransactions.
  induction (Block.transactions this) as [|tx txs IH]; [left; reflexivity|].
  simpl. destruct (isValid_cases tx) as [-> | ->]; [exact IH | right; reflexivity].
Qed.

(** C3, as the code has it: on a block that contains an unsigned transfer,
    [hasValidTransactions] does not return [false]; the error that
    [isValid] throws leaves it as thrown. *)
Theorem hasValidTransactions_unsigned_throws (this : Block.t) :
  (exists tx, In tx (Block.transactions this) /\ unsigned_transfer tx) ->
  Block.hasValidTransactions this = Throw "Transaction is not signed".
Proof.
  intros (tx & Hin & Hun). unfold Block.hasValidTransactions.
  induction (Block.transactions this) as [|tx' txs IH]; [destruct Hin|].
  simpl. destruct Hin as [-> | Hin].
  - rewrite (isValid_unsigned _ Hun). reflexivity.
  - destruct (isValid_cases tx') as [-> | ->]; [exact (IH Hin) | reflexivity].
Qed.

Lemma hasValidTransactions_unsigned_throws_witness :
  Block.hasValidTransactions (Block.mk 1 Scenario.t0 [Scenario.unsigned] "0" "" (Some 0))
  = Throw "Transaction is not signed".
Proof.
  apply hasValidTransactions_unsigned_throws.
  exists Scenario.unsigned. split; [left; reflexivity|].
  split; [discriminate | left; reflexivity].
Defined.

(** C3 as stated fails on a block with one unsigned transfer: the call
    does not return [false], it throws. *)
Lemma hasValidTransactions_not_false :
  let this := Block.mk 1 Scenario.t0 [Scenario.unsigned] "0" "" (Some 0) in
  In Scenario.unsigned (Block.transactions this)
  /\ unsigned_transfer Scenario.unsigned
  /\ Block.hasValidTransactions this <> Return false.
Proof.
  split; [left; reflexivity|].
  split; [split; [discriminate | left; reflexivity]|].
  discriminate.
Qed.

(** ** Admission to the pool (C6) *)

Lemma Qle_bool_false (x y : Q) : Qle_bool x y = false <-> (y < x)%Q.
Proof.
  split; intros H.
  - apply Qnot_le_lt. intros Hle. apply Qle_bool_iff in Hle. congruence.
  - destruct (Qle_bool x y) eqn:E; [|reflexivity].
    apply Qle_bool_iff in E. exfalso. exact (Qlt_not_le _ _ H E).
Qed.

Ltac q_absurd :=
  exfalso;
  match goal with
  | H1 : (?x < ?y)%Q, H2 : (?y <= ?x)%Q |- _ => exact (Qlt_not_le _ _ H1 H2)
  end.

Ltac settle :=
  simpl; repeat split; intros;
  try tauto; try discriminate; try congruence;
  try (repeat match goal with H : _ /\ _ |- _ => destruct H end;
       first [discriminate | congruence | q_absurd]).

(** C6: [addTransaction] fails on an absent address, on a transaction
    that [isValid] does not accept, on an amount that is not positive and
    on a balance below the amount; it appends the transaction to the pool
    exactly when none of these holds, and a failure leaves the ledger as it
    was. *)
Theorem addTransaction_admission (tx : Transaction.t) (this : Blockchain.t) :
  let sender := Transaction.fromAddress tx in
  let r := Blockchain.addTransaction tx this in
  let admitted :=
    ~ absent sender /\ ~ absent (Transaction.toAddress tx)
    /\ Transaction.isValid tx = Return true
    /\ (0 < Transaction.amount tx)%Q
    /\ (Transaction.amount tx <= Blockchain.getBalance this sender)%Q in
  (absent sender \/ absent (Transaction.toAddress tx) -> fails (fst r))
  /\ (Transaction.isValid tx <> Return true -> fails (fst r))
  /\ (unsigned_transfer tx -> fails (fst r))
  /\ ((Transaction.amount tx <= 0)%Q -> fails (fst r))
  /\ ((Blockchain.getBalance this sender < Transaction.amount tx)%Q -> fails (fst r))
  /\ (fails (fst r) -> snd r = this)
  /\ (admitted <-> fst r = Return tt)
  /\ (fst r = Return tt ->
      Blockchain.pendingTransactions (snd r) = Blockchain.pendingTransactions this ++ [tx]
      /\ Blockchain.chain (snd r) = Blockchain.chain this)
  /\ (fails (fst r) \/ fst r = Return tt).
Proof.
  cbv zeta. unfold Blockchain.addTransaction, absent, fails.
  destruct (truthy_string (Transaction.fromAddress tx)) eqn:Hfrom; simpl negb; simpl orb;
    [|settle].
  destruct (truthy_string (Transaction.toAddress tx)) eqn:Hto; simpl negb; [|settle].
  destruct (isValid_cases tx) as [Hvalid | Hthrow]; [|rewrite Hthrow in *; settle].
  assert (Hun : ~ unsigned_transfer tx).
  { intros H. rewrite (isValid_unsigned _ H) in Hvalid. discriminate. }
  rewrite Hvalid in *. simpl negb. cbv iota.
  destruct (Qle_bool (Transaction.amount tx) 0) eqn:Hamount.
  { apply Qle_bool_iff in Hamount. settle. }
  apply Qle_bool_false in Hamount.
  destruct (Qle_bool (Transaction.amount tx)
              (Blockchain.getBalance this (Transaction.fromAddress tx))) eqn:Hbal; simpl.
  - apply Qle_bool_iff in Hbal. settle.
  - apply Qle_bool_false in Hbal. settle.
Qed.

Lemma addTransaction_admission_witness :
  fails (fst (Blockchain.addTransaction Scenario.unsigned Scenario.mined))
  /\ fst (Blockchain.addTransaction Scenario.signed Scenario.mined) = Return tt
  /\ fails (fst (Blockchain.addTransaction Scenario.tenth Scenario.spent)).
Proof.
  split; [|split].
  - pose proof (addTransaction_admission Scenario.unsigned Scenario.mined) as H.
    cbv zeta in H. destruct H as (_ & _ & H & _).
    apply H. split; [discriminate | left; reflexivity].
  - pose proof (addTransaction_admission Scenario.signed Scenario.mined) as H.
    cbv zeta in H. destruct H as (_ & _ & _ & _ & _ & _ & H & _).
    apply H. unfold absent.
    split; [discriminate|]. split; [discriminate|]. split; [reflexivity|].
    split; [reflexivity|]. vm_compute. discriminate.
  - pose proof (addTransaction_admission Scenario.tenth Scenario.spent) as H.
    cbv zeta in H. destruct H as (_ & _ & _ & _ & H & _).
    apply H. vm_compute. reflexivity.
Defined.

(** The balance is a sum of doubles: after 10 received and 9.9 sent it
    is 0.09999999999999964, below 0.1, and a transfer of 0.1 is refused. *)
Example addTransaction_balance_of_doubles :
  Blockchain.getBalance Scenario.spent (Some Scenario.miner)
  = Double.round (9999999999999964 # 100000000000000000)
  /\ stringify (JNum (Blockchain.getBalance Scenario.spent (Some Scenario.miner)))
     = "0.09999999999999964"
  /\ Blockchain.addTransaction Scenario.tenth Scenario.spent
     = (Throw "Not enough balance", Scenario.spent).
Proof. repeat split; vm_compute; reflexivity. Qed.

(** ** Gossip: sending and broadcasting *)

Lemma sendToPeer_wire (peerId : string) (m : KeetaNode.message) (this : KeetaNode.t) :
  exists sent,
    KeetaNode.sendToPeer peerId m this = KeetaNode.set_wire this (KeetaNode.wire this ++ sent)
    /\ sent = match KeetaNode.peers this !! peerId with
              | Some p => if KeetaNode.is_open (KeetaNode.ws p) then [(peerId, m)] else []
              | None => []
              end.
Proof.
  unfold KeetaNode.sendToPeer.
  destruct (KeetaNode.peers this !! peerId) as [p|];
    [destruct (KeetaNode.is_open (KeetaNode.ws p))|];
    eexists; (split; [|reflexivity]);
    try reflexivity; rewrite app_nil_r; destruct this; reflexivity.
Qed.

Lemma broadcastToPeers_wire (m : KeetaNode.message) (excludePeerId : option string)
    (this : KeetaNode.t) :
  KeetaNode.broadcastToPeers m excludePeerId this
  = KeetaNode.set_wire this
      (KeetaNode.wire this ++ map (fun p => (p, m)) (recipients this excludePeerId)).
Proof.
  unfold KeetaNode.broadcastToPeers, recipients.
  generalize (KeetaNode.connectedPeers this) as l.
  intros l. revert this. induction l as [|p l IH]; intros this.
  - simpl. rewrite app_nil_r. destruct this; reflexivity.
  - simpl fold_left.
    destruct (negb (KeetaNode.excluded p excludePeerId)) eqn:He.
    + destruct (sendToPeer_wire p m this) as (sent & -> & Hsent).
      rewrite IH. simpl List.filter. rewrite He. simpl andb.
      destruct this as [b po ps ni hr cp w]. simpl in *. unfold KeetaNode.set_wire. simpl.
      f_equal. rewrite <- app_assoc. f_equal.
      destruct (ps !! p) as [q|]; [destruct (KeetaNode.is_open (KeetaNode.ws q))|];
        subst sent; reflexivity.
    + rewrite IH. simpl List.filter. rewrite He. reflexivity.
Qed.

(** ** Replacing the chain (C5) *)

Lemma stray_chain_invalid (now : Z) (n : nat) (this : Blockchain.t) :
  Blockchain.isChainValid now
    (Blockchain.set_chain this (repeat Scenario.stray (S (S n))))
  = Return false.
Proof.
  unfold Blockchain.isChainValid.
  cbn [Blockchain.chain Blockchain.set_chain repeat].
  match goal with |- (if ?c then _ else _) = _ => destruct c end; reflexivity.
Qed.

(** C5: [replaceChain] takes the candidate when it is strictly longer
    than the chain and otherwise changes nothing; the candidate is not
    checked, so that a longer chain that [isChainValid] rejects at any
    instant is taken as well. *)
Theorem replaceChain_longer_only (newChain : list Block.t) (this : KeetaNode.t) :
  let ledger := KeetaNode.blockchain this in
  let after := KeetaNode.replaceChain newChain this in
  ((length (Blockchain.chain ledger) < length newChain)%nat ->
   after = KeetaNode.set_blockchain this (Blockchain.set_chain ledger newChain)
   /\ Blockchain.chain (KeetaNode.blockchain after) = newChain)
  /\ ((length newChain <= length (Blockchain.chain ledger))%nat -> after = this)
  /\ (Blockchain.chain (KeetaNode.blockchain after) = newChain
      \/ Blockchain.chain (KeetaNode.blockchain after) = Blockchain.chain ledger)
  /\ (exists candidate,
        (length (Blockchain.chain ledger) < length candidate)%nat
        /\ Blockchain.chain (KeetaNode.blockchain (KeetaNode.replaceChain candidate this))
           = candidate
        /\ forall now,
             Blockchain.isChainValid now
               (KeetaNode.blockchain (KeetaNode.replaceChain candidate this))
             = Return false).
Proof.
  cbv zeta. unfold KeetaNode.replaceChain.
  split; [|split; [|split]].
  - intros H. apply Nat.ltb_lt in H. rewrite H. split; reflexivity.
  - intros H. apply Nat.ltb_ge in H. rewrite H. reflexivity.
  - destruct (_ <? _)%nat; [left | right]; reflexivity.
  - exists (repeat Scenario.stray (S (S (length (Blockchain.chain (KeetaNode.blockchain this)))))).
    assert (Hlen : (length (Blockchain.chain (KeetaNode.blockchain this))
                    <? length (repeat Scenario.stray
                                 (S (S (length (Blockchain.chain (KeetaNode.blockchain this)))))))%nat
                   = true).
    { apply Nat.ltb_lt. rewrite repeat_length. lia. }
    rewrite Hlen. split; [rewrite repeat_length; lia|]. split; [reflexivity|].
    intros now. apply stray_chain_invalid.
Qed.

Lemma replaceChain_longer_only_witness :
  Blockchain.chain
    (KeetaNode.blockchain
       (KeetaNode.replaceChain [Scenario.stray; Scenario.stray] Scenario.node))
  = [Scenario.stray; Scenario.stray]
  /\ KeetaNode.replaceChain [Scenario.stray] Scenario.node = Scenario.node.
Proof.
  split.
  - apply (replaceChain_longer_only [Scenario.stray; Scenario.stray] Scenario.node).
    simpl. lia.
  - apply (replaceChain_longer_only [Scenario.stray] Scenario.node).
    simpl. lia.
Defined.

(** ** Blocks from peers (C8) *)

Lemma isValidBlock_pushed (b : KeetaNode.blockData) :
  KeetaNode.isValidBlock (Some b) = true ->
  exists i ts txs p h,
    KeetaNode.index b = Some i /\ KeetaNode.timestamp b = Some ts
    /\ KeetaNode.transactions b = Some txs /\ KeetaNode.previousHash b = Some p
    /\ KeetaNode.hash b = Some h
    /\ i <> 0 /\ ts <> 0 /\ p <> "" /\ h <> ""
    /\ KeetaNode.pushed b = Some (Block.mk i ts txs p h (KeetaNode.nonce b)).
Proof.
  unfold KeetaNode.isValidBlock, KeetaNode.pushed.
  destruct b as [[i|] [ts|] [txs|] [p|] [h|] n]; simpl;
    rewrite ?andb_false_r; try discriminate.
  intros H. repeat (apply andb_prop in H; destruct H as [H ?]).
  exists i, ts, txs, p, h.
  repeat match goal with
         | H : negb (_ =? _) = true |- _ => apply negb_true_iff, Z.eqb_neq in H
         | H : negb (_ =? _)%string = true |- _ => apply negb_true_iff, String.eqb_neq in H
         end.
  repeat split; assumption.
Qed.

(** C8, with the shape check that the code makes: a [BLOCK] message
    extends the chain by the block received, and is sent on to the open
    peers other than the sender, exactly when the five properties are
    truthy (neither [null] nor [0] nor empty) and the index is the length
    of the chain; any other [BLOCK] message changes nothing. *)
Theorem handleBlock_extends (peerId : string) (data : option KeetaNode.blockData)
    (this : KeetaNode.t) :
  let ledger := KeetaNode.blockchain this in
  let after := KeetaNode.handleMessage peerId (KeetaNode.BLOCK data) this in
  (accepted data this = true ->
   exists b block,
     data = Some b /\ KeetaNode.pushed b = Some block
     /\ Block.index block = Z.of_nat (length (Blockchain.chain ledger))
     /\ after = KeetaNode.set_wire
                  (KeetaNode.set_blockchain this
                     (Blockchain.set_chain ledger (Blockchain.chain ledger ++ [block])))
                  (KeetaNode.wire this
                   ++ map (fun p => (p, KeetaNode.BLOCK data))
                          (recipients this (Some peerId))))
  /\ (accepted data this = false -> after = this).
Proof.
  cbv zeta. unfold accepted, KeetaNode.handleMessage, KeetaNode.handleBlock.
  destruct data as [b|]; [|split; [discriminate | reflexivity]].
  destruct (KeetaNode.isValidBlock (Some b)) eqn:Hshape; simpl andb;
    [|split; [discriminate | reflexivity]].
  destruct (KeetaNode.index_is b _) eqn:Hindex; [|split; [discriminate | reflexivity]].
  split; [intros _ | discriminate].
  destruct (isValidBlock_pushed _ Hshape) as (i & ts & txs & p & h & Hi & _ & _ & _ & _ & _ & _ & _ & _ & Hp).
  rewrite Hp. exists b, (Block.mk i ts txs p h (KeetaNode.nonce b)).
  split; [reflexivity|]. split; [exact Hp|].
  split.
  - simpl. unfold KeetaNode.index_is in Hindex. rewrite Hi in Hindex.
    apply Z.eqb_eq in Hindex. exact Hindex.
  - simpl snd. rewrite broadcastToPeers_wire. destruct this; reflexivity.
Qed.

Lemma handleBlock_extends_witness :
  Blockchain.chain
    (KeetaNode.blockchain
       (KeetaNode.handleMessage "p1" (KeetaNode.BLOCK (Some Scenario.well_shaped_block))
          Scenario.node))
  = Blockchain.chain Scenario.ledger ++ [Block.mk 1 5 [] "p" "h" None]
  /\ KeetaNode.wire
       (KeetaNode.handleMessage "p1" (KeetaNode.BLOCK (Some Scenario.well_shaped_block))
          Scenario.node)
     = [("p2", KeetaNode.BLOCK (Some Scenario.well_shaped_block))].
Proof.
  destruct (handleBlock_extends "p1" (Some Scenario.well_shaped_block) Scenario.node)
    as [H _].
  destruct (H eq_refl) as (b & block & Hb & Hp & _ & ->).
  injection Hb as <-. injection Hp as <-.
  split; reflexivity.
Defined.

(** C8 as stated fails on a block whose five properties are set and
    whose index is the length of the chain, but whose [timestamp] is [0]:
    it is dropped. *)
Lemma handleBlock_drops_epoch_block :
  non_null_shape Scenario.epoch_block = true
  /\ KeetaNode.index Scenario.epoch_block
     = Some (Z.of_nat (length (Blockchain.chain (KeetaNode.blockchain Scenario.node))))
  /\ KeetaNode.handleMessage "p1" (KeetaNode.BLOCK (Some Scenario.epoch_block)) Scenario.node
     = Scenario.node.
Proof. split; [|split]; reflexivity. Qed.

(** ** Mining the pool (C2, C10) *)

Lemma slice_prefix {A} (l : list A) (n : Z) :
  0 <= n -> slice l 0 (Some n) = firstn (Z.to_nat n) l.
Proof.
  intros Hn. unfold slice, relative_index.
  replace (0 <? 0) with false by reflexivity.
  replace (n <? 0) with false by (symmetry; apply Z.ltb_ge; exact Hn).
  rewrite (Z.min_l 0) by lia. rewrite Z.sub_0_r.
  change (Z.to_nat 0) with 0%nat. rewrite skipn_O.
  destruct (Z.le_ge_cases n (Z.of_nat (length l))) as [H | H].
  - rewrite Z.min_l by exact H. reflexivity.
  - rewrite Z.min_r by exact H. rewrite Nat2Z.id.
    rewrite !firstn_all2; [reflexivity | lia | lia].
Qed.

Lemma slice_suffix {A} (l : list A) (n : Z) :
  0 <= n -> slice l n None = skipn (Z.to_nat n) l.
Proof.
  intros Hn. unfold slice, relative_index.
  replace (n <? 0) with false by (symmetry; apply Z.ltb_ge; exact Hn).
  destruct (Z.le_ge_cases n (Z.of_nat (length l))) as [H | H].
  - rewrite Z.min_l by exact H.
    apply firstn_all2. rewrite length_skipn. lia.
  - rewrite Z.min_r by exact H. rewrite Z.sub_diag, Nat2Z.id. simpl firstn.
    rewrite skipn_all. symmetry. apply skipn_all2. lia.
Qed.

Lemma getLatestBlock_last (this : Blockchain.t) :
  Blockchain.getLatestBlock this = last (Blockchain.chain this).
Proof.
  unfold Blockchain.getLatestBlock.
  induction (Blockchain.chain this) as [|b l IH] using rev_ind; [reflexivity|].
  rewrite last_snoc, length_app. simpl length.
  replace (length l + 1 - 1)%nat with (length l) by lia.
  rewrite nth_error_app2 by lia. rewrite Nat.sub_diag. reflexivity.
Qed.

Lemma reward_constructed (uuid : string) (now : Z) (miningRewardAddress : string)
    (this : Blockchain.t) :
  CryptoUtils.validateAddress (Some miningRewardAddress) = true ->
  (0 < Blockchain.miningReward this)%Q ->
  Transaction.new uuid now None (Some miningRewardAddress)
                  (Blockchain.miningReward this) (JObj [])
  = Return (reward uuid now miningRewardAddress this).
Proof.
  intros Hvalid Hpos. unfold Transaction.new. rewrite Hvalid.
  apply Qle_bool_false in Hpos. simpl negb. cbv iota. simpl andb. cbv iota.
  rewrite Hpos. reflexivity.
Qed.

(** How a call of [minePendingTransactions] ends when the reward can be
    constructed and the chain has a tip. *)
Lemma minePendingTransactions_ends (uuid : string) (now blockNow : Z)
    (miningRewardAddress : string) (this : Blockchain.t) (tip : Block.t) :
  CryptoUtils.validateAddress (Some miningRewardAddress) = true ->
  (0 < Blockchain.miningReward this)%Q ->
  last (Blockchain.chain this) = Some tip ->
  let pool := Blockchain.pendingTransactions this in
  let cap := Blockchain.maxTransactionsPerBlock this in
  let result :=
    Blockchain.minePendingTransactions uuid now blockNow miningRewardAddress this in
  result = Some (Throw "Mining timeout - nonce exceeded maximum value", this)
  \/ exists block,
       result = Some (Return tt,
                      Blockchain.set_pendingTransactions
                        (Blockchain.set_chain this (Blockchain.chain this ++ [block]))
                        (slice pool cap None))
       /\ Block.index block = Z.of_nat (length (Blockchain.chain this))
       /\ Block.timestamp block = blockNow
       /\ Block.previousHash block = Block.hash tip
       /\ Block.transactions block
          = slice pool 0 (Some cap) ++ [reward uuid now miningRewardAddress this]
       /\ leading_zeros (Blockchain.difficulty this) (Block.hash block).
Proof.
  intros Hvalid Hpos Htip. cbv zeta. unfold Blockchain.minePendingTransactions.
  rewrite (reward_constructed _ _ _ _ Hvalid Hpos).
  rewrite getLatestBlock_last, Htip.
  set (block0 := Block.new _ _ _ _).
  destruct (mineBlock_ends (Blockchain.difficulty this) block0 0 eq_refl)
    as ([[] | e] & block & Hmine); rewrite Hmine.
  - right. exists block. split; [reflexivity|].
    destruct (mineBlock_returns _ _ _ _ Hmine) as [Hr _].
    destruct (rounds_fields _ _ _ Hr) as (Hi & Ht & Hx & Hp & _).
    repeat split; try assumption.
    apply (mineBlock_leading_zeros _ _ _ _ Hmine).
  - left. destruct (mineBlock_throws _ _ _ _ Hmine) as [-> _]. reflexivity.
Qed.

Lemma minePendingTransactions_invalid_address (uuid : string) (now blockNow : Z)
    (miningRewardAddress : string) (this : Blockchain.t) :
  CryptoUtils.validateAddress (Some miningRewardAddress) = false ->
  Blockchain.minePendingTransactions uuid now blockNow miningRewardAddress this
  = Some (Throw "Invalid recipient address", this).
Proof.
  intros H. unfold Blockchain.minePendingTransactions, Transaction.new.
  rewrite H. reflexivity.
Qed.

Lemma minePendingTransactions_no_reward (uuid : string) (now blockNow : Z)
    (miningRewardAddress : string) (this : Blockchain.t) :
  CryptoUtils.validateAddress (Some miningRewardAddress) = true ->
  (Blockchain.miningReward this <= 0)%Q ->
  Blockchain.minePendingTransactions uuid now blockNow miningRewardAddress this
  = Some (Throw "Invalid transaction amount", this).
Proof.
  intros H Hle. unfold Blockchain.minePendingTransactions, Transaction.new.
  rewrite H. apply Qle_bool_iff in Hle. simpl negb. cbv iota. simpl andb. cbv iota.
  rewrite Hle. reflexivity.
Qed.

Lemma minePendingTransactions_no_tip (uuid : string) (now blockNow : Z)
    (miningRewardAddress : string) (this : Blockchain.t) :
  CryptoUtils.validateAddress (Some miningRewardAddress) = true ->
  (0 < Blockchain.miningReward this)%Q ->
  Blockchain.chain this = [] ->
  Blockchain.minePendingTransactions uuid now blockNow miningRewardAddress this
  = Some (Throw "Cannot read properties of undefined (reading 'hash')", this).
Proof.
  intros H Hpos Hnil. unfold Blockchain.minePendingTransactions.
  rewrite (reward_constructed _ _ _ _ H Hpos).
  unfold Blockchain.getLatestBlock. rewrite Hnil. reflexivity.
Qed.

(** C2, as the code has it: with a reward address that [validateAddress]
    accepts, a positive reward, a chain that is not empty and a cap that
    is not negative, [minePendingTransactions] either throws the overflow
    error and changes nothing, or appends one block, linked to the tip,
    with the first [min(cap, pool size)] pool entries in order and then
    the reward (no sender, the reward address, the reward rounded to two
    decimals), and leaves in the pool the entries beyond the cap, in
    order.  With a reward address that [validateAddress] rejects it
    throws and appends nothing. *)
Theorem minePendingTransactions_appends (uuid : string) (now blockNow : Z)
    (miningRewardAddress : string) (this : Blockchain.t) :
  let pool := Blockchain.pendingTransactions this in
  let cap := Z.to_nat (Blockchain.maxTransactionsPerBlock this) in
  let result :=
    Blockchain.minePendingTransactions uuid now blockNow miningRewardAddress this in
  (CryptoUtils.validateAddress (Some miningRewardAddress) = false ->
   result = Some (Throw "Invalid recipient address", this))
  /\ (CryptoUtils.validateAddress (Some miningRewardAddress) = true ->
      (0 < Blockchain.miningReward this)%Q ->
      Blockchain.chain this <> [] ->
      0 <= Blockchain.maxTransactionsPerBlock this ->
      result = Some (Throw "Mining timeout - nonce exceeded maximum value", this)
      \/ exists after block tip rewardTx,
           result = Some (Return tt, after)
           /\ Blockchain.chain after = Blockchain.chain this ++ [block]
           /\ last (Blockchain.chain this) = Some tip
           /\ Block.previousHash block = Block.hash tip
           /\ Block.transactions block = firstn cap pool ++ [rewardTx]
           /\ length (firstn cap pool) = Nat.min cap (length pool)
           /\ Transaction.fromAddress rewardTx = None
           /\ Transaction.toAddress rewardTx = Some miningRewardAddress
           /\ Transaction.amount rewardTx
              = Transaction.round2 (Blockchain.miningReward this)
           /\ Blockchain.pendingTransactions after = skipn cap pool
           /\ pool = firstn cap pool ++ Blockchain.pendingTransactions after).
Proof.
  cbv zeta. split; [apply minePendingTransactions_invalid_address|].
  intros Hvalid Hpos Hchain Hcap.
  destruct (last (Blockchain.chain this)) as [tip|] eqn:Htip.
  2:{ apply last_None in Htip. contradiction. }
  destruct (minePendingTransactions_ends uuid now blockNow _ _ _ Hvalid Hpos Htip)
    as [H | (block & H & _ & _ & Hprev & Htxs & _)]; [left; exact H | right].
  rewrite slice_prefix in Htxs by exact Hcap.
  rewrite slice_suffix in H by exact Hcap.
  eexists _, block, tip, _. split; [exact H|].
  split; [reflexivity|]. split; [reflexivity|]. split; [exact Hprev|].
  split; [exact Htxs|]. split; [apply length_firstn|].
  split; [reflexivity|]. split; [reflexivity|]. split; [reflexivity|].
  split; [reflexivity|]. simpl. symmetry. apply firstn_skipn.
Qed.

Lemma minePendingTransactions_appends_witness :
  Blockchain.minePendingTransactions Scenario.uuid (Scenario.t0 + 1000) (Scenario.t0 + 1001)
    Scenario.miner Scenario.busy
  = Some (Return tt, Scenario.busy_mined)
  /\ exists block rewardTx,
       Blockchain.chain Scenario.busy_mined = Blockchain.chain Scenario.busy ++ [block]
       /\ Block.transactions block = [Scenario.signed; Scenario.signed'; rewardTx]
       /\ Blockchain.pendingTransactions Scenario.busy_mined = [Scenario.signed''].
Proof.
  assert (E : Blockchain.minePendingTransactions Scenario.uuid (Scenario.t0 + 1000)
                (Scenario.t0 + 1001) Scenario.miner Scenario.busy
              = Some (Return tt, Scenario.busy_mined)) by (vm_compute; reflexivity).
  split; [exact E|].
  destruct (minePendingTransactions_appends Scenario.uuid (Scenario.t0 + 1000)
              (Scenario.t0 + 1001) Scenario.miner Scenario.busy) as [_ H].
  destruct H as [H | (after & block & tip & rewardTx & H & Hchain & _ & _ & Htxs & _ & _ & _ & _ & Hpool & _)].
  - vm_compute. reflexivity.
  - reflexivity.
  - vm_compute. discriminate.
  - vm_compute. discriminate.
  - rewrite E in H. discriminate.
  - rewrite E in H. injection H as <-. exists block, rewardTx.
    split; [exact Hchain|]. split; [exact Htxs | exact Hpool].
Defined.

(** C2 as stated fails on the reward address of scenario A, which is not
    an address: the call throws, and the chain is as before. *)
Lemma minePendingTransactions_rejects_Kaddr1 :
  Blockchain.minePendingTransactions Scenario.uuid (Scenario.t0 + 500) (Scenario.t0 + 501)
    "Kaddr1" Scenario.ledger
  = Some (Throw "Invalid recipient address", Scenario.ledger).
Proof. vm_compute. reflexivity. Qed.

Lemma fresh_chain (now : Z) :
  Blockchain.chain (Scenario.fresh now) = [Blockchain.createGenesisBlock now]
  /\ Blockchain.pendingTransactions (Scenario.fresh now) = []
  /\ Blockchain.difficulty (Scenario.fresh now) = 1%nat
  /\ Blockchain.miningReward (Scenario.fresh now) = 10%Q.
Proof. repeat split. Qed.

(** C10, as the code has it.  ["Kaddr1"] is not an address: from a ledger
    with only the genesis block, difficulty 1 and reward 10,
    [minePendingTransactions("Kaddr1")] throws, the chain keeps its one
    block and the balance stays 0.  With a reward address that
    [validateAddress] accepts the call ends, and unless the nonce
    overflows it returns with a chain of length 2 and a balance of 10 for
    that address. *)
Theorem scenario_A (uuid : string) (now blockNow start : Z) (miningRewardAddress : string) :
  let ledger := Scenario.fresh start in
  (Blockchain.minePendingTransactions uuid now blockNow "Kaddr1" ledger
   = Some (Throw "Invalid recipient address", ledger)
   /\ length (Blockchain.chain ledger) = 1%nat
   /\ (Blockchain.getBalance ledger (Some "Kaddr1") == 0)%Q)
  /\ (CryptoUtils.validateAddress (Some miningRewardAddress) = true ->
      Blockchain.minePendingTransactions uuid now blockNow miningRewardAddress ledger
      = Some (Throw "Mining timeout - nonce exceeded maximum value", ledger)
      \/ exists after,
           Blockchain.minePendingTransactions uuid now blockNow miningRewardAddress ledger
           = Some (Return tt, after)
           /\ length (Blockchain.chain after) = 2%nat
           /\ (Blockchain.getBalance after (Some miningRewardAddress) == 10)%Q).
Proof.
  cbv zeta. split.
  - split; [|split; reflexivity].
    apply minePendingTransactions_invalid_address. vm_compute. reflexivity.
  - intros Hvalid.
    destruct (minePendingTransactions_ends uuid now blockNow miningRewardAddress
                (Scenario.fresh start) (Blockchain.createGenesisBlock start)
                Hvalid eq_refl eq_refl)
      as [H | (block & H & _ & _ & _ & Htxs & _)]; [left; exact H | right].
    eexists. split; [exact H|]. split; [reflexivity|].
    unfold Blockchain.getBalance. simpl Blockchain.chain. simpl fold_left at 1.
    rewrite Htxs.
    change (slice (Blockchain.pendingTransactions (Scenario.fresh start)) 0
              (Some (Blockchain.maxTransactionsPerBlock (Scenario.fresh start))))
      with (@nil Transaction.t).
    simpl. unfold Blockchain.account, reward.
    cbn [Transaction.fromAddress Transaction.toAddress Transaction.amount
         Blockchain.same_address].
    rewrite String.eqb_refl. reflexivity.
Qed.

Lemma scenario_A_witness :
  CryptoUtils.validateAddress (Some Scenario.miner) = true
  /\ Blockchain.minePendingTransactions Scenario.uuid (Scenario.t0 + 500) (Scenario.t0 + 501)
       Scenario.miner Scenario.ledger
     = Some (Return tt, Scenario.mined)
  /\ length (Blockchain.chain Scenario.mined) = 2%nat
  /\ (Blockchain.getBalance Scenario.mined (Some Scenario.miner) == 10)%Q.
Proof.
  assert (Hvalid : CryptoUtils.validateAddress (Some Scenario.miner) = true)
    by (vm_compute; reflexivity).
  assert (E : Blockchain.minePendingTransactions Scenario.uuid (Scenario.t0 + 500)
                (Scenario.t0 + 501) Scenario.miner Scenario.ledger
              = Some (Return tt, Scenario.mined)) by (vm_compute; reflexivity).
  split; [exact Hvalid|]. split; [exact E|].
  destruct (scenario_A Scenario.uuid (Scenario.t0 + 500) (Scenario.t0 + 501) Scenario.t0
              Scenario.miner) as [_ H].
  destruct (H Hvalid) as [H' | (after & H' & Hlen & Hbal)];
    unfold Scenario.ledger in E; rewrite E in H'; [discriminate|].
  injection H' as <-. split; assumption.
Defined.

(** C10 as stated fails: the call of scenario A does not succeed, and
    the chain does not grow. *)
Lemma scenario_A_fails :
  Blockchain.minePendingTransactions Scenario.uuid (Scenario.t0 + 500) (Scenario.t0 + 501)
    "Kaddr1" Scenario.ledger
  = Some (Throw "Invalid recipient address", Scenario.ledger)
  /\ length (Blockchain.chain Scenario.ledger) = 1%nat
  /\ CryptoUtils.validateAddress (Some "Kaddr1") = false.
Proof. split; [|split]; vm_compute; reflexivity. Qed.

(** ** The first block of the chain (C9) *)

Lemma genesis_fields (now : Z) :
  let genesis := Blockchain.createGenesisBlock now in
  Block.index genesis = 0 /\ Block.timestamp genesis = now
  /\ Block.transactions genesis = [] /\ Block.previousHash genesis = "0"
  /\ Block.nonce genesis = Some 0.
Proof. repeat split. Qed.

Lemma initialize_chain (now : Z) (stored : outcome (list Block.t * list Transaction.t))
    (this : Blockchain.t) :
  Blockchain.isInitialized this = false ->
  Blockchain.chain (Blockchain.initialize now stored this) <> []
  /\ (nothing_stored stored ->
      Blockchain.chain (Blockchain.initialize now stored this)
      = [Blockchain.createGenesisBlock now]).
Proof.
  intros Hinit. unfold Blockchain.initialize. rewrite Hinit.
  destruct stored as [[[|b savedChain] savedPending] | e]; simpl;
    split; try discriminate; try reflexivity.
Qed.

Lemma initialize_keeps (now : Z) (stored : outcome (list Block.t * list Transaction.t))
    (this : Blockchain.t) :
  Blockchain.chain this <> [] ->
  Blockchain.chain (Blockchain.initialize now stored this) <> [].
Proof.
  intros Hne. unfold Blockchain.initialize.
  destruct (Blockchain.isInitialized this); [exact Hne|].
  destruct stored as [[[|b savedChain] savedPending] | e]; simpl; discriminate.
Qed.

Lemma addTransaction_chain (tx : Transaction.t) (this : Blockchain.t) :
  Blockchain.chain (snd (Blockchain.addTransaction tx this)) = Blockchain.chain this.
Proof.
  unfold Blockchain.addTransaction.
  repeat match goal with
         | |- context [if ?c then _ else _] => destruct c
         | |- context [match ?c with Return _ => _ | Throw _ => _ end] => destruct c
         end; reflexivity.
Qed.

(** A call of [minePendingTransactions] ends, with the chain as it was or
    one block longer. *)
Lemma minePendingTransactions_chain (uuid : string) (now blockNow : Z)
    (miningRewardAddress : string) (this : Blockchain.t) :
  exists r after,
    Blockchain.minePendingTransactions uuid now blockNow miningRewardAddress this
    = Some (r, after)
    /\ (after = this
        \/ exists block, Blockchain.chain after = Blockchain.chain this ++ [block]).
Proof.
  unfold Blockchain.minePendingTransactions.
  destruct (Transaction.new _ _ _ _ _ _) as [rewardTx | e]; [|eauto].
  destruct (Blockchain.getLatestBlock this) as [latest|]; [|eauto].
  set (block0 := Block.new _ _ _ _).
  destruct (mineBlock_ends (Blockchain.difficulty this) block0 0 eq_refl)
    as ([[] | e] & block & ->); [|eauto].
  eexists _, _. split; [reflexivity|]. right. exists block. reflexivity.
Qed.

Lemma perform_runs (op : operation) (node : KeetaNode.t) :
  exists node', perform op node = Some node'.
Proof.
  destruct op as [now stored | tx | uuid now blockNow addr | peerId m | newChain];
    simpl; eauto.
  destruct (minePendingTransactions_chain uuid now blockNow addr
              (KeetaNode.blockchain node)) as (r & after & -> & _).
  eauto.
Qed.

Lemma handleMessage_chain (peerId : string) (m : KeetaNode.message) (node : KeetaNode.t) :
  let before := Blockchain.chain (KeetaNode.blockchain node) in
  let after := Blockchain.chain (KeetaNode.blockchain (KeetaNode.handleMessage peerId m node)) in
  after = before
  \/ (exists block, after = before ++ [block] /\ before <> [])
  \/ (exists data, m = KeetaNode.CHAIN_RESPONSE data /\ (length before < length after)%nat).
Proof.
  cbv zeta. destruct m as [data | | data | h].
  - simpl. unfold KeetaNode.handleBlock.
    destruct data as [b|]; [|left; reflexivity].
    destruct (KeetaNode.isValidBlock (Some b)) eqn:Hshape; [|left; reflexivity].
    destruct (KeetaNode.index_is b _) eqn:Hindex; [|left; reflexivity].
    destruct (isValidBlock_pushed _ Hshape)
      as (i & ts & txs & p & h & Hi & _ & _ & _ & _ & Hnz & _ & _ & _ & ->).
    right; left. eexists. simpl snd. rewrite broadcastToPeers_wire.
    split; [reflexivity|].
    intros Hnil. unfold KeetaNode.index_is in Hindex. rewrite Hi, Hnil in Hindex.
    apply Z.eqb_eq in Hindex. simpl in Hindex. contradiction.
  - left. simpl. unfold KeetaNode.handleChainRequest.
    destruct (Blockchain.getLatestBlock _) as [latest|]; [|reflexivity].
    simpl. destruct (sendToPeer_wire peerId
                       (KeetaNode.CHAIN_RESPONSE
                          (KeetaNode.mk_chainData
                             (Blockchain.chain (KeetaNode.blockchain node))
                             (Z.of_nat (length (Blockchain.chain (KeetaNode.blockchain node))))
                             (Block.hash latest))) node) as (sent & -> & _).
    reflexivity.
  - simpl. unfold KeetaNode.handleChainResponse, KeetaNode.replaceChain.
    destruct (_ <? KeetaNode.height data); [|left; reflexivity].
    destruct (_ <? _)%nat eqn:Hlen; [|left; reflexivity].
    right; right. exists data. split; [reflexivity|]. apply Nat.ltb_lt in Hlen. exact Hlen.
  - left. reflexivity.
Qed.

(** Every operation keeps a chain that is not empty from becoming empty,
    and every operation that does not replace the chain keeps its first
    block. *)
Lemma perform_chain (op : operation) (node node' : KeetaNode.t) :
  perform op node = Some node' ->
  Blockchain.chain (KeetaNode.blockchain node) <> [] ->
  Blockchain.chain (KeetaNode.blockchain node') <> []
  /\ (replaces op = false ->
      head (Blockchain.chain (KeetaNode.blockchain node'))
      = head (Blockchain.chain (KeetaNode.blockchain node))).
Proof.
  intros Hop Hne.
  destruct op as [now stored | tx | uuid now blockNow addr | peerId m | newChain];
    simpl in Hop.
  - injection Hop as <-. split; [|discriminate]. simpl. apply initialize_keeps, Hne.
  - injection Hop as <-. simpl. rewrite addTransaction_chain. split; [exact Hne | reflexivity].
  - destruct (minePendingTransactions_chain uuid now blockNow addr (KeetaNode.blockchain node))
      as (r & after & E & Hafter).
    rewrite E in Hop. injection Hop as <-. simpl.
    destruct Hafter as [-> | (block & ->)]; [split; [exact Hne | reflexivity]|].
    split; [intros H; apply app_eq_nil in H as [H _]; contradiction|].
    intros _. destruct (Blockchain.chain (KeetaNode.blockchain node)); [contradiction | reflexivity].
  - injection Hop as <-.
    destruct (handleMessage_chain peerId m node) as [-> | [(block & -> & _) | (data & -> & Hlen)]].
    + split; [exact Hne | reflexivity].
    + split; [intros H; apply app_eq_nil in H as [H _]; contradiction|].
      intros _. destruct (Blockchain.chain (KeetaNode.blockchain node)); [contradiction | reflexivity].
    + split; [|discriminate]. intros H. rewrite H in Hlen. simpl in Hlen. lia.
  - injection Hop as <-. split; [|discriminate].
    unfold KeetaNode.replaceChain. destruct (_ <? _)%nat eqn:Hlen; [|exact Hne].
    simpl. intros ->. apply Nat.ltb_lt in Hlen. simpl in Hlen. lia.
Qed.

Lemma run_chain (ops : list operation) :
  forall node, Blockchain.chain (KeetaNode.blockchain node) <> [] ->
  exists node',
    run ops node = Some node'
    /\ Blockchain.chain (KeetaNode.blockchain node') <> []
    /\ (forallb (fun op => negb (replaces op)) ops = true ->
        head (Blockchain.chain (KeetaNode.blockchain node'))
        = head (Blockchain.chain (KeetaNode.blockchain node))).
Proof.
  induction ops as [|op ops IH]; intros node Hne.
  - exists node. repeat split; assumption.
  - destruct (perform_runs op node) as (node1 & Hop).
    destruct (perform_chain _ _ _ Hop Hne) as [Hne1 Hhead1].
    destruct (IH node1 Hne1) as (node' & Hrun & Hne' & Hhead').
    exists node'. simpl. rewrite Hop. split; [exact Hrun|]. split; [exact Hne'|].
    intros H. apply andb_prop in H as [H1 H2]. apply negb_true_iff in H1.
    rewrite (Hhead' H2). apply Hhead1, H1.
Qed.

(** C9, as the code has it.  A constructed ledger has an empty chain
    until [initialize] has run.  From then on, whatever the operations,
    the chain is never empty.  When nothing is stored, [initialize] makes
    the chain the genesis block alone (no transactions, [previousHash]
    ["0"]), and it stays the first block as long as no operation replaces
    the chain; a replacement puts the first block of the candidate in its
    place. *)
Theorem chain_after_start (uuid : string) (port now : Z)
    (stored : outcome (list Block.t * list Transaction.t)) (ops : list operation) :
  let constructed := KeetaNode.new uuid Blockchain.new port in
  let genesis := Blockchain.createGenesisBlock now in
  Blockchain.chain (KeetaNode.blockchain constructed) = []
  /\ exists node,
       run (Initialize now stored :: ops) constructed = Some node
       /\ Blockchain.chain (KeetaNode.blockchain node) <> []
       /\ (nothing_stored stored ->
           forallb (fun op => negb (replaces op)) ops = true ->
           head (Blockchain.chain (KeetaNode.blockchain node)) = Some genesis
           /\ Block.transactions genesis = []
           /\ Block.previousHash genesis = "0").
Proof.
  cbv zeta. split; [reflexivity|].
  destruct (initialize_chain now stored Blockchain.new eq_refl) as [Hne Hgen].
  set (started := KeetaNode.set_blockchain (KeetaNode.new uuid Blockchain.new port)
                    (Blockchain.initialize now stored Blockchain.new)).
  destruct (run_chain ops started Hne) as (node & Hrun & Hne' & Hhead).
  exists node. split; [exact Hrun|]. split; [exact Hne'|].
  intros Hstored Hops. split; [|split; reflexivity].
  rewrite (Hhead Hops). unfold started. simpl KeetaNode.blockchain.
  rewrite (Hgen Hstored). reflexivity.
Qed.

Lemma chain_after_start_witness :
  exists node,
    run [Initialize Scenario.t0 (Return ([], []));
         Mine Scenario.uuid (Scenario.t0 + 500) (Scenario.t0 + 501) Scenario.miner;
         Receive "p1" (KeetaNode.BLOCK (Some Scenario.well_shaped_block))]
        (KeetaNode.new "node" Blockchain.new 6001)
    = Some node
    /\ head (Blockchain.chain (KeetaNode.blockchain node))
       = Some (Blockchain.createGenesisBlock Scenario.t0).
Proof.
  destruct (chain_after_start "node" 6001 Scenario.t0 (Return ([], []))
              [Mine Scenario.uuid (Scenario.t0 + 500) (Scenario.t0 + 501) Scenario.miner;
               Receive "p1" (KeetaNode.BLOCK (Some Scenario.well_shaped_block))])
    as (_ & node & Hrun & _ & Hhead).
  exists node. split; [exact Hrun|].
  apply Hhead; reflexivity.
Defined.

(** C9 as stated fails in the state that construction leaves, where the
    chain is empty, and after a replacement, where the first block is the
    candidate's. *)
Lemma chain_empty_or_replaced :
  Blockchain.chain (KeetaNode.blockchain (KeetaNode.new "node" Blockchain.new 6001)) = []
  /\ exists node,
       run [Initialize Scenario.t0 (Return ([], []));
            ReplaceChain [Scenario.stray; Scenario.stray]]
           (KeetaNode.new "node" Blockchain.new 6001)
       = Some node
       /\ head (Blockchain.chain (KeetaNode.blockchain node)) = Some Scenario.stray
       /\ Block.previousHash Scenario.stray <> "0".
Proof.
  split; [reflexivity|]. eexists. split; [reflexivity|].
  split; [reflexivity | discriminate].
Qed.

(** ** Validity of the chain (C1) *)

Lemma mines_keep (ops : list operation) :
  forallb is_mine ops = true -> forallb (fun op => negb (replaces op)) ops = true.
Proof.
  induction ops as [|op ops IH]; [reflexivity|].
  simpl. intros H. apply andb_prop in H as [H1 H2].
  rewrite (IH H2). destruct op; try discriminate. reflexivity.
Qed.

(** A chain that starts with the genesis block of one instant is
    rejected at any other. *)
Lemma isChainValid_clock (start now : Z) (this : Blockchain.t) :
  head (Blockchain.chain this) = Some (Blockchain.createGenesisBlock start) ->
  now <> start ->
  Blockchain.isChainValid now this = Return false.
Proof.
  intros Hhead Hne. unfold Blockchain.isChainValid.
  destruct (Blockchain.chain this) as [|genesis rest]; [reflexivity|].
  injection Hhead as ->.
  destruct (String.eqb_spec
              (stringify (Block.toJSON (Blockchain.createGenesisBlock now)))
              (stringify (Block.toJSON (Blockchain.createGenesisBlock start)))) as [E | _];
    [|reflexivity].
  exfalso. apply Hne.
  exact (block_text_timestamp (Blockchain.createGenesisBlock now)
           (Blockchain.createGenesisBlock start) eq_refl E).
Qed.

(** C1, against the clock.  On a ledger started on an empty store and
    grown by calls of [minePendingTransactions] alone, [isChainValid]
    answers [false] at every instant other than that of the start: the
    genesis block that it builds for the comparison carries the instant of
    the call. *)
Theorem isChainValid_rejects_later (uuid : string) (port start now : Z)
    (pending : list Transaction.t) (ops : list operation) :
  now <> start ->
  forallb is_mine ops = true ->
  exists node,
    run (Initialize start (Return ([], pending)) :: ops)
        (KeetaNode.new uuid Blockchain.new port)
    = Some node
    /\ Blockchain.isChainValid now (KeetaNode.blockchain node) = Return false.
Proof.
  intros Hne Hops.
  destruct (initialize_chain start (Return ([], pending)) Blockchain.new eq_refl)
    as [Hchain Hgen].
  set (started := KeetaNode.set_blockchain (KeetaNode.new uuid Blockchain.new port)
                    (Blockchain.initialize start (Return ([], pending)) Blockchain.new)).
  destruct (run_chain ops started Hchain) as (node & Hrun & _ & Hhead).
  exists node. split; [exact Hrun|].
  apply (isChainValid_clock start); [|exact Hne].
  rewrite (Hhead (mines_keep _ Hops)). reflexivity.
Qed.

Lemma isChainValid_rejects_later_witness :
  exists node,
    run [Initialize Scenario.t0 (Return ([], []));
         Mine Scenario.uuid (Scenario.t0 + 500) (Scenario.t0 + 501) Scenario.miner]
        (KeetaNode.new "node" Blockchain.new 6001)
    = Some node
    /\ Blockchain.isChainValid (Scenario.t0 + 502) (KeetaNode.blockchain node)
       = Return false.
Proof.
  apply (isChainValid_rejects_later "node" 6001 Scenario.t0 (Scenario.t0 + 502) []
           [Mine Scenario.uuid (Scenario.t0 + 500) (Scenario.t0 + 501) Scenario.miner]).
  - discriminate.
  - reflexivity.
Defined.

(** At the ledger of scenario A: [isChainValid] accepts the chain in the
    millisecond of the start and rejects it in the next. *)
Example isChainValid_fresh_ledger :
  Blockchain.chain Scenario.ledger = [Blockchain.createGenesisBlock Scenario.t0]
  /\ Blockchain.isChainValid (Scenario.t0 + 1) Scenario.ledger = Return false
  /\ Blockchain.isChainValid Scenario.t0 Scenario.ledger = Return true.
Proof. split; [reflexivity|]. split; vm_compute; reflexivity. Qed.

(** Even at the instant of the start: a block whose first hash already
    meets the difficulty is appended with the hash of the constructor, and
    [isChainValid] rejects the chain for it. *)
Example isChainValid_rejects_constructed_hash :
  exists after block,
    Blockchain.minePendingTransactions Scenario.uuid (Scenario.t0 + 500) (Scenario.t0 + 506)
      Scenario.miner Scenario.ledger
    = Some (Return tt, after)
    /\ Blockchain.chain after = Blockchain.chain Scenario.ledger ++ [block]
    /\ Block.nonce block = Some 0
    /\ Blockchain.isChainValid Scenario.t0 after = Return false.
Proof.
  eexists _, _. split; [vm_compute; reflexivity|].
  split; [reflexivity|]. split; [reflexivity|]. vm_compute. reflexivity.
Qed.

(** * Further properties *)

(** ** Hashes and addresses *)

Section Hex.
Local Open Scope string_scope.

Lemma string_length_append (s t : string) :
  String.length (s ++ t) = (String.length s + String.length t)%nat.
Proof.
  induction s as [|c s IH]; [reflexivity|].
  rewrite append_cons. simpl String.length. rewrite IH. reflexivity.
Qed.

Lemma hex_of_length (digits : nat) (x : N) : String.length (SHA256.hex_of digits x) = digits.
Proof. induction digits as [|d IH]; simpl; [reflexivity | rewrite IH; reflexivity]. Qed.

Lemma round_length (s : list N) (kw : N * N) : length (SHA256.round s kw) = length s.
Proof.
  destruct s as [|a [|b [|c [|d [|e [|f [|g [|h [|i s]]]]]]]]]; reflexivity.
Qed.

Lemma rounds_length (kws : list (N * N)) :
  forall s, length (fold_left SHA256.round kws s) = length s.
Proof.
  induction kws as [|kw kws IH]; intros s; [reflexivity|].
  simpl. rewrite IH. apply round_length.
Qed.

Lemma compress_length (hs blk : list N) : length (SHA256.compress hs blk) = length hs.
Proof.
  unfold SHA256.compress.
  rewrite length_map, length_combine, rounds_length. apply Nat.min_id.
Qed.

Lemma digest_length (msg : list N) : length (SHA256.digest msg) = 8%nat.
Proof.
  unfold SHA256.digest.
  generalize (SHA256.chunks (length (SHA256.words (SHA256.pad msg)))
                (SHA256.words (SHA256.pad msg))).
  intros blocks.
  assert (H : length SHA256.H0 = 8%nat) by reflexivity.
  revert H. generalize SHA256.H0.
  induction blocks as [|blk blocks IH]; intros hs H; [exact H|].
  simpl. apply IH. rewrite compress_length. exact H.
Qed.

Lemma hex_digit_is_hex (n : N) : (n < 16)%N -> is_hex (SHA256.hex_digit n) = true.
Proof.
  intros H. unfold is_hex, SHA256.hex_digit. cbv zeta.
  destruct (N.ltb_spec n 10) as [Hdigit | Hletter];
    rewrite N_ascii_embedding by lia;
    repeat match goal with
           | |- context [N.leb ?a ?b] => destruct (N.leb_spec a b)
           end;
    try reflexivity; lia.
Qed.

Lemma hex_of_is_hex (digits : nat) (x : N) :
  all_chars is_hex (SHA256.hex_of digits x) = true.
Proof.
  induction digits as [|d IH]; [reflexivity|].
  simpl. rewrite IH, andb_true_r. apply hex_digit_is_hex.
  change 15%N with (N.ones 4). rewrite N.land_ones.
  apply N.mod_lt. discriminate.
Qed.

Lemma all_chars_append (p : ascii -> bool) (s t : string) :
  all_chars p (s ++ t) = all_chars p s && all_chars p t.
Proof.
  induction s as [|c s IH]; [reflexivity|].
  rewrite append_cons. simpl. rewrite IH. apply andb_assoc.
Qed.

Lemma sha256_hex_shape (s : string) :
  String.length (SHA256.sha256_hex s) = 64%nat
  /\ all_chars is_hex (SHA256.sha256_hex s) = true.
Proof.
  unfold SHA256.sha256_hex.
  pose proof (digest_length (SHA256.bytes_of_string s)) as H.
  revert H. generalize (SHA256.digest (SHA256.bytes_of_string s)). intros ws H.
  assert (G : forall l : list N,
             String.length (fold_right (fun w acc => SHA256.hex_of 8 w ++ acc) "" l)
             = (8 * length l)%nat
             /\ all_chars is_hex (fold_right (fun w acc => SHA256.hex_of 8 w ++ acc) "" l)
                = true).
  { induction l as [|w l [IH1 IH2]]; [split; reflexivity|].
    cbn [fold_right]. split.
    - rewrite string_length_append, hex_of_length, IH1. simpl length. lia.
    - rewrite all_chars_append, hex_of_is_hex, IH2. reflexivity. }
  destruct (G ws) as [G1 G2]. rewrite G1, H. split; [reflexivity | exact G2].
Qed.

Lemma substring_length (n : nat) :
  forall s, String.length (String.substring 0 n s) = Nat.min n (String.length s).
Proof.
  induction n as [|n IH]; intros [|c s]; simpl; try reflexivity.
  rewrite IH. reflexivity.
Qed.

Lemma substring_zero (s : string) : String.substring 0 0 s = "".
Proof. destruct s; reflexivity. Qed.

Lemma substring_all (n : nat) :
  forall s, (String.length s <= n)%nat -> String.substring 0 n s = s.
Proof.
  induction n as [|n IH]; intros [|c s] H; simpl in *; try reflexivity; try lia.
  rewrite IH by lia. reflexivity.
Qed.

Lemma substring_prefix (a b : string) :
  String.substring 0 (String.length a) (a ++ b) = a.
Proof.
  induction a as [|c a IH]; [destruct b; reflexivity|].
  rewrite append_cons. simpl. rewrite IH. reflexivity.
Qed.

Lemma substring_skip (a b : string) (n : nat) :
  String.substring (String.length a) n (a ++ b) = String.substring 0 n b.
Proof.
  induction a as [|c a IH]; [reflexivity|].
  rewrite append_cons. simpl. exact IH.
Qed.

End Hex.

(** X1.  [createHash] always yields sixty-four lowercase hexadecimal
    digits, whatever the data. *)
Theorem createHash_shape (data : json) :
  String.length (CryptoUtils.createHash data) = 64%nat
  /\ all_chars is_hex (CryptoUtils.createHash data) = true.
Proof. apply sha256_hex_shape. Qed.

(** X2.  Every address that [generateAddress] makes is accepted by
    [validateAddress], whatever the public key. *)
Theorem generateAddress_valid (publicKey : string) :
  CryptoUtils.validateAddress (Some (CryptoUtils.generateAddress publicKey)) = true
  /\ String.length (CryptoUtils.generateAddress publicKey) = 51%nat.
Proof.
  unfold CryptoUtils.generateAddress, CryptoUtils.validateAddress. cbv zeta.
  set (h := String.substring 0 40 (SHA256.sha256_hex publicKey)).
  set (c := String.substring 0 8 (SHA256.sha256_hex ("00" ++ h)%string)).
  assert (Hh : String.length h = 40%nat).
  { unfold h. rewrite substring_length.
    destruct (sha256_hex_shape publicKey) as [-> _]. reflexivity. }
  assert (Hc : String.length c = 8%nat).
  { unfold c. rewrite substring_length.
    destruct (sha256_hex_shape ("00" ++ h)%string) as [-> _]. reflexivity. }
  assert (E : ("K" ++ ("00" ++ h) ++ c)%string
              = String "K" (String "0" (String "0" ((h ++ c)%string)))) by reflexivity.
  rewrite E. clear E.
  assert (Hlen : String.length (String "K" (String "0" (String "0" ((h ++ c)%string))))
                 = 51%nat).
  { simpl String.length. rewrite string_length_append, Hh, Hc. reflexivity. }
  split; [|exact Hlen].
  rewrite Hlen.
  cbn [String.substring]. rewrite substring_zero.
  assert (E1 : String.substring 0 40 (h ++ c)%string = h)
    by (rewrite <- Hh at 1; apply substring_prefix).
  assert (E2 : String.substring 40 8 (h ++ c)%string = c).
  { rewrite <- Hh at 1. rewrite substring_skip. apply substring_all. lia. }
  rewrite E1, E2.
  fold c. rewrite String.eqb_refl. reflexivity.
Qed.

Lemma prefix_K (s : string) : String.prefix "K" (String "K" s) = true.
Proof.
  simpl. destruct (ascii_dec "K" "K") as [_ | H]; [destruct s; reflexivity | congruence].
Qed.

Lemma validateAddress_length (address : string) :
  CryptoUtils.validateAddress (Some address) = true ->
  String.length address = 51%nat.
Proof.
  unfold CryptoUtils.validateAddress.
  destruct (_ || _); [discriminate|].
  destruct (Z.eqb_spec (Z.of_nat (String.length address)) 51) as [E | _];
    [intros _; lia | discriminate].
Qed.

(** X3.  The two address formats exclude each other: an address that the
    wallet interface calls valid (['K'] and forty more characters) is
    rejected by [CryptoUtils.validateAddress], and conversely.  Every
    [Transaction] goes through the latter, so that none can be
    constructed to or from an address that the wallet interface calls
    valid: the constructor throws. *)
Theorem wallet_address_not_ledger_address (id : string) (now : Z)
    (address other : option string) (amount : Q) (data : json) :
  (WalletAPI.validateAddress address = true ->
   CryptoUtils.validateAddress address = false)
  /\ (CryptoUtils.validateAddress address = true ->
      WalletAPI.validateAddress address = false)
  /\ (WalletAPI.validateAddress address = true ->
      Transaction.new id now other address amount data
      = Throw "Invalid recipient address"
      /\ (CryptoUtils.validateAddress other = true ->
          Transaction.new id now address other amount data
          = Throw "Invalid sender address")).
Proof.
  assert (A : forall a, WalletAPI.validateAddress a = true ->
                        CryptoUtils.validateAddress a = false).
  { intros [a|]; [|reflexivity]. unfold WalletAPI.validateAddress. intros H.
    apply andb_prop in H as [_ H]. apply Z.eqb_eq in H.
    destruct (CryptoUtils.validateAddress (Some a)) eqn:E; [|reflexivity].
    apply validateAddress_length in E. lia. }
  split; [exact (A address)|]. split.
  { intros H. destruct (WalletAPI.validateAddress address) eqn:E; [|reflexivity].
    rewrite (A _ E) in H. discriminate. }
  intros H. pose proof (A _ H) as Hno. split.
  - unfold Transaction.new. rewrite Hno. reflexivity.
  - intros Hother. unfold Transaction.new. rewrite Hother, Hno.
    assert (T : truthy_string address = true).
    { destruct address as [a|]; [|discriminate]. unfold WalletAPI.validateAddress in H.
      apply andb_prop in H as [_ H]. apply Z.eqb_eq in H.
      destruct a; [discriminate | reflexivity]. }
    rewrite T. reflexivity.
Qed.

Lemma wallet_address_not_ledger_address_witness :
  Transaction.new Scenario.uuid Scenario.t0 (Some Scenario.miner)
                  (Some "K0123456789012345678901234567890123456789") 5 (JObj [])
  = Throw "Invalid recipient address"
  /\ WalletAPI.validateAddress (Some Scenario.miner) = false.
Proof.
  destruct (wallet_address_not_ledger_address Scenario.uuid Scenario.t0
              (Some "K0123456789012345678901234567890123456789")
              (Some Scenario.miner) 5 (JObj [])) as (_ & _ & H).
  destruct (wallet_address_not_ledger_address Scenario.uuid Scenario.t0
              (Some Scenario.miner) None 5 (JObj [])) as (_ & G & _).
  split; [apply H; reflexivity | apply G; vm_compute; reflexivity].
Defined.

(** X4.  An account of the Keeta client has a public key of sixty-four
    hex digits, a key string that is ["keeta_"] and the whole key, and an
    address of forty-one characters; the ledger accepts no such address,
    so a reward paid to it is never mined. *)
Theorem keeta_account_shape (seed uuid : string) (index now blockNow : Z)
    (this : Blockchain.t) :
  let a := KeetaNetworkClient.createAccount seed index in
  String.length (KeetaNetworkClient.publicKey a) = 64%nat
  /\ KeetaNetworkClient.publicKeyString a
     = ("keeta_" ++ KeetaNetworkClient.publicKey a)%string
  /\ String.length (KeetaNetworkClient.address a) = 41%nat
  /\ CryptoUtils.validateAddress (Some (KeetaNetworkClient.address a)) = false
  /\ Blockchain.minePendingTransactions uuid now blockNow (KeetaNetworkClient.address a) this
     = Some (Throw "Invalid recipient address", this).
Proof.
  cbv zeta. cbn [KeetaNetworkClient.createAccount KeetaNetworkClient.publicKey
                 KeetaNetworkClient.publicKeyString KeetaNetworkClient.address].
  assert (L : String.length (KeetaNetworkClient.derivePublicKey seed index) = 64%nat)
    by apply sha256_hex_shape.
  assert (A : String.length (KeetaNetworkClient.deriveAddress seed index) = 41%nat).
  { unfold KeetaNetworkClient.deriveAddress. cbv zeta.
    rewrite append_cons. change ("" ++ ?x)%string with x.
    cbn [String.length]. rewrite substring_length.
    destruct (sha256_hex_shape (KeetaNetworkClient.derivePublicKey seed index)) as [-> _].
    reflexivity. }
  assert (V : CryptoUtils.validateAddress (Some (KeetaNetworkClient.deriveAddress seed index))
              = false).
  { destruct (CryptoUtils.validateAddress _) eqn:E; [|reflexivity].
    apply validateAddress_length in E. lia. }
  split; [exact L|]. split.
  { unfold KeetaNetworkClient.formatPublicKey. rewrite substring_all by lia. reflexivity. }
  split; [exact A|]. split; [exact V|].
  apply minePendingTransactions_invalid_address. exact V.
Qed.

(** ** Transactions *)

(** *** Rounding to a double *)

Section Rounding.
Local Open Scope Q_scope.

Lemma pow2_pos (u : Z) : 0 < 2 ^ u.
Proof. apply Qpower_0_lt. reflexivity. Qed.

Lemma pow2_Z (w : Z) : (0 <= w)%Z -> 2 ^ w == inject_Z (2 ^ w).
Proof. intros H. rewrite (Zpower_Qpower 2 w H). reflexivity. Qed.

(** [ilog2] does not overshoot. *)
Lemma ilog2_lower (x : Q) : 0 < x -> 2 ^ Double.ilog2 x <= x.
Proof.
  intros Hx. unfold Double.ilog2.
  destruct (Qle_bool 1 x) eqn:E.
  - apply Qle_bool_iff in E.
    assert (Hf : (1 <= Qfloor x)%Z).
    { change 1%Z with (Qfloor (inject_Z 1)). apply Qfloor_resp_le. exact E. }
    rewrite pow2_Z by apply Z.log2_nonneg.
    apply Qle_trans with (inject_Z (Qfloor x)); [|apply Qfloor_le].
    rewrite <- Zle_Qle. apply Z.log2_spec. lia.
  - assert (Hlt : x < 1).
    { apply Qnot_le_lt. intros H. apply Qle_bool_iff in H. congruence. }
    set (c := Qceiling (/ x)).
    assert (Hinv : 1 < / x).
    { apply Qlt_shift_inv_l; [exact Hx|]. lra. }
    assert (Hc : (1 < c)%Z).
    { rewrite Zlt_Qlt. apply Qlt_le_trans with (/ x); [exact Hinv | apply Qle_ceiling]. }
    rewrite Qpower_opp, pow2_Z by apply Z.log2_up_nonneg.
    apply Qle_shift_inv_r.
    + rewrite <- (pow2_Z _ (Z.log2_up_nonneg c)). apply pow2_pos.
    + apply Qle_trans with (x * inject_Z c).
      * apply Qle_trans with (x * / x).
        -- rewrite Qmult_inv_r; [apply Qle_refl|]. intros H. rewrite H in Hx. discriminate.
        -- apply Qmult_le_l; [exact Hx | apply Qle_ceiling].
      * apply Qmult_le_l; [exact Hx|]. rewrite <- Zle_Qle.
        apply Z.log2_up_spec. exact Hc.
Qed.

Lemma nearest_even_le (x : Q) (M : Z) : x <= inject_Z M -> (Double.nearest_even x <= M)%Z.
Proof.
  intros H. unfold Double.nearest_even.
  pose proof (Qfloor_le x) as Hlo.
  assert (Hf : (Qfloor x <= M)%Z).
  { rewrite Zle_Qle. eapply Qle_trans; eassumption. }
  destruct (Z.eq_dec (Qfloor x) M) as [E | Hne].
  - assert (Hc : (x - inject_Z (Qfloor x) ?= 1 # 2) = Lt).
    { apply (proj1 (Qlt_alt _ _)). rewrite E. lra. }
    rewrite Hc. lia.
  - destruct (x - inject_Z (Qfloor x) ?= 1 # 2); [destruct (Z.even _)| |]; lia.
Qed.

Lemma nearest_even_ge (x : Q) (M : Z) : inject_Z M <= x -> (M <= Double.nearest_even x)%Z.
Proof.
  intros H. unfold Double.nearest_even.
  assert (Hf : (M <= Qfloor x)%Z).
  { rewrite <- (Qfloor_Z M). apply Qfloor_resp_le. exact H. }
  destruct (x - inject_Z (Qfloor x) ?= 1 # 2); [destruct (Z.even _)| |]; lia.
Qed.

Lemma round_eq (q : Q) :
  ~ q == 0 ->
  Double.round q
  == inject_Z (Double.nearest_even
                 (q / 2 ^ Z.max (Double.ilog2 (Qabs q) - 52) (-1074)))
     * 2 ^ Z.max (Double.ilog2 (Qabs q) - 52) (-1074).
Proof.
  intros H. unfold Double.round.
  destruct (Qeq_bool q 0) eqn:E; [apply Qeq_bool_iff in E; contradiction|].
  apply Qred_correct.
Qed.

Lemma round_zero (q : Q) : q == 0 -> Double.round q = 0.
Proof.
  intros H. unfold Double.round. apply Qeq_bool_iff in H. rewrite H. reflexivity.
Qed.

Lemma round_nonneg (q : Q) : 0 <= q -> 0 <= Double.round q.
Proof.
  intros H. destruct (Qeq_dec q 0) as [E | E]; [rewrite (round_zero q E); apply Qle_refl|].
  rewrite (round_eq q E).
  apply Qmult_le_0_compat; [|apply Qlt_le_weak, pow2_pos].
  change 0 with (inject_Z 0). rewrite <- Zle_Qle. apply nearest_even_ge.
  apply Qle_shift_div_l; [apply pow2_pos|]. change (inject_Z 0) with 0. lra.
Qed.

Lemma round_nonpos (q : Q) : q <= 0 -> Double.round q <= 0.
Proof.
  intros H. destruct (Qeq_dec q 0) as [E | E]; [rewrite (round_zero q E); apply Qle_refl|].
  rewrite (round_eq q E).
  set (p := 2 ^ _). assert (Hp : 0 < p) by apply pow2_pos.
  assert (Hn : (Double.nearest_even (q / p) <= 0)%Z).
  { apply nearest_even_le. apply Qle_shift_div_r; [exact Hp|]. change (inject_Z 0) with 0. lra. }
  rewrite Zle_Qle in Hn. change (inject_Z 0) with 0 in Hn. nra.
Qed.

(** The unit in the last place of a number below [2 ^ (53 + v)]. *)
Lemma ulp_le (q : Q) (v : Z) :
  ~ q == 0 -> Qabs q < 2 ^ (53 + v) -> (-1074 <= v)%Z ->
  (Z.max (Double.ilog2 (Qabs q) - 52) (-1074) <= v)%Z.
Proof.
  intros Hq Hlt Hv.
  assert (Hpos : 0 < Qabs q).
  { destruct (Qlt_le_dec 0 (Qabs q)) as [H | H]; [exact H|].
    exfalso. apply Hq. pose proof (Qabs_nonneg q).
    assert (E : Qabs q == 0) by lra.
    destruct (Qlt_le_dec q 0) as [Hn | Hn].
    - rewrite Qabs_neg in E by lra. lra.
    - rewrite Qabs_pos in E by lra. exact E. }
  pose proof (ilog2_lower _ Hpos) as Hlow.
  assert (H : (Double.ilog2 (Qabs q) < 53 + v)%Z).
  { apply (Qpower_lt_compat_l_inv 2); [|reflexivity].
    eapply Qle_lt_trans; eassumption. }
  lia.
Qed.

(** A number of the form [M * 2 ^ v], [|M| < 2 ^ 53], scaled by a unit
    in the last place that is not above [2 ^ v], is an integer. *)
Lemma scaled (M u v : Z) :
  (u <= v)%Z ->
  inject_Z M * 2 ^ v / 2 ^ u == inject_Z (M * 2 ^ (v - u)).
Proof.
  intros H. rewrite inject_Z_mult, <- pow2_Z by lia.
  rewrite Qpower_minus by discriminate. field.
  intros E. pose proof (pow2_pos u). lra.
Qed.

Lemma unscaled (M u v : Z) :
  (u <= v)%Z ->
  inject_Z (M * 2 ^ (v - u)) * 2 ^ u == inject_Z M * 2 ^ v.
Proof.
  intros H. rewrite inject_Z_mult, <- pow2_Z by lia.
  rewrite Qpower_minus by discriminate. field.
  intros E. pose proof (pow2_pos u). lra.
Qed.

Lemma below (M v : Z) : (Z.abs M < 2 ^ 53)%Z -> Qabs (inject_Z M * 2 ^ v) < 2 ^ (53 + v).
Proof.
  intros H. rewrite Qabs_Qmult, (Qabs_pos (2 ^ v)) by apply Qlt_le_weak, pow2_pos.
  rewrite Qpower_plus by discriminate.
  apply Qmult_lt_compat_r; [apply pow2_pos|].
  rewrite pow2_Z by lia.
  assert (E : Qabs (inject_Z M) == inject_Z (Z.abs M)).
  { unfold Qabs, inject_Z. reflexivity. }
  rewrite E, <- Zlt_Qlt. exact H.
Qed.

(** Rounding does not pass a double: downwards. *)
Lemma round_le (q : Q) (M v : Z) :
  (0 <= M < 2 ^ 53)%Z -> (-1074 <= v)%Z ->
  q <= inject_Z M * 2 ^ v -> Double.round q <= inject_Z M * 2 ^ v.
Proof.
  intros HM Hv Hq.
  assert (Hd : 0 <= inject_Z M * 2 ^ v).
  { apply Qmult_le_0_compat; [|apply Qlt_le_weak, pow2_pos].
    change 0 with (inject_Z 0). rewrite <- Zle_Qle. lia. }
  destruct (Qlt_le_dec 0 q) as [Hpos | Hneg].
  2:{ eapply Qle_trans; [apply round_nonpos, Hneg | exact Hd]. }
  assert (Hne : ~ q == 0) by lra.
  rewrite (round_eq q Hne).
  assert (Hu : (Z.max (Double.ilog2 (Qabs q) - 52) (-1074) <= v)%Z).
  { apply ulp_le; [exact Hne | | exact Hv].
    rewrite Qabs_pos by lra.
    eapply Qle_lt_trans; [exact Hq|].
    pose proof (below M v ltac:(lia)) as Hb.
    rewrite Qabs_pos in Hb by exact Hd. exact Hb. }
  set (u := Z.max _ _) in *.
  rewrite <- (unscaled M u v Hu).
  apply Qmult_le_compat_r; [|apply Qlt_le_weak, pow2_pos].
  rewrite <- Zle_Qle. apply nearest_even_le.
  rewrite <- (scaled M u v Hu).
  apply Qmult_le_compat_r; [exact Hq|].
  apply Qlt_le_weak, Qinv_lt_0_compat, pow2_pos.
Qed.

(** A double is its own rounding. *)
Lemma round_exact (q : Q) (M v : Z) :
  (Z.abs M < 2 ^ 53)%Z -> (-1074 <= v)%Z ->
  q == inject_Z M * 2 ^ v -> Double.round q == q.
Proof.
  intros HM Hv Hq.
  destruct (Qeq_dec q 0) as [E | Hne]; [rewrite (round_zero q E), E; reflexivity|].
  rewrite (round_eq q Hne).
  assert (Hu : (Z.max (Double.ilog2 (Qabs q) - 52) (-1074) <= v)%Z).
  { apply ulp_le; [exact Hne | | exact Hv]. rewrite Hq. apply below, HM. }
  set (u := Z.max _ _) in *.
  assert (Hx : q / 2 ^ u == inject_Z (M * 2 ^ (v - u))).
  { rewrite Hq. apply scaled, Hu. }
  assert (Hn : Double.nearest_even (q / 2 ^ u) = (M * 2 ^ (v - u))%Z).
  { apply Z.le_antisymm.
    - apply nearest_even_le. rewrite Hx. apply Qle_refl.
    - apply nearest_even_ge. rewrite Hx. apply Qle_refl. }
  rewrite Hn, (unscaled M u v Hu), Hq. reflexivity.
Qed.

(** A whole number below [2 ^ 53] is a double. *)
Lemma round_whole (q : Q) (z : Z) :
  (Z.abs z < 2 ^ 53)%Z -> q == inject_Z z -> Double.round q = inject_Z z.
Proof.
  intros Hz Hq.
  assert (E : Double.round q == inject_Z z).
  { rewrite (round_exact q z 0 Hz ltac:(lia)); [exact Hq|].
    rewrite Hq. change (2 ^ 0) with 1. ring. }
  assert (R : Qred (Double.round q) = Double.round q).
  { unfold Double.round. destruct (Qeq_bool q 0); [reflexivity|].
    apply Qred_complete, Qred_correct. }
  rewrite <- R. rewrite (Qred_complete _ _ E).
  unfold Qred, inject_Z. simpl Qnum. simpl Qden.
  pose proof (Z.ggcd_correct_divisors z 1) as G. pose proof (Z.ggcd_gcd z 1) as Hg.
  destruct (Z.ggcd z 1) as [g [a b]]. simpl in *.
  rewrite Z.gcd_1_r in Hg. subst g. destruct G as [Ga Gb].
  rewrite Z.mul_1_l in Ga, Gb. subst. reflexivity.
Qed.

End Rounding.

(** The integer nearest to a number between two integers lies between
    them. *)
Lemma Math_round_between (x : Q) (lo hi : Z) :
  (inject_Z lo <= x)%Q -> (x <= inject_Z hi)%Q ->
  lo <= Double.Math_round x <= hi.
Proof.
  intros Hlo Hhi. unfold Double.Math_round. split.
  - rewrite <- (Qfloor_Z lo). apply Qfloor_resp_le. lra.
  - pose proof (Qfloor_le (x + (1 # 2))) as Hf.
    assert (H : (inject_Z (Qfloor (x + (1 # 2))) < inject_Z (hi + 1))%Q).
    { rewrite inject_Z_plus. change (inject_Z 1) with 1%Q. lra. }
    rewrite <- Zlt_Qlt in H. lia.
Qed.

Lemma Math_round_whole (x : Q) (z : Z) : (x == inject_Z z)%Q -> Double.Math_round x = z.
Proof.
  intros H.
  pose proof (Math_round_between x z z) as B.
  assert (z <= Double.Math_round x <= z) by (apply B; rewrite H; apply Qle_refl).
  lia.
Qed.

Lemma round_le_whole (q : Q) (M : Z) :
  0 <= M < 2 ^ 53 -> (q <= inject_Z M)%Q -> (Double.round q <= inject_Z M)%Q.
Proof.
  intros HM Hq.
  assert (E : (inject_Z M == inject_Z M * 2 ^ 0)%Q) by (change (2 ^ 0)%Q with 1%Q; ring).
  rewrite E. apply round_le; [exact HM | lia |]. rewrite <- E. exact Hq.
Qed.

(** Rounding to hundredths does not leave the whole numbers between
    which the amount lies. *)
Lemma round2_between (amount : Q) (hi : Z) :
  0 <= hi <= 90000000000000 ->
  (0 <= amount)%Q -> (amount <= inject_Z hi)%Q ->
  (0 <= Transaction.round2 amount <= inject_Z hi)%Q.
Proof.
  intros Hhi H0 H1. unfold Transaction.round2.
  assert (A0 : (0 <= Double.mul amount 100)%Q).
  { unfold Double.mul. apply round_nonneg. lra. }
  assert (A1 : (Double.mul amount 100 <= inject_Z (hi * 100))%Q).
  { unfold Double.mul. apply round_le_whole; [lia|]. rewrite inject_Z_mult.
    change (inject_Z 100) with 100%Q. lra. }
  destruct (Math_round_between (Double.mul amount 100) 0 (hi * 100) A0 A1) as [K0 K1].
  rewrite Zle_Qle in K0, K1. change (inject_Z 0) with 0%Q in K0.
  rewrite inject_Z_mult in K1. change (inject_Z 100) with 100%Q in K1.
  unfold Double.div. split.
  - apply round_nonneg. apply Qle_shift_div_l; [reflexivity | lra].
  - apply round_le_whole; [lia|]. apply Qle_shift_div_r; [reflexivity | lra].
Qed.

Lemma new_returns (id : string) (now : Z) (sender recipient : option string)
    (amount : Q) (data : json) (tx : Transaction.t) :
  Transaction.new id now sender recipient amount data = Return tx ->
  CryptoUtils.validateAddress recipient = true
  /\ (truthy_string sender = true -> CryptoUtils.validateAddress sender = true)
  /\ (0 < amount)%Q
  /\ tx = Transaction.mk id sender recipient (Transaction.round2 amount) now data None.
Proof.
  unfold Transaction.new.
  destruct (CryptoUtils.validateAddress recipient); [|discriminate]. simpl negb. cbv iota.
  destruct (truthy_string sender && negb (CryptoUtils.validateAddress sender)) eqn:Hs;
    [discriminate|].
  destruct (Qle_bool amount 0) eqn:Ha; [discriminate|].
  intros [= <-]. apply Qle_bool_false in Ha.
  repeat split; try assumption.
  intros Ht. rewrite Ht in Hs. simpl in Hs. apply negb_false_iff in Hs. exact Hs.
Qed.

(** X5.  The amount of a constructed transaction is
    [Math.round(amount * 100) / 100] in double arithmetic, and it is never
    negative.  It is zero for every amount up to 0.00499, although the
    constructor only accepts positive amounts; and a whole amount up to
    ninety million millions is kept as it is. *)
Theorem new_amount (id : string) (now : Z) (sender recipient : option string)
    (amount : Q) (data : json) (tx : Transaction.t) :
  Transaction.new id now sender recipient amount data = Return tx ->
  Transaction.amount tx
  = Double.div (inject_Z (Double.Math_round (Double.mul amount 100))) 100
  /\ (0 <= Transaction.amount tx)%Q
  /\ ((amount <= 499 # 100000)%Q -> Transaction.amount tx = 0%Q)
  /\ (forall n : Z,
        n <= 90000000000000 -> amount = inject_Z n ->
        Transaction.amount tx = inject_Z n).
Proof.
  intros H. destruct (new_returns _ _ _ _ _ _ _ H) as (_ & _ & Hpos & ->).
  cbn [Transaction.amount]. unfold Transaction.round2.
  split; [reflexivity|].
  assert (H0 : (0 <= Double.mul amount 100)%Q).
  { unfold Double.mul. apply round_nonneg. lra. }
  split; [|split].
  - unfold Double.div. apply round_nonneg.
    destruct (Math_round_between (Double.mul amount 100) 0 (Double.Math_round (Double.mul amount 100) + 1))
      as [Hlow _].
    + exact H0.
    + apply Qlt_le_weak. unfold Double.Math_round.
      pose proof (Qlt_floor (Double.mul amount 100 + (1 # 2))) as Hf.
      eapply Qle_lt_trans; [|exact Hf]. lra.
    + rewrite Zle_Qle in Hlow. change (inject_Z 0) with 0%Q in Hlow.
      apply Qle_shift_div_l; [reflexivity | lra].
  - intros Hsmall.
    assert (H1 : (Double.mul amount 100 <= inject_Z 511 * 2 ^ (-10))%Q).
    { unfold Double.mul. apply round_le; [lia | lia |].
      change (inject_Z 511 * 2 ^ (-10))%Q with (511 * (1 # 1024))%Q. lra. }
    assert (E : Double.Math_round (Double.mul amount 100) = 0).
    { unfold Double.Math_round.
      pose proof (Qfloor_le (Double.mul amount 100 + (1 # 2))) as Hle.
      pose proof (Qlt_floor (Double.mul amount 100 + (1 # 2))) as Hlt.
      change (inject_Z 511 * 2 ^ (-10))%Q with (511 * (1 # 1024))%Q in H1.
      assert (A : (inject_Z (Qfloor (Double.mul amount 100 + (1 # 2))) < inject_Z 1)%Q).
      { change (inject_Z 1) with 1%Q. lra. }
      assert (B : (inject_Z (-1) < inject_Z (Qfloor (Double.mul amount 100 + (1 # 2))))%Q).
      { rewrite inject_Z_plus in Hlt. change (inject_Z 1) with 1%Q in Hlt.
        change (inject_Z (-1)) with (-1)%Q. lra. }
      rewrite <- Zlt_Qlt in A, B. lia. }
    rewrite E. reflexivity.
  - intros n Hn ->.
    assert (Hn0 : 0 < n).
    { rewrite Zlt_Qlt. exact Hpos. }
    assert (E1 : Double.mul (inject_Z n) 100 = inject_Z (n * 100)).
    { unfold Double.mul. apply round_whole; [lia|].
      rewrite inject_Z_mult. reflexivity. }
    rewrite E1, (Math_round_whole _ (n * 100)) by reflexivity.
    unfold Double.div. apply round_whole; [lia|].
    rewrite inject_Z_mult. field.
Qed.

Lemma new_amount_witness :
  exists tx,
    Transaction.new Scenario.uuid Scenario.t0 None (Some Scenario.miner)
                    (Double.round (4 # 1000)) (JObj []) = Return tx
    /\ Transaction.amount tx = 0%Q.
Proof.
  eexists. split; [vm_compute; reflexivity|].
  destruct (new_amount Scenario.uuid Scenario.t0 None (Some Scenario.miner)
              (Double.round (4 # 1000)) (JObj []) _ ltac:(vm_compute; reflexivity))
    as (_ & _ & H & _).
  apply H. vm_compute. discriminate.
Defined.

(** The doubles of two decimals that [Math.round(amount * 100) / 100]
    takes down, and up: 1.005 gives 1 and 0.015 gives 0.02. *)
Example round2_doubles :
  Transaction.round2 (Double.round (1005 # 1000)) = 1%Q
  /\ Transaction.round2 (Double.round (15 # 1000)) = Double.round (2 # 100).
Proof. split; vm_compute; reflexivity. Qed.

(** X6.  [signTransaction] never signs: whatever the key and whatever
    the cryptographic library answers, it throws and leaves the
    transaction as it was.  A transfer made by the constructor therefore
    stays unsigned through any number of attempts, and [addTransaction]
    rejects it. *)
Theorem constructed_transfer_never_admitted {key : Type}
    (derive : key -> outcome string) (keys : list (option key))
    (id : string) (now : Z) (sender recipient : option string) (amount : Q)
    (data : json) (tx : Transaction.t) (ledger : Blockchain.t) :
  Transaction.new id now sender recipient amount data = Return tx ->
  truthy_string sender = true ->
  let attempted :=
    fold_left (fun tx k => snd (Transaction.signTransaction derive k tx)) keys tx in
  (forall k t, fails (fst (Transaction.signTransaction derive k t))
               /\ snd (Transaction.signTransaction derive k t) = t)
  /\ attempted = tx
  /\ Blockchain.addTransaction attempted ledger
     = (Throw "Transaction is not signed", ledger).
Proof.
  intros Hnew Hsender. cbv zeta.
  assert (S : forall k t, fails (fst (Transaction.signTransaction derive k t))
                          /\ snd (Transaction.signTransaction derive k t) = t).
  { intros k t. unfold Transaction.signTransaction, fails.
    destruct k as [k|]; [|split; reflexivity].
    destruct (truthy_string (Transaction.fromAddress t)); [|split; reflexivity].
    destruct (derive k) as [a|e]; [|split; reflexivity].
    destruct (negb _); split; reflexivity. }
  assert (F : fold_left (fun tx k => snd (Transaction.signTransaction derive k tx)) keys tx
              = tx).
  { induction keys as [|k keys IH]; [reflexivity|].
    simpl. destruct (S k tx) as [_ ->]. exact IH. }
  split; [exact S|]. split; [exact F|]. rewrite F.
  destruct (new_returns _ _ _ _ _ _ _ Hnew) as (Hto & _ & _ & ->).
  unfold Blockchain.addTransaction. cbn [Transaction.fromAddress Transaction.toAddress].
  rewrite Hsender.
  assert (truthy_string recipient = true) as ->.
  { destruct recipient as [a|]; [|discriminate Hto].
    unfold CryptoUtils.validateAddress in Hto.
    destruct (truthy_string (Some a)); [reflexivity | discriminate Hto]. }
  simpl negb. simpl orb. cbv iota.
  unfold Transaction.isValid. cbn [Transaction.fromAddress Transaction.signature].
  destruct sender; [reflexivity | discriminate Hsender].
Qed.

Lemma constructed_transfer_never_admitted_witness :
  exists tx,
    Transaction.new Scenario.uuid Scenario.t0 (Some Scenario.miner) (Some Scenario.miner) 1
                    (JObj []) = Return tx
    /\ Blockchain.addTransaction
         (snd (Transaction.signTransaction (fun k : string => Return Scenario.miner)
                 (Some "key") tx))
         Scenario.mined
       = (Throw "Transaction is not signed", Scenario.mined).
Proof.
  eexists. split; [vm_compute; reflexivity|].
  apply (constructed_transfer_never_admitted (fun k : string => Return Scenario.miner)
           [Some "key"] Scenario.uuid Scenario.t0 (Some Scenario.miner)
           (Some Scenario.miner) 1 (JObj [])).
  - vm_compute. reflexivity.
  - reflexivity.
Defined.

(** X7.  [createTokenTransaction] never makes a transaction: the amount
    it passes to the constructor is [0], which the constructor refuses, so
    that the call throws for a valid creator as for an invalid one. *)
Theorem createTokenTransaction_throws (uuid : string) (stamp now : Z)
    (creator : option string) (tokenName symbol : string) (totalSupply : Q)
    (metadata : json) :
  Blockchain.createTokenTransaction uuid stamp now creator tokenName symbol totalSupply
                                    metadata
  = Throw (if CryptoUtils.validateAddress creator
           then "Invalid transaction amount" else "Invalid recipient address").
Proof.
  unfold Blockchain.createTokenTransaction, Transaction.new.
  destruct (CryptoUtils.validateAddress creator); [|reflexivity].
  simpl negb. rewrite andb_false_r. reflexivity.
Qed.

(** X8.  An amount that [validateAmount] accepts is positive and at most
    a million, and the transaction constructed from it, the addresses
    being valid, has an amount between zero and a million: rounding does
    not pass the limit. *)
Theorem validated_amount_bounds (id : string) (now : Z)
    (sender recipient : option string) (amount : Q) (data : json) :
  InputValidator.validateAmount amount = None ->
  CryptoUtils.validateAddress sender = true ->
  CryptoUtils.validateAddress recipient = true ->
  (0 < amount <= 1000000)%Q
  /\ exists tx,
       Transaction.new id now sender recipient amount data = Return tx
       /\ (0 <= Transaction.amount tx <= 1000000)%Q.
Proof.
  unfold InputValidator.validateAmount. intros Hv Hs Hr.
  destruct (Qle_bool amount 0) eqn:H0; [discriminate|].
  destruct (Qle_bool amount 1000000) eqn:H1; [|discriminate].
  apply Qle_bool_false in H0. apply Qle_bool_iff in H1.
  split; [split; assumption|].
  unfold Transaction.new. rewrite Hr, Hs.
  apply Qle_bool_false in H0. simpl negb. rewrite andb_false_r. cbv iota. rewrite H0.
  apply Qle_bool_false in H0.
  eexists. split; [reflexivity|]. cbn [Transaction.amount].
  apply (round2_between amount 1000000); [lia | lra | exact H1].
Qed.

Lemma validated_amount_bounds_witness :
  exists tx,
    Transaction.new Scenario.uuid Scenario.t0 (Some Scenario.miner) (Some Scenario.miner)
                    1000000 (JObj []) = Return tx
    /\ (0 <= Transaction.amount tx <= 1000000)%Q.
Proof.
  apply (validated_amount_bounds Scenario.uuid Scenario.t0 (Some Scenario.miner)
           (Some Scenario.miner) 1000000 (JObj [])); vm_compute; reflexivity.
Defined.

(** ** Balances and history *)

Lemma fold_left_blocks {A B C} (f : A -> B -> A) (h : C -> list B) (l : list C) :
  forall a,
    fold_left (fun a c => fold_left f (h c) a) l a = fold_left f (concat (map h l)) a.
Proof.
  induction l as [|c l IH]; intros a; [reflexivity|].
  simpl. rewrite fold_left_app. apply IH.
Qed.

Lemma getBalance_flat (this : Blockchain.t) (address : option string) :
  Blockchain.getBalance this address
  = fold_left (Blockchain.account address) (all_transactions this) 0%Q.
Proof.
  exact (fold_left_blocks (Blockchain.account address) Block.transactions
           (Blockchain.chain this) 0%Q).
Qed.

Lemma volume_nonneg (txs : list Transaction.t) :
  whole_amounts txs -> (0 <= volume txs)%Q.
Proof.
  induction 1 as [|tx txs (k & Hk & E) _ IH]; [apply Qle_refl|].
  unfold volume in *. simpl. rewrite E.
  rewrite Zle_Qle in Hk. change (inject_Z 0) with 0%Q in Hk. lra.
Qed.

Lemma sub_whole (b k : Z) :
  Z.abs (b - k) < 2 ^ 53 -> Double.sub (inject_Z b) (inject_Z k) = inject_Z (b - k).
Proof.
  intros H. unfold Double.sub. apply round_whole; [exact H|].
  unfold Z.sub. rewrite inject_Z_plus, inject_Z_opp. ring.
Qed.

Lemma add_whole (b k : Z) :
  Z.abs (b + k) < 2 ^ 53 -> Double.add (inject_Z b) (inject_Z k) = inject_Z (b + k).
Proof.
  intros H. unfold Double.add. apply round_whole; [exact H|].
  rewrite inject_Z_plus. reflexivity.
Qed.

(** With whole amounts that stay below [2 ^ 53] no operation of
    [getBalance] rounds. *)
Lemma account_whole (address : option string) (txs : list Transaction.t) :
  whole_amounts txs ->
  forall b : Z,
    (inject_Z (Z.abs b) + volume txs < inject_Z (2 ^ 53))%Q ->
    exists b' : Z,
      fold_left (Blockchain.account address) txs (inject_Z b) = inject_Z b'
      /\ (inject_Z b' == inject_Z b + received address txs - sent address txs)%Q.
Proof.
  induction 1 as [|tx txs (k & Hk & E) Hrest IH]; intros b Hb.
  - exists b. split; [reflexivity|]. unfold received, sent. simpl. lra.
  - pose proof (volume_nonneg txs Hrest) as Hv.
    assert (Hvol : (volume (tx :: txs) == inject_Z k + volume txs)%Q).
    { unfold volume. simpl. rewrite E. reflexivity. }
    rewrite Hvol in Hb.
    assert (Hbk : Z.abs b + k < 2 ^ 53).
    { rewrite Zlt_Qlt, inject_Z_plus. lra. }
    set (b1 := if Blockchain.same_address (Transaction.fromAddress tx) address
               then b - k else b).
    set (b2 := if Blockchain.same_address (Transaction.toAddress tx) address
               then b1 + k else b1).
    assert (Hstep : Blockchain.account address (inject_Z b) tx = inject_Z b2).
    { unfold Blockchain.account, b2, b1. rewrite E.
      destruct (Blockchain.same_address (Transaction.fromAddress tx) address);
        destruct (Blockchain.same_address (Transaction.toAddress tx) address);
        rewrite ?sub_whole, ?add_whole by lia; reflexivity. }
    assert (Hb2 : (inject_Z (Z.abs b2) + volume txs < inject_Z (2 ^ 53))%Q).
    { assert (Z.abs b2 <= Z.abs b + k).
      { unfold b2, b1.
        destruct (Blockchain.same_address (Transaction.fromAddress tx) address);
          destruct (Blockchain.same_address (Transaction.toAddress tx) address); lia. }
      assert (G : (inject_Z (Z.abs b2) <= inject_Z (Z.abs b) + inject_Z k)%Q).
      { rewrite <- inject_Z_plus, <- Zle_Qle. assumption. }
      lra. }
    destruct (IH b2 Hb2) as (b' & Hfold & Hsum).
    exists b'. simpl fold_left. rewrite Hstep. split; [exact Hfold|].
    rewrite Hsum. unfold received, sent. simpl total.
    fold (received address txs). fold (sent address txs). rewrite E.
    unfold b2, b1.
    destruct (Blockchain.same_address (Transaction.fromAddress tx) address);
      destruct (Blockchain.same_address (Transaction.toAddress tx) address);
      unfold Z.sub; rewrite ?inject_Z_plus, ?inject_Z_opp; lra.
Qed.

(** X9.  When the amounts in the chain are whole numbers with a sum
    below [2 ^ 53], the balance of an address is exactly what the
    transactions of the chain pay to it less what they take from it: no
    operation rounds. *)
Theorem getBalance_received_less_sent (this : Blockchain.t) (address : option string) :
  whole_amounts (all_transactions this) ->
  (volume (all_transactions this) < inject_Z (2 ^ 53))%Q ->
  (Blockchain.getBalance this address
   == received address (all_transactions this) - sent address (all_transactions this))%Q.
Proof.
  intros Hwhole Hvol. rewrite getBalance_flat.
  destruct (account_whole address _ Hwhole 0) as (b & Hfold & Hb).
  - change (inject_Z (Z.abs 0)) with 0%Q. lra.
  - change 0%Q with (inject_Z 0) at 1. rewrite Hfold, Hb.
    change (inject_Z 0) with 0%Q. lra.
Qed.

Lemma getBalance_received_less_sent_witness :
  (Blockchain.getBalance Scenario.busy_mined (Some Scenario.miner)
   == received (Some Scenario.miner) (all_transactions Scenario.busy_mined)
      - sent (Some Scenario.miner) (all_transactions Scenario.busy_mined))%Q.
Proof.
  apply (getBalance_received_less_sent Scenario.busy_mined (Some Scenario.miner)).
  - repeat constructor; eexists; (split; [|reflexivity]); lia.
  - vm_compute. reflexivity.
Defined.

(** With amounts that are not whole an operation can round: for 0.1
    and 0.2 received the balance is 0.30000000000000004, which is not
    what is received less what is sent. *)
Example getBalance_rounds :
  let A := Some Scenario.miner in
  let tx (amount : Q) :=
    Transaction.mk Scenario.uuid None A (Double.round amount) Scenario.t0 (JObj []) None in
  let this :=
    Blockchain.set_chain Scenario.ledger
      (Blockchain.chain Scenario.ledger
       ++ [Block.mk 1 Scenario.t0 [tx (1 # 10); tx (2 # 10)] "p" "h" (Some 0)]) in
  Blockchain.getBalance this A
  = Double.round (30000000000000004 # 100000000000000000)
  /\ ~ (Blockchain.getBalance this A
        == received A (all_transactions this) - sent A (all_transactions this))%Q.
Proof. split; vm_compute; [reflexivity | discriminate]. Qed.

Lemma wallet_fold (address : option string) (txs : list Transaction.t) :
  forall acc,
    fold_left (fun txs tx => if involves address tx then txs ++ [tx] else txs) txs acc
    = acc ++ List.filter (involves address) txs.
Proof.
  induction txs as [|tx txs IH]; intros acc; simpl; [rewrite app_nil_r; reflexivity|].
  rewrite IH. destruct (involves address tx); [|reflexivity].
  rewrite <- app_assoc. reflexivity.
Qed.

Lemma account_filter (address : option string) (txs : list Transaction.t) :
  forall balance,
    fold_left (Blockchain.account address) (List.filter (involves address) txs) balance
    = fold_left (Blockchain.account address) txs balance.
Proof.
  induction txs as [|tx txs IH]; intros balance; [reflexivity|].
  simpl. unfold involves at 1.
  destruct (Blockchain.same_address (Transaction.fromAddress tx) address) eqn:Hf;
    destruct (Blockchain.same_address (Transaction.toAddress tx) address) eqn:Ht;
    simpl; rewrite IH; try reflexivity.
  unfold Blockchain.account. rewrite Hf, Ht. reflexivity.
Qed.

(** X10.  The history of a wallet is the transactions of the chain that
    have the address as sender or recipient, in the order of the chain,
    and the balance of the address is the balance of its history. *)
Theorem getAllTransactionsForWallet_history (this : Blockchain.t)
    (address : option string) :
  Blockchain.getAllTransactionsForWallet this address
  = List.filter (involves address) (all_transactions this)
  /\ (forall tx,
        In tx (Blockchain.getAllTransactionsForWallet this address)
        <-> (exists block,
               In block (Blockchain.chain this) /\ In tx (Block.transactions block))
            /\ involves address tx = true)
  /\ Blockchain.getBalance this address
     = fold_left (Blockchain.account address)
                 (Blockchain.getAllTransactionsForWallet this address) 0%Q.
Proof.
  assert (E : Blockchain.getAllTransactionsForWallet this address
              = List.filter (involves address) (all_transactions this)).
  { unfold Blockchain.getAllTransactionsForWallet, all_transactions.
    change (fun txs tx =>
              if Blockchain.same_address (Transaction.fromAddress tx) address
                 || Blockchain.same_address (Transaction.toAddress tx) address
              then txs ++ [tx] else txs)
      with (fun txs tx => if involves address tx then txs ++ [tx] else txs).
    rewrite (fold_left_blocks
               (fun txs tx => if involves address tx then txs ++ [tx] else txs)
               Block.transactions).
    rewrite wallet_fold. reflexivity. }
  split; [exact E|]. split.
  - intros tx. rewrite E, filter_In. unfold all_transactions.
    rewrite in_concat. split.
    + intros [(l & Hl & Hin) Hp]. split; [|exact Hp].
      apply in_map_iff in Hl as (block & <- & Hb). eauto.
    + intros [(block & Hb & Hin) Hp]. split; [|exact Hp].
      exists (Block.transactions block). split; [apply in_map; exact Hb | exact Hin].
  - rewrite E, account_filter. apply getBalance_flat.
Qed.

(** ** The pool and the statistics under mining *)

(** The two slices that [minePendingTransactions] takes split the pool,
    for every cap, negative ones included. *)
Lemma slice_partition {A} (l : list A) (n : Z) :
  slice l 0 (Some n) ++ slice l n None = l.
Proof.
  unfold slice.
  assert (H0 : relative_index (Z.of_nat (length l)) 0 = 0).
  { unfold relative_index. simpl. lia. }
  rewrite H0.
  assert (Hm : 0 <= relative_index (Z.of_nat (length l)) n <= Z.of_nat (length l)).
  { unfold relative_index. destruct (n <? 0) eqn:E; [|apply Z.ltb_ge in E]; lia. }
  set (m := relative_index (Z.of_nat (length l)) n) in *.
  change (Z.to_nat 0) with 0%nat. rewrite skipn_O, Z.sub_0_r.
  rewrite (firstn_all2 (skipn (Z.to_nat m) l)) by (rewrite length_skipn; lia).
  apply firstn_skipn.
Qed.

(** What a call of [minePendingTransactions] that returns has done. *)
Lemma minePendingTransactions_returns (uuid : string) (now blockNow : Z)
    (miningRewardAddress : string) (this after : Blockchain.t) (u : unit) :
  Blockchain.minePendingTransactions uuid now blockNow miningRewardAddress this
  = Some (Return u, after) ->
  exists block tip,
    last (Blockchain.chain this) = Some tip
    /\ CryptoUtils.validateAddress (Some miningRewardAddress) = true
    /\ after = Blockchain.set_pendingTransactions
                 (Blockchain.set_chain this (Blockchain.chain this ++ [block]))
                 (slice (Blockchain.pendingTransactions this)
                        (Blockchain.maxTransactionsPerBlock this) None)
    /\ Block.index block = Z.of_nat (length (Blockchain.chain this))
    /\ Block.timestamp block = blockNow
    /\ Block.previousHash block = Block.hash tip
    /\ Block.transactions block
       = slice (Blockchain.pendingTransactions this) 0
               (Some (Blockchain.maxTransactionsPerBlock this))
         ++ [reward uuid now miningRewardAddress this]
    /\ Block.solved (Blockchain.difficulty this) block = true.
Proof.
  unfold Blockchain.minePendingTransactions. intros H.
  destruct (Transaction.new _ _ _ _ _ _) as [rewardTx|e] eqn:Hnew; [|discriminate].
  destruct (new_returns _ _ _ _ _ _ _ Hnew) as (Hvalid & _ & _ & ->).
  rewrite getLatestBlock_last in H.
  destruct (last (Blockchain.chain this)) as [tip|]; [|discriminate].
  destruct (Block.mineBlock _ _) as [[[[] | e] block]|] eqn:Hmine; try discriminate.
  injection H as _ <-.
  destruct (mineBlock_returns _ _ _ _ Hmine) as [Hr Hs].
  destruct (rounds_fields _ _ _ Hr) as (Hi & Ht & Hx & Hp & _).
  exists block, tip. repeat split; assumption.
Qed.

(** X11.  A call of [minePendingTransactions] that returns moves
    transactions from the pool to the new block without losing or
    repeating any, whatever the cap: the block holds a first part of the
    pool and then the reward, the pool keeps the rest, and the two parts
    in this order are the pool as it was. *)
Theorem minePendingTransactions_partitions (uuid : string) (now blockNow : Z)
    (miningRewardAddress : string) (this after : Blockchain.t) :
  Blockchain.minePendingTransactions uuid now blockNow miningRewardAddress this
  = Some (Return tt, after) ->
  exists block taken,
    Blockchain.chain after = Blockchain.chain this ++ [block]
    /\ Block.transactions block = taken ++ [reward uuid now miningRewardAddress this]
    /\ taken ++ Blockchain.pendingTransactions after = Blockchain.pendingTransactions this.
Proof.
  intros H.
  destruct (minePendingTransactions_returns _ _ _ _ _ _ _ H)
    as (block & tip & _ & _ & -> & _ & _ & _ & Htxs & _).
  exists block, (slice (Blockchain.pendingTransactions this) 0
                       (Some (Blockchain.maxTransactionsPerBlock this))).
  split; [reflexivity|]. split; [exact Htxs|]. apply slice_partition.
Qed.

Lemma minePendingTransactions_partitions_witness :
  exists block taken,
    Blockchain.chain Scenario.busy_mined = Blockchain.chain Scenario.busy ++ [block]
    /\ Block.transactions block
       = taken ++ [reward Scenario.uuid (Scenario.t0 + 1000) Scenario.miner Scenario.busy]
    /\ taken ++ Blockchain.pendingTransactions Scenario.busy_mined
       = Blockchain.pendingTransactions Scenario.busy.
Proof.
  apply (minePendingTransactions_partitions Scenario.uuid (Scenario.t0 + 1000)
           (Scenario.t0 + 1001) Scenario.miner).
  vm_compute. reflexivity.
Defined.

Lemma total_count (chain : list Block.t) :
  forall n,
    fold_left (fun sum block => (sum + length (Block.transactions block))%nat) chain n
    = (n + length (concat (map Block.transactions chain)))%nat.
Proof.
  induction chain as [|b chain IH]; intros n; simpl; [lia|].
  rewrite IH, length_app. lia.
Qed.

(** X12.  The statistics across a call of [minePendingTransactions] that
    returns: the height grows by one, the difficulty stays, and the
    transactions in blocks and in the pool together grow by one, the
    reward. *)
Theorem getChainStats_after_mining (uuid : string) (now blockNow before later : Z)
    (miningRewardAddress : string) (this after : Blockchain.t)
    (s s' : Blockchain.stats) :
  Blockchain.minePendingTransactions uuid now blockNow miningRewardAddress this
  = Some (Return tt, after) ->
  Blockchain.getChainStats before this = Return s ->
  Blockchain.getChainStats later after = Return s' ->
  Blockchain.stats_height s' = S (Blockchain.stats_height s)
  /\ Blockchain.stats_difficulty s' = Blockchain.stats_difficulty s
  /\ (Blockchain.stats_totalTransactions s' + Blockchain.stats_pendingTransactions s'
      = S (Blockchain.stats_totalTransactions s + Blockchain.stats_pendingTransactions s))%nat
  /\ Blockchain.stats_totalTransactions s = length (all_transactions this).
Proof.
  intros Hmine Hs Hs'.
  destruct (minePendingTransactions_returns _ _ _ _ _ _ _ Hmine)
    as (block & tip & _ & _ & -> & _ & _ & _ & Htxs & _).
  pose proof (slice_partition (Blockchain.pendingTransactions this)
                (Blockchain.maxTransactionsPerBlock this)) as Hpart.
  unfold Blockchain.getChainStats in Hs, Hs'. cbv zeta in Hs, Hs'.
  destruct (Blockchain.isChainValid before this) as [v|]; [|discriminate].
  destruct (Blockchain.isChainValid later _) as [v'|]; [|discriminate].
  simpl in Hs, Hs'. injection Hs as <-. injection Hs' as <-.
  cbn [Blockchain.stats_height Blockchain.stats_difficulty
       Blockchain.stats_totalTransactions Blockchain.stats_pendingTransactions].
  rewrite !total_count, map_app, concat_app, !length_app. simpl.
  rewrite Htxs, app_nil_r, !length_app. simpl.
  apply (f_equal (@length _)) in Hpart. rewrite length_app in Hpart.
  unfold all_transactions. repeat split; lia.
Qed.

Lemma getChainStats_after_mining_witness :
  exists s s',
    Blockchain.getChainStats Scenario.t0 Scenario.busy = Return s
    /\ Blockchain.getChainStats Scenario.t0 Scenario.busy_mined = Return s'
    /\ Blockchain.stats_height s' = S (Blockchain.stats_height s)
    /\ (Blockchain.stats_totalTransactions s' + Blockchain.stats_pendingTransactions s'
        = S (Blockchain.stats_totalTransactions s
             + Blockchain.stats_pendingTransactions s))%nat.
Proof.
  eexists _, _. split; [vm_compute; reflexivity|]. split; [vm_compute; reflexivity|].
  pose proof (getChainStats_after_mining Scenario.uuid (Scenario.t0 + 1000)
                (Scenario.t0 + 1001) Scenario.t0 Scenario.t0 Scenario.miner
                Scenario.busy Scenario.busy_mined) as H.
  edestruct H as (H1 & _ & H3 & _);
    [vm_compute; reflexivity | vm_compute; reflexivity | vm_compute; reflexivity |].
  split; [exact H1 | exact H3].
Defined.

Lemma getBalance_snoc (this : Blockchain.t) (block : Block.t) (address : option string) :
  Blockchain.getBalance (Blockchain.set_chain this (Blockchain.chain this ++ [block])) address
  = fold_left (Blockchain.account address) (Block.transactions block)
              (Blockchain.getBalance this address).
Proof.
  unfold Blockchain.getBalance. simpl Blockchain.chain.
  rewrite fold_left_app. reflexivity.
Qed.

Lemma account_uninvolved (address : option string) (txs : list Transaction.t) :
  Forall (fun tx => involves address tx = false) txs ->
  forall balance, fold_left (Blockchain.account address) txs balance = balance.
Proof.
  induction 1 as [|tx txs Htx _ IH]; intros balance; [reflexivity|].
  simpl. rewrite <- (IH balance) at 2. f_equal.
  unfold involves in Htx. apply orb_false_elim in Htx. destruct Htx as [Hf Ht].
  unfold Blockchain.account. rewrite Hf, Ht. reflexivity.
Qed.

(** X13.  After a call of [minePendingTransactions] that returns, the
    balance of every address is its balance before with the transactions
    of the new block accounted one after the other: those taken from the
    pool, in order, and then the reward.  So an address that none of the
    transactions taken has as sender or recipient keeps its balance, and
    the reward address among them gets the sum, as a double, of its
    balance and the reward rounded to hundredths. *)
Theorem minePendingTransactions_balances (uuid : string) (now blockNow : Z)
    (miningRewardAddress : string) (this after : Blockchain.t) :
  Blockchain.minePendingTransactions uuid now blockNow miningRewardAddress this
  = Some (Return tt, after) ->
  exists taken,
    taken ++ Blockchain.pendingTransactions after = Blockchain.pendingTransactions this
    /\ forall address : string,
         Blockchain.getBalance after (Some address)
         = fold_left (Blockchain.account (Some address))
                     (taken ++ [reward uuid now miningRewardAddress this])
                     (Blockchain.getBalance this (Some address))
         /\ (Forall (fun tx => involves (Some address) tx = false) taken ->
             Blockchain.getBalance after (Some address)
             = if String.eqb miningRewardAddress address
               then Double.add (Blockchain.getBalance this (Some address))
                               (Transaction.round2 (Blockchain.miningReward this))
               else Blockchain.getBalance this (Some address)).
Proof.
  intros H.
  destruct (minePendingTransactions_returns _ _ _ _ _ _ _ H)
    as (block & tip & _ & _ & -> & _ & _ & _ & Htxs & _).
  exists (slice (Blockchain.pendingTransactions this) 0
                (Some (Blockchain.maxTransactionsPerBlock this))).
  split; [apply slice_partition|]. intros a.
  change (Blockchain.getBalance
            (Blockchain.set_pendingTransactions
               (Blockchain.set_chain this (Blockchain.chain this ++ [block])) _) (Some a))
    with (Blockchain.getBalance
            (Blockchain.set_chain this (Blockchain.chain this ++ [block])) (Some a)).
  rewrite getBalance_snoc, Htxs. split; [reflexivity|].
  intros Hnone. rewrite fold_left_app, (account_uninvolved _ _ Hnone).
  simpl fold_left. unfold Blockchain.account, reward.
  cbn [Transaction.toAddress Transaction.fromAddress Transaction.amount
       Blockchain.same_address].
  reflexivity.
Qed.

Lemma minePendingTransactions_balances_witness :
  exists taken,
    taken ++ Blockchain.pendingTransactions Scenario.busy_mined
    = Blockchain.pendingTransactions Scenario.busy
    /\ forall address : string,
         Blockchain.getBalance Scenario.busy_mined (Some address)
         = fold_left (Blockchain.account (Some address))
                     (taken ++ [reward Scenario.uuid (Scenario.t0 + 1000) Scenario.miner
                                       Scenario.busy])
                     (Blockchain.getBalance Scenario.busy (Some address))
         /\ (Forall (fun tx => involves (Some address) tx = false) taken ->
             Blockchain.getBalance Scenario.busy_mined (Some address)
             = if String.eqb Scenario.miner address
               then Double.add (Blockchain.getBalance Scenario.busy (Some address))
                               (Transaction.round2 (Blockchain.miningReward Scenario.busy))
               else Blockchain.getBalance Scenario.busy (Some address)).
Proof.
  apply (minePendingTransactions_balances Scenario.uuid (Scenario.t0 + 1000)
           (Scenario.t0 + 1001) Scenario.miner Scenario.busy Scenario.busy_mined).
  vm_compute. reflexivity.
Defined.

(** ** What [isChainValid] checks *)

Lemma block_text_index (a b : Block.t) :
  stringify (Block.toJSON a) = stringify (Block.toJSON b) ->
  Block.index a = Block.index b.
Proof.
  intros H.
  destruct (block_text a) as (ra & Ha). destruct (block_text b) as (rb & Hb).
  rewrite Ha, Hb in H. injection H as H.
  repeat apply append_inv_head in H.
  apply show_Z_inj. eapply comma_delimited; [| |exact H]; apply comma_free_show_Z.
Qed.

Lemma hasValidTransactions_signed (this : Block.t) :
  Block.hasValidTransactions this = Return true ->
  forall tx, In tx (Block.transactions this) -> ~ unsigned_transfer tx.
Proof.
  unfold Block.hasValidTransactions.
  induction (Block.transactions this) as [|tx' txs IH]; intros H tx Hin; [destruct Hin|].
  simpl in H. destruct (isValid_cases tx') as [E | E]; rewrite E in H; [|discriminate].
  simpl in H. destruct Hin as [<- | Hin]; [|exact (IH H tx Hin)].
  intros Hun. rewrite (isValid_unsigned _ Hun) in E. discriminate.
Qed.

Lemma links_valid_sound (rest : list Block.t) :
  forall previousBlock,
    Blockchain.links_valid previousBlock rest = Return true ->
    forall i a b,
      nth_error (previousBlock :: rest) i = Some a ->
      nth_error (previousBlock :: rest) (S i) = Some b ->
      Block.previousHash b = Block.hash a
      /\ Block.hash b = Block.calculateHash b
      /\ Block.hasValidTransactions b = Return true.
Proof.
  induction rest as [|current rest IH]; intros previousBlock H i a b Ha Hb.
  - destruct i; discriminate.
  - simpl in H.
    destruct (String.eqb_spec (Block.hash previousBlock) (Block.previousHash current))
      as [E1 | _]; [|discriminate].
    simpl in H.
    destruct (hasValidTransactions_cases current) as [E2 | E2]; rewrite E2 in H;
      [|discriminate].
    simpl in H.
    destruct (String.eqb_spec (Block.hash current) (Block.calculateHash current))
      as [E3 | _]; [|discriminate].
    simpl in H. destruct i as [|i].
    + injection Ha as <-. injection Hb as <-. repeat split; congruence.
    + exact (IH current H i a b Ha Hb).
Qed.

(** X14.  What an answer [true] of [isChainValid] guarantees: the chain
    is not empty, its first block has index 0 and the instant of the call
    as timestamp, every later block carries the hash of the block before
    it and a hash that is that of its own fields, and no later block
    contains an unsigned transfer.  (The proof of work and the indices of
    the later blocks are not looked at.) *)
Theorem isChainValid_guarantees (now : Z) (this : Blockchain.t) :
  Blockchain.isChainValid now this = Return true ->
  exists genesis rest,
    Blockchain.chain this = genesis :: rest
    /\ Block.index genesis = 0
    /\ Block.timestamp genesis = now
    /\ forall i a b,
         nth_error (Blockchain.chain this) i = Some a ->
         nth_error (Blockchain.chain this) (S i) = Some b ->
         Block.previousHash b = Block.hash a
         /\ Block.hash b = Block.calculateHash b
         /\ forall tx, In tx (Block.transactions b) -> ~ unsigned_transfer tx.
Proof.
  unfold Blockchain.isChainValid. intros H.
  destruct (Blockchain.chain this) as [|genesis rest]; [discriminate|].
  destruct (String.eqb_spec
              (stringify (Block.toJSON (Blockchain.createGenesisBlock now)))
              (stringify (Block.toJSON genesis))) as [E | _]; [|discriminate].
  simpl in H. exists genesis, rest.
  pose proof (block_text_index _ _ E) as Hi.
  pose proof (block_text_timestamp _ _ Hi E) as Ht.
  split; [reflexivity|]. split; [symmetry; exact Hi|]. split; [symmetry; exact Ht|].
  intros i a b Ha Hb.
  destruct (links_valid_sound rest genesis H i a b Ha Hb) as (H1 & H2 & H3).
  split; [exact H1|]. split; [exact H2|]. apply hasValidTransactions_signed, H3.
Qed.

Lemma isChainValid_guarantees_witness :
  exists genesis rest,
    Blockchain.chain Scenario.mined = genesis :: rest
    /\ Block.timestamp genesis = Scenario.t0.
Proof.
  destruct (isChainValid_guarantees Scenario.t0 Scenario.mined)
    as (genesis & rest & H1 & _ & H3 & _); [vm_compute; reflexivity|].
  exists genesis, rest. split; assumption.
Defined.

(** ** Start-up *)

(** X15.  [initialize] runs once: it leaves the ledger initialised with
    a chain that is not empty, and any later call changes nothing.  A
    chain found in the store is taken as it is, without any check, and the
    stored pool with it; the genesis block is made only when the store has
    no chain or cannot be read. *)
Theorem initialize_once (now later : Z)
    (stored again : outcome (list Block.t * list Transaction.t)) (this : Blockchain.t) :
  Blockchain.isInitialized this = false ->
  let started := Blockchain.initialize now stored this in
  Blockchain.isInitialized started = true
  /\ Blockchain.chain started <> []
  /\ Blockchain.initialize later again started = started
  /\ (forall block savedChain savedPending,
        stored = Return (block :: savedChain, savedPending) ->
        Blockchain.chain started = block :: savedChain
        /\ Blockchain.pendingTransactions started = savedPending)
  /\ (nothing_stored stored ->
      Blockchain.chain started = [Blockchain.createGenesisBlock now]).
Proof.
  intros Hinit. cbv zeta.
  destruct (initialize_chain now stored this Hinit) as [Hne Hgen].
  assert (I : Blockchain.isInitialized (Blockchain.initialize now stored this) = true).
  { unfold Blockchain.initialize. rewrite Hinit.
    destruct stored as [[savedChain savedPending]|e]; reflexivity. }
  split; [exact I|]. split; [exact Hne|]. split.
  { unfold Blockchain.initialize at 1. rewrite I. reflexivity. }
  split; [|exact Hgen].
  intros block savedChain savedPending ->.
  unfold Blockchain.initialize. rewrite Hinit. split; reflexivity.
Qed.

Lemma initialize_once_witness :
  Blockchain.initialize 5 (Throw "unreadable")
    (Blockchain.initialize Scenario.t0 (Return ([Scenario.stray], [Scenario.unsigned]))
       Blockchain.new)
  = Blockchain.initialize Scenario.t0 (Return ([Scenario.stray], [Scenario.unsigned]))
      Blockchain.new.
Proof.
  apply (initialize_once Scenario.t0 5 (Return ([Scenario.stray], [Scenario.unsigned]))
           (Throw "unreadable") Blockchain.new).
  reflexivity.
Defined.

(** ** The mining loop, further *)

Section Loop.
Context {S R : Type} (body : S -> S + R).

Lemma iterate_stops (n : positive) :
  forall s r, body s = inr r -> iterate body n s = inr r.
Proof.
  induction n as [p IH | p IH |]; intros s r H; simpl.
  - rewrite H. reflexivity.
  - rewrite (IH _ _ H). reflexivity.
  - exact H.
Qed.

End Loop.

Lemma rounds_nonce_safe (difficulty : nat) (this this' : Block.t) (n : Z) :
  rounds (Block.mine_round difficulty) this this' ->
  Block.nonce this = Some n ->
  n <= Block.MAX_SAFE_INTEGER ->
  exists m, Block.nonce this' = Some m /\ n <= m <= Block.MAX_SAFE_INTEGER.
Proof.
  intros H. revert n. induction H as [s | s s' s'' Hstep Hrest IH]; intros n Hn Hle.
  - exists n. split; [exact Hn | lia].
  - destruct (mine_round_cases difficulty s)
      as [[_ E] | [(_ & _ & E) | (k & _ & Hk & [[Hsafe E] | [_ E]])]];
      rewrite E in Hstep; try discriminate.
    injection Hstep as <-.
    destruct (advance_fields s k) as (_ & _ & _ & _ & Hnonce & _).
    destruct (IH _ Hnonce Hsafe) as (m & Hm & Hbound).
    exists m. split; [exact Hm|]. rewrite Hn in Hk. injection Hk as ->. lia.
Qed.

(** X16.  However a call of [mineBlock] ends, by returning or by
    throwing, the block keeps its index, its timestamp, its transactions
    and its previous hash, and its nonce has not decreased; and a block
    that a call has returned is left untouched by a further call with the
    same difficulty. *)
Theorem mineBlock_frame (difficulty : nat) (this this' : Block.t) (r : outcome unit)
    (n : Z) :
  Block.nonce this = Some n ->
  Block.mineBlock difficulty this = Some (r, this') ->
  Block.index this' = Block.index this
  /\ Block.timestamp this' = Block.timestamp this
  /\ Block.transactions this' = Block.transactions this
  /\ Block.previousHash this' = Block.previousHash this
  /\ (exists m, Block.nonce this' = Some m /\ n <= m)
  /\ (r = Return tt -> Block.mineBlock difficulty this' = Some (Return tt, this')).
Proof.
  intros Hn H. destruct (mineBlock_inv _ _ _ _ H) as (s0 & Hr & Hb).
  destruct (rounds_fields _ _ _ Hr) as (Hi & Ht & Hx & Hp & _).
  destruct (rounds_nonce _ _ _ _ Hr Hn) as (m & Hm & Hle).
  destruct (mine_round_cases difficulty s0)
    as [[Hs E] | [(_ & _ & E) | (k & _ & Hk & [[_ E] | [_ E]])]];
    rewrite E in Hb; try discriminate.
  - injection Hb as <- <-.
    split; [exact Hi|]. split; [exact Ht|]. split; [exact Hx|]. split; [exact Hp|].
    split; [exists m; split; assumption|].
    intros _. unfold Block.mineBlock.
    rewrite (iterate_stops _ _ _ _ E). reflexivity.
  - injection Hb as <- <-.
    destruct (advance_fields s0 k) as (Ai & At & Ax & Ap & An & _).
    split; [congruence|]. split; [congruence|]. split; [congruence|].
    split; [congruence|]. split; [|discriminate].
    exists (k + 1). split; [exact An|]. rewrite Hm in Hk. injection Hk as <-. lia.
Qed.

Lemma mineBlock_frame_witness :
  exists this',
    Block.mineBlock 1 (Block.new 1 [] "0" Scenario.t0) = Some (Return tt, this')
    /\ Block.mineBlock 1 this' = Some (Return tt, this').
Proof.
  eexists. split; [vm_compute; reflexivity|].
  eapply (mineBlock_frame 1 (Block.new 1 [] "0" Scenario.t0) _ (Return tt) 0 eq_refl);
    [vm_compute; reflexivity | reflexivity].
Defined.

Lemma zeros_length (n : nat) : String.length (Block.zeros n) = n.
Proof. induction n as [|n IH]; simpl; [reflexivity | rewrite IH; reflexivity]. Qed.

Lemma new_hash_length (index : Z) (transactions : list Transaction.t)
    (previousHash : string) (timestamp : Z) :
  String.length (Block.hash (Block.new index transactions previousHash timestamp)) = 64%nat.
Proof.
  unfold Block.new. cbn [Block.hash Block.set_hash Block.set_nonce].
  unfold Block.calculateHash, CryptoUtils.createHash. apply sha256_hex_shape.
Qed.

Lemma rounds_hash_length (difficulty : nat) (this this' : Block.t) :
  rounds (Block.mine_round difficulty) this this' ->
  String.length (Block.hash this) = 64%nat ->
  String.length (Block.hash this') = 64%nat.
Proof.
  intros Hr H. destruct (rounds_fields _ _ _ Hr) as (_ & _ & _ & _ & [-> | E]);
    [exact H|].
  rewrite E. unfold Block.calculateHash, CryptoUtils.createHash. apply sha256_hex_shape.
Qed.

Lemma solved_length (difficulty : nat) (this : Block.t) :
  Block.solved difficulty this = true ->
  (difficulty <= String.length (Block.hash this))%nat.
Proof.
  unfold Block.solved. intros H. apply String.eqb_eq in H.
  apply (f_equal String.length) in H.
  rewrite substring_length, zeros_length in H. lia.
Qed.

(** X17.  With a difficulty above 64, the length of a digest, no hash
    can satisfy the loop condition: [mineBlock] on a constructed block
    never returns, and ends by throwing the overflow error with the nonce
    one past the largest safe integer. *)
Theorem mineBlock_beyond_digest (difficulty : nat) (index : Z)
    (transactions : list Transaction.t) (previousHash : string) (timestamp : Z) :
  (64 < difficulty)%nat ->
  exists this',
    Block.mineBlock difficulty (Block.new index transactions previousHash timestamp)
    = Some (Throw "Mining timeout - nonce exceeded maximum value", this')
    /\ Block.nonce this' = Some (Block.MAX_SAFE_INTEGER + 1).
Proof.
  intros Hd. set (this := Block.new index transactions previousHash timestamp).
  destruct (mineBlock_ends difficulty this 0 eq_refl) as (r & this' & H).
  rewrite H. destruct (mineBlock_inv _ _ _ _ H) as (s0 & Hr & Hb).
  assert (Hsafe : 0 <= Block.MAX_SAFE_INTEGER) by (unfold Block.MAX_SAFE_INTEGER; lia).
  destruct (rounds_nonce_safe _ _ _ 0 Hr eq_refl Hsafe) as (m & Hm & Hbound).
  pose proof (rounds_hash_length _ _ _ Hr (new_hash_length _ _ _ _)) as Hlen.
  destruct (mine_round_cases difficulty s0)
    as [[Hs E] | [(_ & Hnone & _) | (k & _ & Hk & [[_ E] | [Hover E]])]].
  - apply solved_length in Hs. lia.
  - congruence.
  - rewrite E in Hb. discriminate.
  - rewrite E in Hb. injection Hb as <- <-.
    exists (advance s0 k). split; [reflexivity|].
    destruct (advance_fields s0 k) as (_ & _ & _ & _ & An & _).
    rewrite An. f_equal. rewrite Hm in Hk. injection Hk as <-. lia.
Qed.

Lemma mineBlock_beyond_digest_witness :
  exists this',
    Block.mineBlock 65 (Block.new 1 [] "0" Scenario.t0)
    = Some (Throw "Mining timeout - nonce exceeded maximum value", this')
    /\ Block.nonce this' = Some (Block.MAX_SAFE_INTEGER + 1).
Proof. apply (mineBlock_beyond_digest 65 1 [] "0" Scenario.t0). lia. Defined.

(** ** The node and its peers *)

Lemma filter_none {A : Type} (f : A -> bool) (l : list A) :
  (forall x, In x l -> f x = false) -> List.filter f l = [].
Proof.
  induction l as [|x l IH]; intros H; [reflexivity|].
  simpl. rewrite (H x (or_introl eq_refl)). apply IH. intros y Hy. apply H. right. exact Hy.
Qed.

(** Whatever a message makes the node do, the node keeps its peers, and
    what it sends, it sends to peers of its map whose socket is open. *)
Lemma handleMessage_sends (peerId : string) (m : KeetaNode.message) (this : KeetaNode.t) :
  KeetaNode.peers (KeetaNode.handleMessage peerId m this) = KeetaNode.peers this
  /\ KeetaNode.connectedPeers (KeetaNode.handleMessage peerId m this)
     = KeetaNode.connectedPeers this
  /\ exists sent,
       KeetaNode.wire (KeetaNode.handleMessage peerId m this) = KeetaNode.wire this ++ sent
       /\ forall e, In e sent ->
            exists p, KeetaNode.peers this !! fst e = Some p
                      /\ KeetaNode.is_open (KeetaNode.ws p) = true.
Proof.
  assert (quiet : KeetaNode.peers this = KeetaNode.peers this
                  /\ KeetaNode.connectedPeers this = KeetaNode.connectedPeers this
                  /\ exists sent,
                       KeetaNode.wire this = KeetaNode.wire this ++ sent
                       /\ forall e, In e sent ->
                            exists p, KeetaNode.peers this !! fst e = Some p
                                      /\ KeetaNode.is_open (KeetaNode.ws p) = true).
  { split; [reflexivity|]. split; [reflexivity|]. exists [].
    split; [rewrite app_nil_r; reflexivity | intros e []]. }
  assert (one : forall q msg,
             exists sent,
               KeetaNode.sendToPeer q msg this
               = KeetaNode.set_wire this (KeetaNode.wire this ++ sent)
               /\ forall e, In e sent ->
                    exists p, KeetaNode.peers this !! fst e = Some p
                              /\ KeetaNode.is_open (KeetaNode.ws p) = true).
  { intros q msg. destruct (sendToPeer_wire q msg this) as (sent & E & Hsent).
    exists sent. split; [exact E|]. intros e He. subst sent.
    destruct (KeetaNode.peers this !! q) as [p|] eqn:Hq; [|destruct He].
    destruct (KeetaNode.is_open (KeetaNode.ws p)) eqn:Ho; [|destruct He].
    destruct He as [<- | []]. exists p. split; assumption. }
  destruct m as [data | | data | h]; simpl KeetaNode.handleMessage.
  - unfold KeetaNode.handleBlock.
    destruct data as [b|]; [|exact quiet].
    destruct (KeetaNode.isValidBlock (Some b)); [|exact quiet].
    destruct (KeetaNode.index_is b _); [|exact quiet].
    destruct (KeetaNode.pushed b) as [block|]; [|exact quiet].
    simpl snd. rewrite broadcastToPeers_wire.
    split; [reflexivity|]. split; [reflexivity|].
    eexists. split; [reflexivity|].
    intros e He. apply in_map_iff in He. destruct He as (q & <- & Hq).
    unfold recipients in Hq. apply filter_In in Hq. destruct Hq as [_ Hq].
    apply andb_prop in Hq. destruct Hq as [_ Hq]. simpl fst.
    simpl KeetaNode.peers in Hq.
    destruct (KeetaNode.peers this !! q) as [p|]; [|discriminate].
    exists p. split; [reflexivity | exact Hq].
  - unfold KeetaNode.handleChainRequest.
    destruct (Blockchain.getLatestBlock _) as [latest|]; [|exact quiet].
    simpl snd.
    destruct (one peerId
                (KeetaNode.CHAIN_RESPONSE
                   (KeetaNode.mk_chainData
                      (Blockchain.chain (KeetaNode.blockchain this))
                      (Z.of_nat (length (Blockchain.chain (KeetaNode.blockchain this))))
                      (Block.hash latest)))) as (sent & -> & Hsent).
    split; [reflexivity|]. split; [reflexivity|]. exists sent. split; [reflexivity | exact Hsent].
  - unfold KeetaNode.handleChainResponse, KeetaNode.replaceChain.
    destruct (_ <? KeetaNode.height data); [|exact quiet].
    destruct (_ <? _)%nat; [|exact quiet].
    split; [reflexivity|]. split; [reflexivity|]. exists [].
    split; [simpl; rewrite app_nil_r; reflexivity | intros e []].
  - split; [reflexivity|]. split; [reflexivity|]. exists [].
    split; [simpl; rewrite app_nil_r; reflexivity | intros e []].
Qed.

Lemma receive_sends (ms : list (string * KeetaNode.message)) :
  forall this,
    KeetaNode.peers (receive ms this) = KeetaNode.peers this
    /\ KeetaNode.connectedPeers (receive ms this) = KeetaNode.connectedPeers this
    /\ exists sent,
         KeetaNode.wire (receive ms this) = KeetaNode.wire this ++ sent
         /\ forall e, In e sent ->
              exists p, KeetaNode.peers this !! fst e = Some p
                        /\ KeetaNode.is_open (KeetaNode.ws p) = true.
Proof.
  induction ms as [|[q m] ms IH]; intros this.
  - split; [reflexivity|]. split; [reflexivity|]. exists [].
    split; [simpl; rewrite app_nil_r; reflexivity | intros e []].
  - unfold receive. simpl fold_left. fold (receive ms (KeetaNode.handleMessage q m this)).
    destruct (handleMessage_sends q m this) as (P1 & C1 & sent1 & W1 & S1).
    destruct (IH (KeetaNode.handleMessage q m this)) as (P2 & C2 & sent2 & W2 & S2).
    split; [congruence|]. split; [congruence|].
    exists (sent1 ++ sent2). split; [rewrite W2, W1, app_assoc; reflexivity|].
    intros e He. apply in_app_or in He. destruct He as [He | He]; [exact (S1 e He)|].
    rewrite <- P1. exact (S2 e He).
Qed.

(** X18.  Once [handleDisconnection] has run for a peer, the peer is
    in neither the map nor the list of the node, and whatever messages the
    node receives afterwards, from whomever, nothing more is sent to that
    peer. *)
Theorem handleDisconnection_silences (peerId : string)
    (ms : list (string * KeetaNode.message)) (this : KeetaNode.t) :
  let after := receive ms (KeetaNode.handleDisconnection peerId this) in
  KeetaNode.peers after !! peerId = None
  /\ ~ In peerId (KeetaNode.connectedPeers after)
  /\ sent_to peerId after = sent_to peerId this.
Proof.
  cbv zeta.
  destruct (receive_sends ms (KeetaNode.handleDisconnection peerId this))
    as (P & C & sent & W & S).
  assert (Hgone : KeetaNode.peers (KeetaNode.handleDisconnection peerId this) !! peerId
                  = None) by apply lookup_delete_eq.
  split; [rewrite P; exact Hgone|]. split.
  - rewrite C. simpl. intros Hin. apply filter_In in Hin. destruct Hin as [_ Hin].
    rewrite String.eqb_refl in Hin. discriminate.
  - unfold sent_to. rewrite W. simpl KeetaNode.wire. rewrite List.filter_app.
    rewrite (filter_none _ sent); [rewrite app_nil_r; reflexivity|].
    intros e He. destruct (S e He) as (p & Hp & _).
    destruct (String.eqb_spec (fst e) peerId) as [E | _]; [|reflexivity].
    rewrite E in Hp. congruence.
Qed.

(** X19.  Synchronisation: a node whose chain is not empty answers a
    [CHAIN_REQUEST] of an open peer with one [CHAIN_RESPONSE] carrying its
    chain, and a node that handles this response ends with the longer of
    the two chains, its own when they are as long; its pool of pending
    transactions is not synchronised. *)
Theorem chain_sync (p q : string) (peer : KeetaNode.peer)
    (responder requester : KeetaNode.t) :
  KeetaNode.peers responder !! p = Some peer ->
  KeetaNode.is_open (KeetaNode.ws peer) = true ->
  Blockchain.chain (KeetaNode.blockchain responder) <> [] ->
  exists data,
    KeetaNode.handleChainRequest p responder
    = (Return tt,
       KeetaNode.set_wire responder
         (KeetaNode.wire responder ++ [(p, KeetaNode.CHAIN_RESPONSE data)]))
    /\ let synced := KeetaNode.handleMessage q (KeetaNode.CHAIN_RESPONSE data) requester in
       Blockchain.chain (KeetaNode.blockchain synced)
       = (if (length (Blockchain.chain (KeetaNode.blockchain requester))
              <? length (Blockchain.chain (KeetaNode.blockchain responder)))%nat
          then Blockchain.chain (KeetaNode.blockchain responder)
          else Blockchain.chain (KeetaNode.blockchain requester))
       /\ Blockchain.pendingTransactions (KeetaNode.blockchain synced)
          = Blockchain.pendingTransactions (KeetaNode.blockchain requester).
Proof.
  intros Hp Ho Hne. unfold KeetaNode.handleChainRequest.
  rewrite getLatestBlock_last.
  destruct (last (Blockchain.chain (KeetaNode.blockchain responder))) as [latest|] eqn:Hlast;
    [|apply last_None in Hlast; contradiction].
  eexists. split.
  - unfold KeetaNode.sendToPeer. rewrite Hp, Ho. reflexivity.
  - cbv zeta. simpl KeetaNode.handleMessage.
    unfold KeetaNode.handleChainResponse, KeetaNode.replaceChain.
    cbn [KeetaNode.height KeetaNode.chain].
    destruct (Z.ltb_spec
                (Z.of_nat (length (Blockchain.chain (KeetaNode.blockchain requester))))
                (Z.of_nat (length (Blockchain.chain (KeetaNode.blockchain responder)))))
      as [Hz | Hz];
      destruct (Nat.ltb_spec
                  (length (Blockchain.chain (KeetaNode.blockchain requester)))
                  (length (Blockchain.chain (KeetaNode.blockchain responder))))
        as [Hn | Hn];
      try lia; split; reflexivity.
Qed.

Lemma chain_sync_witness :
  exists data,
    KeetaNode.handleChainRequest "p1" Scenario.node
    = (Return tt,
       KeetaNode.set_wire Scenario.node
         (KeetaNode.wire Scenario.node ++ [("p1", KeetaNode.CHAIN_RESPONSE data)]))
    /\ Blockchain.chain
         (KeetaNode.blockchain
            (KeetaNode.handleMessage "p2" (KeetaNode.CHAIN_RESPONSE data)
               (KeetaNode.new "node-2" Blockchain.new 6002)))
       = Blockchain.chain (KeetaNode.blockchain Scenario.node).
Proof.
  destruct (chain_sync "p1" "p2" (KeetaNode.mk_peer KeetaNode.OPEN "10.0.0.1" 6001 Scenario.t0)
              Scenario.node (KeetaNode.new "node-2" Blockchain.new 6002))
    as (data & H1 & H2 & _); [vm_compute; reflexivity | reflexivity | discriminate |].
  exists data. split; [exact H1 | exact H2].
Defined.

(** ** A mined block on its way to the peers *)

Lemma minePendingTransactions_block (uuid : string) (now blockNow : Z)
    (miningRewardAddress : string) (this after : Blockchain.t) (u : unit) :
  Blockchain.minePendingTransactions uuid now blockNow miningRewardAddress this
  = Some (Return u, after) ->
  exists block tip,
    last (Blockchain.chain this) = Some tip
    /\ Blockchain.chain after = Blockchain.chain this ++ [block]
    /\ Block.index block = Z.of_nat (length (Blockchain.chain this))
    /\ Block.timestamp block = blockNow
    /\ Block.previousHash block = Block.hash tip
    /\ String.length (Block.hash block) = 64%nat.
Proof.
  unfold Blockchain.minePendingTransactions. intros H.
  destruct (Transaction.new _ _ _ _ _ _) as [rewardTx|e]; [|discriminate].
  rewrite getLatestBlock_last in H.
  destruct (last (Blockchain.chain this)) as [tip|]; [|discriminate].
  destruct (Block.mineBlock _ _) as [[[[] | e] block]|] eqn:Hmine; try discriminate.
  injection H as _ <-.
  destruct (mineBlock_returns _ _ _ _ Hmine) as [Hr _].
  destruct (rounds_fields _ _ _ Hr) as (Hi & Ht & Hx & Hp & _).
  pose proof (rounds_hash_length _ _ _ Hr (new_hash_length _ _ _ _)) as Hlen.
  exists block, tip. repeat split; assumption.
Qed.

(** X20.  A block that [minePendingTransactions] has appended, once
    broadcast, goes to every connected peer with an open socket; and a
    peer whose chain was as long as the miner's before the block takes it
    as its next block, provided the clock of the miner did not read 0 and
    the hash of the previous tip is not empty. *)
Theorem mined_block_propagates (uuid : string) (now blockNow : Z)
    (miningRewardAddress : string) (ledger after : Blockchain.t) (tip : Block.t)
    (miner receiver : KeetaNode.t) (peerId : string) :
  Blockchain.minePendingTransactions uuid now blockNow miningRewardAddress ledger
  = Some (Return tt, after) ->
  blockNow <> 0 ->
  Blockchain.getLatestBlock ledger = Some tip ->
  Block.hash tip <> "" ->
  length (Blockchain.chain (KeetaNode.blockchain receiver))
  = length (Blockchain.chain ledger) ->
  exists block,
    Blockchain.chain after = Blockchain.chain ledger ++ [block]
    /\ KeetaNode.broadcastBlock block miner
       = KeetaNode.set_wire miner
           (KeetaNode.wire miner
            ++ map (fun q => (q, KeetaNode.BLOCK (Some (KeetaNode.blockData_of block))))
                   (recipients miner None))
    /\ Blockchain.chain
         (KeetaNode.blockchain
            (KeetaNode.handleMessage peerId
               (KeetaNode.BLOCK (Some (KeetaNode.blockData_of block))) receiver))
       = Blockchain.chain (KeetaNode.blockchain receiver) ++ [block].
Proof.
  intros H Hnow Htip Hhash Hlen.
  destruct (minePendingTransactions_block _ _ _ _ _ _ _ H)
    as (block & tip' & Hlast & Hchain & Hi & Ht & Hp & Hh).
  rewrite getLatestBlock_last, Hlast in Htip. injection Htip as ->.
  exists block. split; [exact Hchain|]. split.
  { unfold KeetaNode.broadcastBlock. apply broadcastToPeers_wire. }
  assert (Hne : Blockchain.chain ledger <> []).
  { intros E. rewrite E in Hlast. discriminate. }
  assert (Hpos : Block.index block <> 0).
  { rewrite Hi. destruct (Blockchain.chain ledger); [contradiction | simpl; lia]. }
  assert (Hdigest : Block.hash block <> "").
  { intros E. rewrite E in Hh. discriminate. }
  unfold KeetaNode.handleMessage, KeetaNode.handleBlock.
  assert (Hshape : KeetaNode.isValidBlock (Some (KeetaNode.blockData_of block)) = true).
  { unfold KeetaNode.isValidBlock, KeetaNode.blockData_of.
    cbn [KeetaNode.index KeetaNode.hash KeetaNode.previousHash KeetaNode.transactions
         KeetaNode.timestamp truthy_number truthy_string truthy_object].
    rewrite Hp, Ht.
    apply Z.eqb_neq in Hpos, Hnow. apply String.eqb_neq in Hdigest, Hhash.
    rewrite Hpos, Hnow, Hdigest, Hhash. reflexivity. }
  rewrite Hshape.
  assert (Hindex : KeetaNode.index_is (KeetaNode.blockData_of block)
                     (length (Blockchain.chain (KeetaNode.blockchain receiver))) = true).
  { unfold KeetaNode.index_is, KeetaNode.blockData_of. cbn [KeetaNode.index].
    rewrite Hlen, Hi. apply Z.eqb_refl. }
  rewrite Hindex.
  assert (Hpushed : KeetaNode.pushed (KeetaNode.blockData_of block) = Some block)
    by (destruct block; reflexivity).
  rewrite Hpushed. simpl snd. rewrite broadcastToPeers_wire. reflexivity.
Qed.

Lemma mined_block_propagates_witness :
  exists block,
    Blockchain.chain Scenario.busy_mined = Blockchain.chain Scenario.busy ++ [block]
    /\ Blockchain.chain
         (KeetaNode.blockchain
            (KeetaNode.handleMessage "p1"
               (KeetaNode.BLOCK (Some (KeetaNode.blockData_of block)))
               (KeetaNode.new "node-2" Scenario.busy 6002)))
       = Blockchain.chain Scenario.busy ++ [block].
Proof.
  destruct (mined_block_propagates Scenario.uuid (Scenario.t0 + 1000) (Scenario.t0 + 1001)
               Scenario.miner Scenario.busy Scenario.busy_mined
               (default Scenario.stray (Blockchain.getLatestBlock Scenario.busy))
               Scenario.node (KeetaNode.new "node-2" Scenario.busy 6002) "p1")
    as (block & H1 & _ & H2).
  - vm_compute. reflexivity.
  - vm_compute. discriminate.
  - vm_compute. reflexivity.
  - vm_compute. discriminate.
  - reflexivity.
  - exists block. split; [exact H1 | exact H2].
Defined.

(** ** The rate limiter *)

Section RateLimit.
Variables maxRequests windowMs : Z.

Lemma filter_window (a b : Z) (l : list Z) :
  a <= b ->
  List.filter (fun x => b <? x) (List.filter (fun x => a <? x) l)
  = List.filter (fun x => b <? x) l.
Proof.
  intros Hab. induction l as [|x l IH]; [reflexivity|]. simpl.
  destruct (Z.ltb_spec a x) as [Ha | Ha]; simpl;
    destruct (Z.ltb_spec b x) as [Hb | Hb]; try lia; rewrite IH; reflexivity.
Qed.

Lemma recent_snoc (key : string) (t : Z) (log : list (string * Z)) (r : string * Z) :
  recent windowMs key t (log ++ [r])
  = recent windowMs key t log
    ++ (if (fst r =? key)%string && (t - windowMs <? snd r) then [snd r] else []).
Proof.
  unfold recent. rewrite List.filter_app, map_app. simpl.
  destruct ((fst r =? key)%string && (t - windowMs <? snd r)); reflexivity.
Qed.

(** The store after a request that is let through. *)
Lemma admitted_agrees (t now : Z) (key : string) (log : list (string * Z))
    (counts counts' : gmap string (list Z)) :
  agrees windowMs t (log, counts) ->
  t <= now ->
  (forall k, default [] (counts' !! k) = default [] (counts !! k)) ->
  agrees windowMs now
    (log ++ [(key, now)],
     <[key := List.filter (fun x => now - windowMs <? x) (default [] (counts !! key))
              ++ [now]]> counts').
Proof.
  intros Hinv Hle Hsame k t' Ht'. simpl fst. simpl snd.
  rewrite recent_snoc. simpl fst. simpl snd.
  destruct (String.eqb_spec key k) as [<- | Hne].
  - pose proof (Hinv key t' ltac:(lia)) as E. simpl fst in E. simpl snd in E.
    rewrite lookup_insert_eq. simpl default.
    rewrite List.filter_app, filter_window by lia.
    rewrite E. simpl. reflexivity.
  - pose proof (Hinv k t' ltac:(lia)) as E. simpl fst in E. simpl snd in E.
    rewrite lookup_insert_ne by exact Hne. rewrite Hsame.
    rewrite E. simpl. rewrite app_nil_r. reflexivity.
Qed.

(** The store after a request that is refused. *)
Lemma refused_agrees (t now : Z) (log : list (string * Z))
    (counts counts' : gmap string (list Z)) :
  agrees windowMs t (log, counts) ->
  t <= now ->
  (forall k, default [] (counts' !! k) = default [] (counts !! k)) ->
  agrees windowMs now (log, counts').
Proof.
  intros Hinv Hle Hsame k t' Ht'. simpl fst. simpl snd.
  rewrite Hsame. apply (Hinv k t'). lia.
Qed.

Lemma serve_one_agrees (t : Z) (s : list (string * Z) * gmap string (list Z))
    (key : string) (now : Z) :
  agrees windowMs t s ->
  t <= now ->
  agrees windowMs now (serve_one maxRequests windowMs s (key, now))
  /\ fst (serve_one maxRequests windowMs s (key, now))
     = if Z.of_nat (length (recent windowMs key now (fst s))) <? maxRequests
       then fst s ++ [(key, now)] else fst s.
Proof.
  destruct s as [log counts]. intros Hinv Hle.
  pose proof (Hinv key now Hle) as Hvalid. simpl fst in *. simpl snd in *.
  assert (Hlen : length (List.filter (fun x => now - windowMs <? x)
                           (default [] (counts !! key)))
                 = length (recent windowMs key now log)) by (rewrite Hvalid; reflexivity).
  unfold serve_one, ProductionKeetaApp.rateLimitMiddleware. simpl fst. simpl snd.
  set (counts' := match counts !! key with
                  | Some _ => counts
                  | None => <[key := []]> counts
                  end).
  assert (Hsame : forall k, default [] (counts' !! k) = default [] (counts !! k)).
  { intros k. subst counts'. destruct (counts !! key) eqn:Hk; [reflexivity|].
    destruct (String.eqb_spec key k) as [<- | Hne].
    - rewrite lookup_insert_eq, Hk. reflexivity.
    - rewrite lookup_insert_ne by exact Hne. reflexivity. }
  cbv zeta. rewrite (Hsame key), Hlen.
  destruct (Z.geb_spec (Z.of_nat (length (recent windowMs key now log))) maxRequests)
    as [Hge | Hlt];
    destruct (Z.ltb_spec (Z.of_nat (length (recent windowMs key now log))) maxRequests)
      as [Hlt' | Hge']; try lia; simpl fst.
  - split; [|reflexivity]. exact (refused_agrees _ _ _ _ _ Hinv Hle Hsame).
  - split; [|reflexivity]. exact (admitted_agrees _ _ _ _ _ _ Hinv Hle Hsame).
Qed.

Lemma serve_agrees (requests : list (string * Z)) :
  forall t s bound,
    agrees windowMs t s ->
    ascending_from t (map snd requests ++ [bound]) = true ->
    agrees windowMs bound (fold_left (serve_one maxRequests windowMs) requests s).
Proof.
  induction requests as [|[key now] requests IH]; intros t s bound Hinv Hasc.
  - simpl in *. apply andb_prop in Hasc. destruct Hasc as [Hle _].
    apply Z.leb_le in Hle. intros k t' Ht'. apply Hinv. lia.
  - simpl in Hasc. apply andb_prop in Hasc. destruct Hasc as [Hle Hasc].
    apply Z.leb_le in Hle. simpl fold_left.
    destruct (serve_one_agrees t s key now Hinv Hle) as [Hstep _].
    exact (IH now _ bound Hstep Hasc).
Qed.

End RateLimit.

(** X21.  One limiter on its own store, the clock not running
    backwards: a request is let through exactly when fewer than
    [maxRequests] of the requests of the same address that were let
    through lie within the [windowMs] milliseconds before it; a request
    that is refused is not counted. *)
Theorem rateLimit_window (maxRequests windowMs : Z) (before : list (string * Z))
    (key : string) (now : Z) :
  ascending (map snd before ++ [now]) = true ->
  let log := fst (serve maxRequests windowMs before) in
  fst (serve maxRequests windowMs (before ++ [(key, now)]))
  = if Z.of_nat (length (recent windowMs key now log)) <? maxRequests
    then log ++ [(key, now)] else log.
Proof.
  intros Hasc. cbv zeta. unfold serve. rewrite fold_left_app. simpl fold_left.
  assert (Hempty : forall t, agrees windowMs t ([], ∅)).
  { intros t k t' _. simpl. rewrite lookup_empty. reflexivity. }
  assert (Hinv : agrees windowMs now
                   (fold_left (serve_one maxRequests windowMs) before ([], ∅))).
  { destruct before as [|[k0 t0] rest].
    - apply Hempty.
    - apply (serve_agrees maxRequests windowMs ((k0, t0) :: rest) t0 _ now (Hempty t0)).
      simpl in *. rewrite Z.leb_refl. exact Hasc. }
  exact (proj2 (serve_one_agrees maxRequests windowMs now _ key now Hinv (Z.le_refl now))).
Qed.

Lemma rateLimit_window_witness :
  fst (serve 2 1000 ([("10.0.0.1", 0); ("10.0.0.1", 10); ("10.0.0.1", 20)]
                     ++ [("10.0.0.1", 1005)]))
  = [("10.0.0.1", 0); ("10.0.0.1", 10); ("10.0.0.1", 1005)].
Proof.
  rewrite (rateLimit_window 2 1000
             [("10.0.0.1", 0); ("10.0.0.1", 10); ("10.0.0.1", 20)] "10.0.0.1" 1005);
    [|reflexivity].
  vm_compute. reflexivity.
Defined.

(** X22.  The limiters share the one store, and each rewrites the
    record of an address with what its own window keeps.  So a request
    that a limiter refuses, its limit being reached by requests older than
    the window of a second limiter, is let through by the first right
    after one request through the second. *)
Theorem shared_store_forgets (maxA windowA maxB windowB : Z) (key : string) (now : Z)
    (requests : list Z) (counts : gmap string (list Z)) :
  counts !! key = Some requests ->
  Forall (fun timestamp => now - windowA < timestamp <= now - windowB) requests ->
  maxA <= Z.of_nat (length requests) ->
  2 <= maxA ->
  1 <= maxB ->
  fst (ProductionKeetaApp.rateLimitMiddleware maxA windowA key now counts) = false
  /\ let (admitted, counts') :=
       ProductionKeetaApp.rateLimitMiddleware maxB windowB key now counts in
     admitted = true
     /\ counts' !! key = Some [now]
     /\ (0 < windowA ->
         fst (ProductionKeetaApp.rateLimitMiddleware maxA windowA key now counts') = true).
Proof.
  intros Hk Hall HmaxA HA HB.
  assert (HinA : List.filter (fun x => now - windowA <? x) requests = requests).
  { clear Hk HmaxA. induction Hall as [|x l [Hx _] _ IH]; [reflexivity|].
    simpl. apply Z.ltb_lt in Hx. rewrite Hx, IH. reflexivity. }
  assert (HinB : List.filter (fun x => now - windowB <? x) requests = []).
  { clear Hk HmaxA HinA. induction Hall as [|x l [_ Hx] _ IH]; [reflexivity|].
    simpl. destruct (Z.ltb_spec (now - windowB) x); [lia | exact IH]. }
  assert (EB : ProductionKeetaApp.rateLimitMiddleware maxB windowB key now counts
               = (true, <[key := [now]]> counts)).
  { unfold ProductionKeetaApp.rateLimitMiddleware. rewrite Hk. cbv zeta.
    rewrite Hk. simpl default. rewrite HinB. simpl length.
    destruct (Z.geb_spec (Z.of_nat 0) maxB); [lia | reflexivity]. }
  rewrite EB. split.
  - unfold ProductionKeetaApp.rateLimitMiddleware. rewrite Hk. cbv zeta.
    rewrite Hk. simpl default. rewrite HinA.
    destruct (Z.geb_spec (Z.of_nat (length requests)) maxA); [reflexivity | lia].
  - split; [reflexivity|]. split; [apply lookup_insert_eq|].
    intros Hw. unfold ProductionKeetaApp.rateLimitMiddleware.
    rewrite lookup_insert_eq. cbv zeta. rewrite lookup_insert_eq.
    simpl default. simpl List.filter.
    destruct (Z.ltb_spec (now - windowA) now); [|lia]. simpl length.
    destruct (Z.geb_spec (Z.of_nat 1) maxA); [lia | reflexivity].
Qed.

Lemma shared_store_forgets_witness :
  fst (ProductionKeetaApp.rateLimitMiddleware 2 900000 "10.0.0.1" 100000
         (<["10.0.0.1" := [10; 20]]> ∅)) = false
  /\ fst (ProductionKeetaApp.rateLimitMiddleware 2 900000 "10.0.0.1" 100000
            (snd (ProductionKeetaApp.rateLimitMiddleware 10 60000 "10.0.0.1" 100000
                    (<["10.0.0.1" := [10; 20]]> ∅)))) = true.
Proof.
  destruct (shared_store_forgets 2 900000 10 60000 "10.0.0.1" 100000 [10; 20]
              (<["10.0.0.1" := [10; 20]]> ∅)) as [H1 H2].
  - reflexivity.
  - repeat constructor; lia.
  - simpl. lia.
  - lia.
  - lia.
  - split; [exact H1|].
    destruct (ProductionKeetaApp.rateLimitMiddleware 10 60000 "10.0.0.1" 100000
                (<["10.0.0.1" := [10; 20]]> ∅)) as [admitted counts'].
    destruct H2 as (_ & _ & H2). apply H2. lia.
Defined.

(** ** The explorer *)

(** X23.  The answer of [/blocks/latest] is the chain read backwards
    from the tip, cut after [limit] blocks: after 10 when the parameter is
    missing, not a number or 0, and after none when it is negative. *)
Theorem latestBlocks_newest_first (limit : option Z) (this : Blockchain.t) :
  let n := match limit with
           | Some n => if n =? 0 then 10 else n
           | None => 10
           end in
  ExplorerAPI.latestBlocks limit this = firstn (Z.to_nat n) (rev (Blockchain.chain this)).
Proof.
  cbv zeta. unfold ExplorerAPI.latestBlocks.
  set (n := match limit with
            | Some n => if n =? 0 then 10 else n
            | None => 10
            end).
  set (l := Blockchain.chain this).
  rewrite slice_suffix by lia. rewrite firstn_rev. f_equal.
  destruct (Z.le_gt_cases 0 n) as [Hn | Hn].
  - f_equal. lia.
  - rewrite !skipn_all2; [reflexivity | lia | lia].
Qed.

Lemma find_app {A : Type} (p : A -> bool) (l l' : list A) :
  List.find p (l ++ l')
  = match List.find p l with
    | Some x => Some x
    | None => List.find p l'
    end.
Proof.
  induction l as [|x l IH]; [reflexivity|]. simpl. destruct (p x); [reflexivity | exact IH].
Qed.

Lemma findTransaction_from_first (txId : string) (chain : list Block.t) :
  forall i,
    match ExplorerAPI.findTransaction_from txId i chain with
    | Some (tx, k) =>
        exists j block,
          k = (i + j)%nat
          /\ nth_error chain j = Some block
          /\ List.find (fun tx => (Transaction.id tx =? txId)%string)
                       (Block.transactions block) = Some tx
          /\ forall j' b, (j' < j)%nat -> nth_error chain j' = Some b ->
               List.find (fun tx => (Transaction.id tx =? txId)%string)
                         (Block.transactions b) = None
    | None =>
        forall b, In b chain ->
          List.find (fun tx => (Transaction.id tx =? txId)%string)
                    (Block.transactions b) = None
    end.
Proof.
  induction chain as [|block rest IH]; intros i; simpl.
  - intros b [].
  - destruct (List.find _ (Block.transactions block)) as [tx|] eqn:E.
    + exists 0%nat, block. split; [lia|]. split; [reflexivity|]. split; [exact E|].
      intros j' b Hj. lia.
    + specialize (IH (S i)).
      destruct (ExplorerAPI.findTransaction_from txId (S i) rest) as [[tx k]|].
      * destruct IH as (j & b & -> & Hn & Hf & Hbefore).
        exists (S j), b. split; [lia|]. split; [exact Hn|]. split; [exact Hf|].
        intros [|j'] b' Hj Hb'; simpl in Hb'.
        -- injection Hb' as <-. exact E.
        -- apply (Hbefore j' b'); [lia | exact Hb'].
      * intros b [<- | Hb]; [exact E | exact (IH b Hb)].
Qed.

(** X24.  The transaction that [/transaction/:txId] reports is the
    first of the chain, block after block, whose id is the one asked for,
    with the index of the block that holds it; no earlier block has a
    transaction with this id.  Nothing is found exactly when no
    transaction of the chain has the id: the pending ones are not looked
    at. *)
Theorem findTransaction_first (txId : string) (this : Blockchain.t) :
  option_map fst (ExplorerAPI.findTransaction txId this)
  = List.find (fun tx => (Transaction.id tx =? txId)%string) (all_transactions this)
  /\ forall tx blockIndex,
       ExplorerAPI.findTransaction txId this = Some (tx, blockIndex) ->
       Transaction.id tx = txId
       /\ exists block,
            nth_error (Blockchain.chain this) blockIndex = Some block
            /\ In tx (Block.transactions block)
            /\ forall j b tx', (j < blockIndex)%nat ->
                 nth_error (Blockchain.chain this) j = Some b ->
                 In tx' (Block.transactions b) -> Transaction.id tx' <> txId.
Proof.
  unfold ExplorerAPI.findTransaction, all_transactions. split.
  - generalize 0%nat. induction (Blockchain.chain this) as [|block rest IH]; intros i;
      [reflexivity|].
    simpl. rewrite find_app.
    destruct (List.find _ (Block.transactions block)); [reflexivity | apply IH].
  - intros tx blockIndex H.
    pose proof (findTransaction_from_first txId (Blockchain.chain this) 0) as Hspec.
    rewrite H in Hspec. destruct Hspec as (j & block & -> & Hn & Hf & Hbefore).
    simpl. apply find_some in Hf. destruct Hf as [Hin Hid].
    apply String.eqb_eq in Hid. split; [exact Hid|].
    exists block. split; [exact Hn|]. split; [exact Hin|].
    intros j' b tx' Hj Hb Hin' Hid'.
    pose proof (find_none _ _ (Hbefore j' b Hj Hb) tx' Hin') as Hno.
    simpl in Hno. rewrite Hid', String.eqb_refl in Hno. discriminate.
Qed.




(** ** The rich list and the balances of the ledger *)

Section RichList.
Import ExplorerAPI.

Lemma get_set (key a : string) (value : Q) (m : list (string * Q)) :
  get a (set key value m) = if (key =? a)%string then Some value else get a m.
Proof.
  induction m as [|[k v] m IH]; simpl.
  - destruct (key =? a)%string; reflexivity.
  - destruct (String.eqb_spec k key) as [-> | Hne]; simpl.
    + destruct (key =? a)%string; reflexivity.
    + rewrite IH. destruct (String.eqb_spec key a) as [<- | Hne'].
      * destruct (String.eqb_spec k key); [contradiction | reflexivity].
      * reflexivity.
Qed.

Lemma set_keys (key : string) (value : Q) (m : list (string * Q)) :
  map fst (set key value m)
  = if existsb (fun k => (k =? key)%string) (map fst m)
    then map fst m else map fst m ++ [key].
Proof.
  induction m as [|[k v] m IH]; [reflexivity|]. simpl.
  destruct (k =? key)%string; simpl; [reflexivity|].
  rewrite IH. destruct (existsb _ (map fst m)); reflexivity.
Qed.

(** The keys are distinct and none is empty. *)
Lemma set_distinct (key : string) (value : Q) (m : list (string * Q)) :
  key <> "" ->
  List.NoDup (map fst m) /\ ~ In "" (map fst m) ->
  List.NoDup (map fst (set key value m)) /\ ~ In "" (map fst (set key value m)).
Proof.
  intros Hkey [Hnd Hno]. rewrite set_keys.
  destruct (existsb _ (map fst m)) eqn:E; [split; assumption|].
  split.
  - apply List.NoDup_app; [exact Hnd | repeat constructor; intros [] |].
    intros x Hx [<- | []].
    assert (existsb (fun k => (k =? key)%string) (map fst m) = true); [|congruence].
    apply existsb_exists. exists key. split; [exact Hx | apply String.eqb_refl].
  - intros Hin. apply in_app_or in Hin. destruct Hin as [Hin | [Hin | []]];
      [contradiction | congruence].
Qed.

Lemma tally_distinct (m : list (string * Q)) (tx : Transaction.t) :
  List.NoDup (map fst m) /\ ~ In "" (map fst m) ->
  List.NoDup (map fst (tally m tx)) /\ ~ In "" (map fst (tally m tx)).
Proof.
  intros H. unfold tally.
  assert (H1 : List.NoDup (map fst
                        match Transaction.fromAddress tx with
                        | Some fromAddress =>
                            if truthy_string (Some fromAddress)
                            then set fromAddress
                                   (Double.sub (default 0%Q (get fromAddress m))
                                               (Transaction.amount tx)) m
                            else m
                        | None => m
                        end)
               /\ ~ In "" (map fst
                             match Transaction.fromAddress tx with
                             | Some fromAddress =>
                                 if truthy_string (Some fromAddress)
                                 then set fromAddress
                                        (Double.sub (default 0%Q (get fromAddress m))
                                                    (Transaction.amount tx)) m
                                 else m
                             | None => m
                             end)).
  { destruct (Transaction.fromAddress tx) as [f|]; [|exact H].
    simpl. destruct (String.eqb_spec f ""); [exact H|]. simpl.
    apply set_distinct; assumption. }
  destruct (Transaction.toAddress tx) as [a|]; [|exact H1].
  simpl. destruct (String.eqb_spec a ""); [exact H1|]. simpl.
  apply set_distinct; assumption.
Qed.

(** What a transaction does to the entry of an address is what it does
    to the balance that [getBalance] computes. *)
Lemma tally_account (a : string) (m : list (string * Q)) (tx : Transaction.t) :
  a <> "" ->
  default 0%Q (get a (tally m tx))
  = Blockchain.account (Some a) (default 0%Q (get a m)) tx.
Proof.
  intros Ha. unfold tally, Blockchain.account.
  destruct (Transaction.fromAddress tx) as [f|], (Transaction.toAddress tx) as [r|];
    simpl;
    repeat match goal with
           | |- context [String.eqb ?x ""] => destruct (String.eqb_spec x ""); simpl
           end;
    rewrite ?get_set;
    repeat match goal with
           | |- context [String.eqb ?x ?y] => destruct (String.eqb_spec x y); simpl
           end;
    subst; rewrite ?get_set, ?String.eqb_refl; simpl;
    try contradiction; try congruence; try reflexivity.
Qed.

Lemma balances_fold (this : Blockchain.t) :
  balances this = fold_left tally (all_transactions this) [].
Proof.
  exact (fold_left_blocks tally Block.transactions (Blockchain.chain this) []).
Qed.

Lemma tally_fold (a : string) (txs : list Transaction.t) :
  a <> "" ->
  forall m,
    (List.NoDup (map fst m) /\ ~ In "" (map fst m) ->
     List.NoDup (map fst (fold_left tally txs m)) /\ ~ In "" (map fst (fold_left tally txs m)))
    /\ default 0%Q (get a (fold_left tally txs m))
       = fold_left (Blockchain.account (Some a)) txs (default 0%Q (get a m)).
Proof.
  intros Ha. induction txs as [|tx txs IH]; intros m; [split; [auto | reflexivity]|].
  simpl. destruct (IH (tally m tx)) as [I1 I2]. split.
  - intros H. apply I1, tally_distinct, H.
  - rewrite I2, tally_account by exact Ha. reflexivity.
Qed.

Lemma get_In (a : string) (v : Q) (m : list (string * Q)) :
  get a m = Some v -> In (a, v) m.
Proof.
  induction m as [|[k x] m IH]; simpl; [discriminate|].
  destruct (String.eqb_spec k a) as [-> | _]; [|auto].
  intros E. injection E as ->. left. reflexivity.
Qed.

Lemma In_get (a : string) (v : Q) (m : list (string * Q)) :
  List.NoDup (map fst m) -> In (a, v) m -> get a m = Some v.
Proof.
  induction m as [|[k x] m IH]; simpl; intros Hnd Hin; [destruct Hin|].
  apply List.NoDup_cons_iff in Hnd. destruct Hnd as [Hk Hnd].
  destruct Hin as [E | Hin].
  - injection E as -> ->. rewrite String.eqb_refl. reflexivity.
  - destruct (String.eqb_spec k a) as [-> | _]; [|exact (IH Hnd Hin)].
    exfalso. apply Hk. change a with (fst (a, v)). apply in_map. exact Hin.
Qed.

(** Every entry of the map is the balance of its address. *)
Lemma balances_getBalance (this : Blockchain.t) (a : string) (v : Q) :
  In (a, v) (balances this) ->
  a <> "" /\ v = Blockchain.getBalance this (Some a).
Proof.
  intros Hin. rewrite balances_fold in Hin.
  assert (Hempty : List.NoDup (map fst ([] : list (string * Q)))
                   /\ ~ In "" (map fst ([] : list (string * Q)))).
  { split; [constructor | intros []]. }
  assert (Ha : a <> "").
  { intros ->. destruct (tally_fold "x" (all_transactions this) ltac:(discriminate) [])
      as [I _].
    destruct (I Hempty) as [_ Hno]. apply Hno.
    change "" with (fst ("", v)). apply in_map. exact Hin. }
  split; [exact Ha|].
  destruct (tally_fold a (all_transactions this) Ha []) as [I E].
  destruct (I Hempty) as [Hnd _].
  rewrite (In_get _ _ _ Hnd Hin) in E. rewrite getBalance_flat. exact E.
Qed.

Lemma getBalance_listed (this : Blockchain.t) (a : string) :
  a <> "" ->
  (0 < Blockchain.getBalance this (Some a))%Q ->
  In (a, Blockchain.getBalance this (Some a)) (balances this).
Proof.
  intros Ha Hpos.
  destruct (tally_fold a (all_transactions this) Ha []) as [_ E].
  rewrite <- balances_fold, <- getBalance_flat in E. simpl default in E.
  destruct (get a (balances this)) as [v|] eqn:Hget.
  - simpl in E. subst v. apply get_In. exact Hget.
  - simpl in E. rewrite <- E in Hpos. exfalso. revert Hpos. apply Qlt_irrefl.
Qed.

Lemma insert_In (e x : string * Q) (l : list (string * Q)) :
  In x (insert e l) <-> x = e \/ In x l.
Proof.
  induction l as [|y l IH]; simpl; [intuition congruence|].
  destruct (negb (Qle_bool (snd y) (snd e))); simpl; [rewrite IH|]; intuition congruence.
Qed.

Lemma sort_In (x : string * Q) (l : list (string * Q)) :
  In x (sort l) <-> In x l.
Proof.
  induction l as [|e l IH]; simpl; [reflexivity|].
  rewrite insert_In, IH. intuition congruence.
Qed.

Lemma insert_length (e : string * Q) (l : list (string * Q)) :
  length (insert e l) = S (length l).
Proof.
  induction l as [|y l IH]; simpl; [reflexivity|].
  destruct (negb (Qle_bool (snd y) (snd e))); simpl; [rewrite IH|]; reflexivity.
Qed.

Lemma sort_length (l : list (string * Q)) : length (sort l) = length l.
Proof.
  induction l as [|e l IH]; simpl; [reflexivity|]. rewrite insert_length, IH. reflexivity.
Qed.

Lemma insert_sorted (e : string * Q) (l : list (string * Q)) :
  StronglySorted (fun x y => (snd y <= snd x)%Q) l ->
  StronglySorted (fun x y => (snd y <= snd x)%Q) (insert e l).
Proof.
  induction l as [|y l IH]; intros H; simpl; [repeat constructor|].
  apply StronglySorted_inv in H. destruct H as [Hl Hy].
  destruct (Qle_bool (snd y) (snd e)) eqn:E; simpl.
  - apply Qle_bool_iff in E. constructor; [constructor; assumption|].
    constructor; [exact E|].
    apply List.Forall_forall. intros x Hx.
    pose proof (proj1 (List.Forall_forall _ _) Hy x Hx) as Hxy. simpl in Hxy.
    apply (Qle_trans _ (snd y)); assumption.
  - constructor; [apply IH, Hl|].
    apply List.Forall_forall. intros x Hx. apply insert_In in Hx.
    destruct Hx as [-> | Hx]; [|exact (proj1 (List.Forall_forall _ _) Hy x Hx)].
    destruct (Qlt_le_dec (snd e) (snd y)) as [Hlt | Hle]; [apply Qlt_le_weak, Hlt|].
    apply Qle_bool_iff in Hle. congruence.
Qed.

Lemma sort_sorted (l : list (string * Q)) :
  StronglySorted (fun x y => (snd y <= snd x)%Q) (sort l).
Proof.
  induction l as [|e l IH]; simpl; [constructor | apply insert_sorted, IH].
Qed.

Lemma firstn_In {A : Type} (n : nat) :
  forall (l : list A) (x : A), In x (firstn n l) -> In x l.
Proof.
  induction n as [|n IH]; intros [|y l] x H; simpl in H;
    try contradiction.
  destruct H as [H | H]; [left; exact H | right; exact (IH l x H)].
Qed.

Lemma firstn_sorted {A : Type} (R : A -> A -> Prop) (n : nat) :
  forall l, StronglySorted R l -> StronglySorted R (firstn n l).
Proof.
  induction n as [|n IH]; intros l H; [constructor|].
  destruct l as [|x l]; [constructor|]. simpl.
  apply StronglySorted_inv in H. destruct H as [Hl Hx].
  constructor; [apply IH, Hl|].
  apply List.Forall_forall. intros y Hy.
  apply (proj1 (List.Forall_forall _ _) Hx). eapply firstn_In, Hy.
Qed.

Lemma sorted_balances (l : list (string * Q)) :
  StronglySorted (fun x y => (snd y <= snd x)%Q) l ->
  StronglySorted (fun x y => (y <= x)%Q) (map snd l).
Proof.
  induction 1 as [|x l _ IH Hx]; simpl; constructor; [exact IH|].
  apply List.Forall_forall. intros y Hy. apply in_map_iff in Hy.
  destruct Hy as (e & <- & He). exact (proj1 (List.Forall_forall _ _) Hx e He).
Qed.

Lemma ranked_entries (entries : list (string * Q)) :
  forall index,
    length (ranked index entries) = length entries
    /\ (forall rank a v, In (rank, a, v) (ranked index entries) <->
                         exists i, nth_error entries i = Some (a, v)
                                   /\ rank = Z.of_nat (index + i) + 1)
    /\ (forall i e, nth_error (ranked index entries) i = Some e ->
                    fst (fst e) = Z.of_nat (index + i) + 1).
Proof.
  induction entries as [|[a0 v0] entries IH]; intros index.
  - split; [reflexivity|]. split.
    + intros rank a v. split; [intros [] | intros ([|i] & H & _); discriminate].
    + intros [|i] e H; discriminate.
  - destruct (IH (S index)) as (I1 & I2 & I3). split; [simpl; rewrite I1; reflexivity|].
    split.
    + intros rank a v. simpl. rewrite I2. split.
      * intros [E | (i & Hi & ->)].
        -- injection E as <- <- <-. exists 0%nat. split; [reflexivity | f_equal; f_equal; lia].
        -- exists (S i). split; [exact Hi | f_equal; f_equal; lia].
      * intros ([|i] & Hi & ->); simpl in Hi.
        -- injection Hi as <- <-. left. f_equal. f_equal. f_equal. lia.
        -- right. exists i. split; [exact Hi | f_equal; f_equal; lia].
    + intros [|i] e H; simpl in H.
      * injection H as <-. simpl. f_equal. f_equal. lia.
      * rewrite (I3 i e H). f_equal. f_equal. lia.
Qed.

Lemma ranked_balances (entries : list (string * Q)) :
  forall index, map snd (ranked index entries) = map snd entries.
Proof.
  induction entries as [|[a v] entries IH]; intros index; [reflexivity|].
  simpl. rewrite IH. reflexivity.
Qed.

(** X26.  The rich list has at most 100 entries, ranked from 1 in the
    order of the list, with balances that do not increase down the list;
    the balance of every entry is positive and is the balance that
    [getBalance] gives for the address; and when the list has fewer than
    100 entries, every address with a positive balance is on it. *)
Theorem richList_balances (this : Blockchain.t) :
  (length (richList this) <= 100)%nat
  /\ (forall i e, nth_error (richList this) i = Some e -> fst (fst e) = Z.of_nat i + 1)
  /\ StronglySorted (fun x y => (y <= x)%Q) (map snd (richList this))
  /\ (forall rank address balance,
        In (rank, address, balance) (richList this) ->
        (0 < balance)%Q /\ balance = Blockchain.getBalance this (Some address))
  /\ ((length (richList this) < 100)%nat ->
      forall address,
        address <> "" ->
        (0 < Blockchain.getBalance this (Some address))%Q ->
        exists rank,
          In (rank, address, Blockchain.getBalance this (Some address)) (richList this)).
Proof.
  unfold richList. rewrite slice_prefix by lia. change (Z.to_nat 100) with 100%nat.
  set (positive := List.filter (fun e => negb (Qle_bool (snd e) 0)) (balances this)).
  destruct (ranked_entries (firstn 100 (sort positive)) 0) as (R1 & R2 & R3).
  assert (Hin : forall a v, In (a, v) (firstn 100 (sort positive)) ->
                  (0 < v)%Q /\ v = Blockchain.getBalance this (Some a)).
  { intros a v H. apply firstn_In in H. apply (proj1 (sort_In _ _)) in H.
    apply filter_In in H.
    destruct H as [H Hpos]. simpl in Hpos. split.
    - destruct (Qlt_le_dec 0 v) as [Hlt | Hle]; [exact Hlt|].
      apply Qle_bool_iff in Hle. rewrite Hle in Hpos. discriminate.
    - apply (balances_getBalance this a v H). }
  split; [rewrite R1, length_firstn; lia|]. split; [exact (R3)|]. split.
  { rewrite ranked_balances. apply sorted_balances, firstn_sorted, sort_sorted. }
  split.
  { intros rank a v H. apply (proj1 (R2 _ _ _)) in H. destruct H as (i & Hi & _).
    apply Hin. eapply nth_error_In, Hi. }
  intros Hshort a Ha Hpos. rewrite R1, length_firstn, sort_length in Hshort.
  assert (Hall : firstn 100 (sort positive) = sort positive).
  { apply firstn_all2. rewrite sort_length. lia. }
  rewrite Hall in R2.
  assert (Hlisted : In (a, Blockchain.getBalance this (Some a)) (sort positive)).
  { apply (proj2 (sort_In _ _)). apply filter_In.
    split; [apply getBalance_listed; assumption|].
    simpl. destruct (Qle_bool _ 0) eqn:E; [|reflexivity].
    apply Qle_bool_iff in E. exfalso. apply (Qlt_not_le _ _ Hpos E). }
  apply In_nth_error in Hlisted. destruct Hlisted as (i & Hi).
  exists (Z.of_nat (0 + i) + 1). rewrite Hall. apply (proj2 (R2 _ _ _)).
  exists i. split; [exact Hi | reflexivity].
Qed.

End RichList.

(** ** The ledger under the messages of peers *)

Lemma handleMessage_pool (peerId : string) (m : KeetaNode.message) (this : KeetaNode.t) :
  Blockchain.pendingTransactions (KeetaNode.blockchain (KeetaNode.handleMessage peerId m this))
  = Blockchain.pendingTransactions (KeetaNode.blockchain this).
Proof.
  destruct m as [data | | data | h]; simpl KeetaNode.handleMessage.
  - unfold KeetaNode.handleBlock.
    destruct data as [b|]; [|reflexivity].
    destruct (KeetaNode.isValidBlock (Some b)); [|reflexivity].
    destruct (KeetaNode.index_is b _); [|reflexivity].
    destruct (KeetaNode.pushed b) as [block|]; [|reflexivity].
    simpl snd. rewrite broadcastToPeers_wire. reflexivity.
  - unfold KeetaNode.handleChainRequest.
    destruct (Blockchain.getLatestBlock _) as [latest|]; [|reflexivity].
    simpl snd.
    destruct (sendToPeer_wire peerId
                (KeetaNode.CHAIN_RESPONSE
                   (KeetaNode.mk_chainData
                      (Blockchain.chain (KeetaNode.blockchain this))
                      (Z.of_nat (length (Blockchain.chain (KeetaNode.blockchain this))))
                      (Block.hash latest))) this) as (sent & -> & _).
    reflexivity.
  - unfold KeetaNode.handleChainResponse, KeetaNode.replaceChain.
    destruct (_ <? KeetaNode.height data); [|reflexivity].
    destruct (_ <? _)%nat; reflexivity.
  - reflexivity.
Qed.

(** X27.  Whatever messages a node receives, in whatever order and
    from whomever, its chain never gets shorter and its pool of pending
    transactions stays as it was: no message removes from the pool the
    transactions that a block received from a peer has already
    included. *)
Theorem receive_grows (ms : list (string * KeetaNode.message)) (this : KeetaNode.t) :
  let after := receive ms this in
  (length (Blockchain.chain (KeetaNode.blockchain this))
   <= length (Blockchain.chain (KeetaNode.blockchain after)))%nat
  /\ Blockchain.pendingTransactions (KeetaNode.blockchain after)
     = Blockchain.pendingTransactions (KeetaNode.blockchain this).
Proof.
  cbv zeta. revert this. induction ms as [|[q m] ms IH]; intros this.
  - split; [apply Nat.le_refl | reflexivity].
  - unfold receive. simpl fold_left. fold (receive ms (KeetaNode.handleMessage q m this)).
    destruct (IH (KeetaNode.handleMessage q m this)) as [Hlen Hpool].
    rewrite Hpool, handleMessage_pool. split; [|reflexivity].
    eapply Nat.le_trans; [|exact Hlen].
    pose proof (handleMessage_chain q m this) as Hchain. cbv zeta in Hchain.
    destruct Hchain as [-> | [(block & -> & _) | (data & _ & Hlt)]].
    + apply Nat.le_refl.
    + rewrite length_app. simpl. lia.
    + lia.
Qed.
